(** * A shallow embedding of the B+Tree key-value engine

    The development follows the Go sources of the repository:
    - package [btree]   (btree/node.go, btree/btree.go, btree/iterator.go),
    - package [storage] (page, page manager, node codec, disk B+Tree).

    Go values are modelled as follows.
    - [int] is [Z]; the platform is taken to be 64-bit, and counters such as
      [size] and [NumKeys] are far from the 64-bit limits.
    - [uint32] and [uint16] are [Z] with the wrap-around written out.
    - A [[]byte] is an [option (list byte)]: [None] is the nil slice, and
      [Some []] the empty non-nil slice, which the code tells apart.
    - A [*Node] is an index into an arena of nodes ([None] is nil); every
      mutation goes through the arena, so aliasing is kept.
    - A run-time panic (index out of range, nil dereference) is the outcome
      [Panic]; an error value returned by a function is [Err]. *)

From Stdlib Require Import ZArith Lia List Bool.
From Stdlib Require Import Strings.Byte Strings.String.
From stdpp Require Import base option list gmap.

Local Open Scope Z_scope.

(** ** Go preliminaries *)

Module Go.

(** The error values built with [fmt.Errorf] in package storage. *)
Inductive error : Type :=
| ErrNilNode          (* cannot serialize nil node *)
| ErrNilKey (i : Z)   (* nil key at index i *)
| ErrTooShort         (* data too short for node deserialization *)
| ErrKeyLength        (* insufficient data for key length *)
| ErrKey              (* insufficient data for key *)
| ErrValueLength      (* insufficient data for value length *)
| ErrValue            (* insufficient data for value *)
| ErrDataTooLarge     (* data too large for page *)
| ErrInvalidSize      (* invalid page size *)
| ErrInvalidPageID    (* invalid page ID for read / write *)
| ErrRead             (* failed to read page (end of file) *)
| ErrClosed.          (* the file handle is nil *)

Inductive result (A : Type) : Type :=
| Ok (a : A)
| Err (e : error)
| Panic
| Diverge.
Arguments Ok {A} a.
Arguments Err {A} e.
Arguments Panic {A}.
Arguments Diverge {A}.

Definition rbind {A B : Type} (m : result A) (k : A -> result B) : result B :=
  match m with
  | Ok a => k a
  | Err e => Err e
  | Panic => Panic
  | Diverge => Diverge
  end.

Definition bytes : Type := list byte.
Definition slice : Type := option bytes.

Definition content (s : slice) : bytes :=
  match s with Some b => b | None => [] end.

Definition len (s : slice) : Z := Z.of_nat (length (content s)).

(** [bytes.Compare]: unsigned lexicographic order, nil being empty. *)
Fixpoint compare_bytes (a b : bytes) : Z :=
  match a, b with
  | [], [] => 0
  | [], _ :: _ => -1
  | _ :: _, [] => 1
  | x :: a', y :: b' =>
      if (Byte.to_N x <? Byte.to_N y)%N then -1
      else if (Byte.to_N y <? Byte.to_N x)%N then 1
      else compare_bytes a' b'
  end.

Definition Compare (a b : slice) : Z := compare_bytes (content a) (content b).

(** [bytes.Equal]: same length and same bytes, nil being empty. *)
Fixpoint equal_bytes (a b : bytes) : bool :=
  match a, b with
  | [], [] => true
  | x :: a', y :: b' => Byte.eqb x y && equal_bytes a' b'
  | _, _ => false
  end.

Definition Equal (a b : slice) : bool := equal_bytes (content a) (content b).

(** [l[i]] and [l[i] = x] on a slice of length [length l]. *)
Definition index {A : Type} (l : list A) (i : Z) : result A :=
  if 0 <=? i then
    match l !! Z.to_nat i with Some x => Ok x | None => Panic end
  else Panic.

Definition assign {A : Type} (l : list A) (i : Z) (x : A) : result (list A) :=
  if (0 <=? i) && (i <? Z.of_nat (length l))
  then Ok (<[Z.to_nat i := x]> l) else Panic.

(** [l[lo:hi]], for a slice whose capacity is its length. *)
Definition sub {A : Type} (l : list A) (lo hi : Z) : result (list A) :=
  if (0 <=? lo) && (lo <=? hi) && (hi <=? Z.of_nat (length l))
  then Ok (take (Z.to_nat (hi - lo)) (drop (Z.to_nat lo) l)) else Panic.

(** [copy(dst[lo:hi], src)]: the result is the whole of [dst] afterwards. *)
Definition copy_to {A : Type} (dst : list A) (lo hi : Z) (src : list A)
  : result (list A) :=
  rbind (sub dst lo hi) (fun window =>
    let n := Nat.min (length window) (length src) in
    Ok (take (Z.to_nat lo) dst ++ take n src ++ drop (Z.to_nat lo + n) dst)).

(** [for i := lo; i < hi; i++ { body }], [hi] fixed and no early exit. *)
Fixpoint for_loop {S : Type} (steps : nat) (i : Z)
    (body : Z -> S -> result S) (s : S) : result S :=
  match steps with
  | O => Ok s
  | Datatypes.S steps' => rbind (body i s) (for_loop steps' (i + 1) body)
  end.

Definition for_range {S : Type} (lo hi : Z) (body : Z -> S -> result S) (s : S)
  : result S :=
  for_loop (Z.to_nat (hi - lo)) lo body s.

(** [for i := hi; i > lo; i-- { body }]. *)
Fixpoint for_down {S : Type} (steps : nat) (i : Z)
    (body : Z -> S -> result S) (s : S) : result S :=
  match steps with
  | O => Ok s
  | Datatypes.S steps' => rbind (body i s) (for_down steps' (i - 1) body)
  end.

Definition for_down_range {S : Type} (hi lo : Z) (body : Z -> S -> result S)
    (s : S) : result S :=
  for_down (Z.to_nat (hi - lo)) hi body s.

(** Conversions to the fixed-width unsigned types. *)
Definition uint32 (z : Z) : Z := z mod 2 ^ 32.
Definition uint16 (z : Z) : Z := z mod 2 ^ 16.

Definition byte_of_Z (z : Z) : byte :=
  match Byte.of_N (Z.to_N (z mod 256)) with Some b => b | None => x00 end.

Definition Z_of_byte (b : byte) : Z := Z.of_N (Byte.to_N b).

(** [binary.LittleEndian]. *)
Definition PutUint32 (v : Z) : bytes :=
  [byte_of_Z v; byte_of_Z (v / 2 ^ 8); byte_of_Z (v / 2 ^ 16);
   byte_of_Z (v / 2 ^ 24)].

Definition Uint32 (b : bytes) : result Z :=
  match b with
  | b0 :: b1 :: b2 :: b3 :: _ =>
      Ok (Z_of_byte b0 + Z_of_byte b1 * 2 ^ 8 + Z_of_byte b2 * 2 ^ 16
          + Z_of_byte b3 * 2 ^ 24)
  | _ => Panic
  end.

Definition PutUint16 (v : Z) : bytes :=
  [byte_of_Z v; byte_of_Z (v / 2 ^ 8)].

Definition Uint16 (b : bytes) : result Z :=
  match b with
  | b0 :: b1 :: _ => Ok (Z_of_byte b0 + Z_of_byte b1 * 2 ^ 8)
  | _ => Panic
  end.

(** State passing for the methods that mutate an object of type [S]. *)
Definition M (S A : Type) : Type := S -> result (A * S).

Definition ret {S A : Type} (a : A) : M S A := fun s => Ok (a, s).

Definition bind {S A B : Type} (m : M S A) (k : A -> M S B) : M S B :=
  fun s =>
    match m s with
    | Ok (a, s') => k a s'
    | Err e => Err e
    | Panic => Panic
    | Diverge => Diverge
    end.

Definition lift {S A : Type} (r : result A) : M S A :=
  fun s => rbind r (fun a => Ok (a, s)).

Definition get {S : Type} : M S S := fun s => Ok (s, s).

Definition modify {S : Type} (f : S -> S) : M S unit := fun s => Ok (tt, f s).

Definition diverge {S A : Type} : M S A := fun _ => Diverge.

(** [for i := lo; i < hi; i++ { body }] over the state. *)
Fixpoint for_loopM {S : Type} (steps : nat) (i : Z) (body : Z -> M S unit)
  : M S unit :=
  match steps with
  | O => ret tt
  | Datatypes.S steps' => bind (body i) (fun _ => for_loopM steps' (i + 1) body)
  end.

Definition for_rangeM {S : Type} (lo hi : Z) (body : Z -> M S unit) : M S unit :=
  for_loopM (Z.to_nat (hi - lo)) lo body.

End Go.

Export Go.

Declare Scope go_scope.
Delimit Scope go_scope with go.
Notation "x <- m ;; k" := (rbind m (fun x => k))
  (at level 100, m at next level, right associativity) : go_scope.
Notation "x <~ m ;; k" := (bind m (fun x => k))
  (at level 100, m at next level, right associativity) : go_scope.
Local Open Scope go_scope.
(** ** Package btree *)

Module btree.

(** btree/node.go *)

Definition MaxKeys : Z := 4.
Definition MinKeys : Z := MaxKeys / 2.

Inductive NodeType : Type := LeafNode | InternalNode.

Definition ptr : Type := nat.

Record Node : Type := mkNode {
  Type_ : NodeType;
  Keys : list slice;
  Values : list slice;
  Children : list (option ptr);
  Next : option ptr;
  Parent : option ptr;
  NumKeys : Z
}.

Definition set_Keys (ks : list slice) (n : Node) : Node :=
  mkNode (Type_ n) ks (Values n) (Children n) (Next n) (Parent n) (NumKeys n).
Definition set_Values (vs : list slice) (n : Node) : Node :=
  mkNode (Type_ n) (Keys n) vs (Children n) (Next n) (Parent n) (NumKeys n).
Definition set_Children (cs : list (option ptr)) (n : Node) : Node :=
  mkNode (Type_ n) (Keys n) (Values n) cs (Next n) (Parent n) (NumKeys n).
Definition set_Next (p : option ptr) (n : Node) : Node :=
  mkNode (Type_ n) (Keys n) (Values n) (Children n) p (Parent n) (NumKeys n).
Definition set_Parent (p : option ptr) (n : Node) : Node :=
  mkNode (Type_ n) (Keys n) (Values n) (Children n) (Next n) p (NumKeys n).
Definition set_NumKeys (k : Z) (n : Node) : Node :=
  mkNode (Type_ n) (Keys n) (Values n) (Children n) (Next n) (Parent n) k.

Definition NewLeafNode : Node :=
  mkNode LeafNode (replicate (Z.to_nat MaxKeys) None)
         (replicate (Z.to_nat MaxKeys) None) [] None None 0.

Definition NewInternalNode : Node :=
  mkNode InternalNode (replicate (Z.to_nat MaxKeys) None) []
         (replicate (Z.to_nat (MaxKeys + 1)) None) None None 0.

Definition IsLeaf (n : Node) : bool :=
  match Type_ n with LeafNode => true | InternalNode => false end.

Definition IsFull (n : Node) : bool := NumKeys n =? MaxKeys.

Definition IsUnderflow (n : Node) : bool :=
  match Parent n with
  | None => false
  | Some _ => NumKeys n <? MinKeys
  end.

Definition KeyAt (n : Node) (i : Z) : result slice :=
  if (i <? 0) || (i >=? NumKeys n) then Ok None else index (Keys n) i.

Definition ValueAt (n : Node) (i : Z) : result slice :=
  if negb (IsLeaf n) || (i <? 0) || (i >=? NumKeys n) then Ok None
  else index (Values n) i.

Definition ChildAt (n : Node) (i : Z) : result (option ptr) :=
  if IsLeaf n || (i <? 0) || (i >? NumKeys n) then Ok None
  else index (Children n) i.

(** btree/btree.go: the tree owns its nodes; [nodes] is the arena in which
    the [*Node] values live, allocation appends to it. *)

Record BTree : Type := mkBTree {
  nodes : list Node;
  root : option ptr;
  size : Z
}.

Definition set_nodes (ns : list Node) (bt : BTree) : BTree :=
  mkBTree ns (root bt) (size bt).
Definition set_root (r : option ptr) (bt : BTree) : BTree :=
  mkBTree (nodes bt) r (size bt).
Definition set_size (k : Z) (bt : BTree) : BTree :=
  mkBTree (nodes bt) (root bt) k.

(** [*p] for reading. *)
Definition node_at (bt : BTree) (p : option ptr) : result Node :=
  match p with
  | None => Panic
  | Some h => match nodes bt !! h with Some n => Ok n | None => Panic end
  end.

Definition deref (p : option ptr) : M BTree Node := fun bt => lift (node_at bt p) bt.

(** A group of assignments to fields of [*p]. *)
Definition update (p : option ptr) (f : Node -> result Node) : M BTree unit :=
  fun bt =>
    rbind (node_at bt p) (fun n =>
    rbind (f n) (fun n' =>
      match p with
      | Some h => Ok (tt, set_nodes (<[h := n']> (nodes bt)) bt)
      | None => Panic
      end)).

(** [&Node{...}] *)
Definition alloc (n : Node) : M BTree ptr :=
  fun bt => Ok (length (nodes bt), set_nodes (nodes bt ++ [n]) bt).

Definition New : BTree := mkBTree [NewLeafNode] (Some 0%nat) 0.

(** [for i := 0; i < node.NumKeys; i++] with an early [return i]. *)
Fixpoint findKeyIndex_loop (steps : nat) (n : Node) (key : slice) (i : Z)
  : result Z :=
  match steps with
  | O => Ok (NumKeys n)
  | S steps' =>
      nodeKey <- KeyAt n i ;;
      match nodeKey with
      | None => findKeyIndex_loop steps' n key (i + 1)
      | Some _ =>
          if Compare key nodeKey <=? 0 then Ok i
          else findKeyIndex_loop steps' n key (i + 1)
      end
  end.

Definition findKeyIndex_node (n : Node) (key : slice) : result Z :=
  findKeyIndex_loop (Z.to_nat (NumKeys n)) n key 0.

Definition findKeyIndex (bt : BTree) (node : option ptr) (key : slice)
  : result Z :=
  match node with
  | None => Ok 0
  | Some _ => n <- node_at bt node ;; findKeyIndex_node n key
  end.

Fixpoint findChildIndex_loop (steps : nat) (n : Node) (key : slice) (i : Z)
  : result Z :=
  match steps with
  | O => Ok (NumKeys n)
  | S steps' =>
      k <- KeyAt n i ;;
      if Compare key k <? 0 then Ok i
      else findChildIndex_loop steps' n key (i + 1)
  end.

Definition findChildIndex (n : Node) (key : slice) : result Z :=
  findChildIndex_loop (Z.to_nat (NumKeys n)) n key 0.

(** The descent of [findLeaf]. The loop reads the tree without changing it,
    so a descent longer than the number of nodes revisits a node and never
    ends: [Diverge]. *)
Fixpoint findLeaf_loop (fuel : nat) (bt : BTree) (key : slice)
    (current : option ptr) : result (option ptr) :=
  match current with
  | None => Ok None
  | Some _ =>
      n <- node_at bt current ;;
      if IsLeaf n then Ok current
      else
        match fuel with
        | O => Diverge
        | S fuel' =>
            i <- findChildIndex n key ;;
            child <- ChildAt n i ;;
            match child with
            | None => Ok current
            | Some _ => findLeaf_loop fuel' bt key child
            end
        end
  end.

Definition findLeaf (bt : BTree) (key : slice) : result (option ptr) :=
  findLeaf_loop (length (nodes bt)) bt key (root bt).

Definition Get (bt : BTree) (key : slice) : result (slice * bool) :=
  match root bt with
  | None => Ok (None, false)
  | Some _ =>
      leaf <- findLeaf bt key ;;
      i <- findKeyIndex bt leaf key ;;
      if 0 <=? i then
        n <- node_at bt leaf ;;
        if i <? NumKeys n then
          k <- KeyAt n i ;;
          if Equal k key then v <- ValueAt n i ;; Ok (v, true)
          else Ok (None, false)
        else Ok (None, false)
      else Ok (None, false)
  end.

(** [handleUnderflow] has an empty body. *)
Definition handleUnderflow (node : option ptr) : M BTree unit := ret tt.

(** The shifting loop of [deleteFromLeaf] and the decrement. *)
Definition delete_shift (i : Z) (n : Node) : result Node :=
  n' <- for_range i (NumKeys n - 1) (fun i n =>
          k <- index (Keys n) (i + 1) ;;
          ks <- assign (Keys n) i k ;;
          v <- index (Values n) (i + 1) ;;
          vs <- assign (Values n) i v ;;
          Ok (set_Values vs (set_Keys ks n))) n ;;
  Ok (set_NumKeys (NumKeys n' - 1) n').

Definition deleteFromLeaf (leaf : option ptr) (i : Z) : M BTree unit :=
  _ <~ update leaf (delete_shift i) ;;
  n <~ deref leaf ;;
  if IsUnderflow n && bool_decide (Parent n <> None)
  then handleUnderflow leaf else ret tt.

Definition Delete (key : slice) : M BTree unit :=
  bt <~ get ;;
  match root bt with
  | None => ret tt
  | Some _ =>
      leaf <~ lift (findLeaf bt key) ;;
      i <~ lift (findKeyIndex bt leaf key) ;;
      if 0 <=? i then
        n <~ deref leaf ;;
        if i <? NumKeys n then
          k <~ lift (KeyAt n i) ;;
          if Equal k key then
            _ <~ deleteFromLeaf leaf i ;;
            modify (fun bt => set_size (size bt - 1) bt)
          else ret tt
        else ret tt
      else ret tt
  end.

(** [splitInternal]; [rec] stands for the call of [insertIntoParent]. *)
Definition splitInternal (rec : ptr -> slice -> ptr -> M BTree unit) (node : ptr)
  : M BTree unit :=
  newNode <~ alloc NewInternalNode ;;
  let midIndex := MaxKeys / 2 in
  _ <~ for_rangeM (midIndex + 1) MaxKeys (fun i =>
         n <~ deref (Some node) ;;
         k <~ lift (index (Keys n) i) ;;
         c <~ lift (index (Children n) i) ;;
         _ <~ update (Some newNode) (fun m =>
                ks <- assign (Keys m) (i - midIndex - 1) k ;;
                cs <- assign (Children m) (i - midIndex - 1) c ;;
                Ok (set_Children cs (set_Keys ks m))) ;;
         _ <~ update (Some node) (fun n =>
                ks <- assign (Keys n) i None ;;
                cs <- assign (Children n) i None ;;
                Ok (set_Children cs (set_Keys ks n))) ;;
         m <~ deref (Some newNode) ;;
         c' <~ lift (index (Children m) (i - midIndex - 1)) ;;
         match c' with
         | Some _ => update c' (fun x => Ok (set_Parent (Some newNode) x))
         | None => ret tt
         end) ;;
  n <~ deref (Some node) ;;
  last <~ lift (index (Children n) MaxKeys) ;;
  _ <~ update (Some newNode) (fun m =>
         cs <- assign (Children m) (MaxKeys / 2) last ;;
         Ok (set_Children cs m)) ;;
  m <~ deref (Some newNode) ;;
  c' <~ lift (index (Children m) (MaxKeys / 2)) ;;
  _ <~ match c' with
       | Some _ => update c' (fun x => Ok (set_Parent (Some newNode) x))
       | None => ret tt
       end ;;
  _ <~ update (Some node) (fun n =>
         cs <- assign (Children n) MaxKeys None ;;
         Ok (set_Children cs n)) ;;
  n <~ deref (Some node) ;;
  middleKey <~ lift (index (Keys n) midIndex) ;;
  _ <~ update (Some node) (fun n =>
         ks <- assign (Keys n) midIndex None ;;
         Ok (set_NumKeys midIndex (set_Keys ks n))) ;;
  _ <~ update (Some newNode) (fun m =>
         Ok (set_NumKeys (MaxKeys - midIndex - 1) m)) ;;
  n <~ deref (Some node) ;;
  match Parent n with
  | None =>
      newRoot <~ alloc NewInternalNode ;;
      _ <~ update (Some newRoot) (fun r =>
             ks <- assign (Keys r) 0 middleKey ;;
             cs <- assign (Children r) 0 (Some node) ;;
             cs' <- assign cs 1 (Some newNode) ;;
             Ok (set_NumKeys 1 (set_Children cs' (set_Keys ks r)))) ;;
      _ <~ update (Some node) (fun x => Ok (set_Parent (Some newRoot) x)) ;;
      _ <~ update (Some newNode) (fun x => Ok (set_Parent (Some newRoot) x)) ;;
      modify (set_root (Some newRoot))
  | Some parent => rec parent middleKey newNode
  end.

(** The body of [insertIntoParent] on the fields of [parent]. *)
Definition parent_insert (i : Z) (key : slice) (rightChild : ptr) (n : Node)
  : result Node :=
  n1 <- for_down_range (NumKeys n) i (fun i n =>
          k <- index (Keys n) (i - 1) ;;
          ks <- assign (Keys n) i k ;;
          c <- index (Children n) i ;;
          cs <- assign (Children n) (i + 1) c ;;
          Ok (set_Children cs (set_Keys ks n))) n ;;
  ks <- assign (Keys n1) i key ;;
  cs <- assign (Children n1) (i + 1) (Some rightChild) ;;
  Ok (set_NumKeys (NumKeys n1 + 1) (set_Children cs (set_Keys ks n1))).

(** [insertIntoParent] and [splitInternal] call each other up the parent
    chain; [fuel] bounds the number of levels climbed. *)
Fixpoint insertIntoParent (fuel : nat) (parent : ptr) (key : slice)
    (rightChild : ptr) : M BTree unit :=
  match fuel with
  | O => diverge
  | S fuel' =>
      _ <~ update (Some rightChild) (fun x => Ok (set_Parent (Some parent) x)) ;;
      bt <~ get ;;
      i <~ lift (findKeyIndex bt (Some parent) key) ;;
      _ <~ update (Some parent) (parent_insert i key rightChild) ;;
      n <~ deref (Some parent) ;;
      if IsFull n then splitInternal (insertIntoParent fuel') parent
      else ret tt
  end.

(** [splitAndInsert], first part: the buffers, the distribution of the
    entries over the two leaves and the relinking of the leaf chain. The
    new leaf is returned. *)
Definition split_leaf (leaf : ptr) (key val : slice) (i : Z) : M BTree ptr :=
  n <~ deref (Some leaf) ;;
  allKeys <~ lift (src <- sub (Keys n) 0 i ;;
                   copy_to (replicate (Z.to_nat (MaxKeys + 1)) None) 0 i src) ;;
  allValues <~ lift (src <- sub (Values n) 0 i ;;
                     copy_to (replicate (Z.to_nat (MaxKeys + 1)) None) 0 i src) ;;
  allKeys <~ lift (assign allKeys i key) ;;
  allValues <~ lift (assign allValues i val) ;;
  allKeys <~ lift (src <- sub (Keys n) i (NumKeys n) ;;
                   copy_to allKeys (i + 1) (Z.of_nat (length allKeys)) src) ;;
  allValues <~ lift (src <- sub (Values n) i (NumKeys n) ;;
                     copy_to allValues (i + 1) (Z.of_nat (length allValues)) src) ;;
  newLeaf <~ alloc NewLeafNode ;;
  let midIndex := (MaxKeys + 1) / 2 in
  _ <~ update (Some leaf) (fun n =>
         n' <- for_range 0 midIndex (fun i n =>
                 k <- index allKeys i ;;
                 ks <- assign (Keys n) i k ;;
                 v <- index allValues i ;;
                 vs <- assign (Values n) i v ;;
                 Ok (set_Values vs (set_Keys ks n))) n ;;
         Ok (set_NumKeys midIndex n')) ;;
  _ <~ update (Some newLeaf) (fun m =>
         m' <- for_range midIndex (MaxKeys + 1) (fun i m =>
                 k <- index allKeys i ;;
                 ks <- assign (Keys m) (i - midIndex) k ;;
                 v <- index allValues i ;;
                 vs <- assign (Values m) (i - midIndex) v ;;
                 Ok (set_Values vs (set_Keys ks m))) m ;;
         Ok (set_NumKeys (MaxKeys + 1 - midIndex) m')) ;;
  _ <~ update (Some leaf) (for_range midIndex MaxKeys (fun i n =>
         ks <- assign (Keys n) i None ;;
         vs <- assign (Values n) i None ;;
         Ok (set_Values vs (set_Keys ks n)))) ;;
  n <~ deref (Some leaf) ;;
  _ <~ update (Some newLeaf) (fun m => Ok (set_Next (Next n) m)) ;;
  _ <~ update (Some leaf) (fun n => Ok (set_Next (Some newLeaf) n)) ;;
  ret newLeaf.

(** [splitAndInsert], last part: the first key of the new leaf goes into
    the parent, or into a new root. *)
Definition link_parent (leaf newLeaf : ptr) : M BTree unit :=
  n <~ deref (Some leaf) ;;
  m <~ deref (Some newLeaf) ;;
  sep <~ lift (index (Keys m) 0) ;;
  match Parent n with
  | None =>
      newRoot <~ alloc NewInternalNode ;;
      _ <~ update (Some newRoot) (fun r =>
             ks <- assign (Keys r) 0 sep ;;
             cs <- assign (Children r) 0 (Some leaf) ;;
             cs' <- assign cs 1 (Some newLeaf) ;;
             Ok (set_NumKeys 1 (set_Children cs' (set_Keys ks r)))) ;;
      _ <~ update (Some leaf) (fun x => Ok (set_Parent (Some newRoot) x)) ;;
      _ <~ update (Some newLeaf) (fun x => Ok (set_Parent (Some newRoot) x)) ;;
      modify (set_root (Some newRoot))
  | Some parent =>
      bt <~ get ;;
      insertIntoParent (length (nodes bt)) parent sep newLeaf
  end.

Definition splitAndInsert (leaf : ptr) (key val : slice) (i : Z)
  : M BTree unit :=
  newLeaf <~ split_leaf leaf key val i ;;
  link_parent leaf newLeaf.

(** The non-splitting branch of [insertIntoLeaf] on the fields of the leaf.
    The loop test [i > index && i > 0] is [i > max index 0]. *)
Definition leaf_insert (i : Z) (key val : slice) (n : Node) : result Node :=
  n1 <- for_down_range (NumKeys n) (Z.max i 0) (fun i n =>
          if (i <? MaxKeys) && (0 <=? i - 1) && (i - 1 <? MaxKeys) then
            k <- index (Keys n) (i - 1) ;;
            ks <- assign (Keys n) i k ;;
            v <- index (Values n) (i - 1) ;;
            vs <- assign (Values n) i v ;;
            Ok (set_Values vs (set_Keys ks n))
          else Ok n) n ;;
  if (i <? Z.of_nat (length (Keys n1))) && (i <? Z.of_nat (length (Values n1)))
  then
    ks <- assign (Keys n1) i key ;;
    vs <- assign (Values n1) i val ;;
    Ok (set_NumKeys (NumKeys n1 + 1) (set_Values vs (set_Keys ks n1)))
  else Ok n1.

Definition insertIntoLeaf (leaf : option ptr) (key val : slice) : M BTree unit :=
  match leaf with
  | None => ret tt
  | Some l =>
      bt <~ get ;;
      i <~ lift (findKeyIndex bt leaf key) ;;
      n <~ deref leaf ;;
      if NumKeys n =? MaxKeys then splitAndInsert l key val i
      else if (i <? 0) || (i >? MaxKeys) then ret tt
      else update leaf (leaf_insert i key val)
  end.

Definition Set_ (key val : slice) : M BTree unit :=
  bt <~ get ;;
  _ <~ match root bt with
       | None => r <~ alloc NewLeafNode ;; modify (set_root (Some r))
       | Some _ => ret tt
       end ;;
  bt <~ get ;;
  leaf <~ lift (findLeaf bt key) ;;
  i <~ lift (findKeyIndex bt leaf key) ;;
  hit <~ (if 0 <=? i then
            n <~ deref leaf ;;
            if i <? NumKeys n then k <~ lift (KeyAt n i) ;; ret (Equal k key)
            else ret false
          else ret false) ;;
  if hit then
    update leaf (fun n => vs <- assign (Values n) i val ;; Ok (set_Values vs n))
  else
    _ <~ insertIntoLeaf leaf key val ;;
    modify (fun bt => set_size (size bt + 1) bt).

Definition Size (bt : BTree) : Z := size bt.

(** btree/iterator.go *)

Record BTreeIterator : Type := mkIter {
  current : option ptr;
  index_ : Z
}.

(** [for index < leaf.NumKeys && bytes.Compare(leaf.KeyAt(index), key) <= 0]:
    the index goes up by one in each round and stops at [NumKeys] at the
    latest. *)
Fixpoint larger_loop (steps : nat) (n : Node) (key : slice) (i : Z) : result Z :=
  match steps with
  | O => Ok i
  | S steps' =>
      if i <? NumKeys n then
        k <- KeyAt n i ;;
        if Compare k key <=? 0 then larger_loop steps' n key (i + 1) else Ok i
      else Ok i
  end.

Definition FindLarger (bt : BTree) (key : slice) : result BTreeIterator :=
  match root bt with
  | None => Ok (mkIter None 0)
  | Some _ =>
      leaf <- findLeaf bt key ;;
      i <- findKeyIndex bt leaf key ;;
      n <- node_at bt leaf ;;
      i <- larger_loop (S (Z.to_nat (NumKeys n - i))) n key i ;;
      if i >=? NumKeys n then Ok (mkIter (Next n) 0) else Ok (mkIter leaf i)
  end.

Definition Next_ (bt : BTree) (it : BTreeIterator)
  : result (slice * slice * BTreeIterator) :=
  match current it with
  | None => Ok (None, None, it)
  | Some _ =>
      n <- node_at bt (current it) ;;
      if index_ it >=? NumKeys n then Ok (None, None, it)
      else
        key <- KeyAt n (index_ it) ;;
        val <- ValueAt n (index_ it) ;;
        let i := index_ it + 1 in
        if (i >=? NumKeys n) && bool_decide (Next n <> None)
        then Ok (key, val, mkIter (Next n) 0)
        else Ok (key, val, mkIter (current it) i)
  end.

Definition ContainsNext (bt : BTree) (it : BTreeIterator) : result bool :=
  match current it with
  | None => Ok false
  | Some _ =>
      n <- node_at bt (current it) ;;
      if index_ it <? NumKeys n then Ok true
      else
        match Next n with
        | None => Ok false
        | Some _ => m <- node_at bt (Next n) ;; Ok (NumKeys m >? 0)
        end
  end.

End btree.

(** ** Package storage *)

Module storage.

Import btree.

(** *** Pages *)

Definition PageSize : Z := 4096.
Definition PageHeaderSize : Z := 16.
Definition MaxPageID : Z := 0xFFFFFFFE.
Definition InvalidPageID : Z := 0xFFFFFFFF.

(** [PageID] is a [uint32], [PageType] a [byte]. *)
Definition PageID : Type := Z.
Definition PageType : Type := byte.

Definition FreePageType : PageType := x00.
Definition BTreeLeafType : PageType := x01.
Definition BTreeInternalType : PageType := x02.
Definition MetaPageType : PageType := x03.

Record PageHeader : Type := mkHeader {
  PageType_ : PageType;
  Reserved : byte;
  DataLength : Z;
  NextPage : PageID;
  PrevPage : PageID;
  Checksum : Z
}.

(** [Data] is the array [[PageSize - PageHeaderSize]byte]. *)
Record Page : Type := mkPage {
  ID : PageID;
  Header : PageHeader;
  Data : bytes
}.

Definition NewPage (id : PageID) (pageType : PageType) : Page :=
  mkPage id (mkHeader pageType x00 0 InvalidPageID InvalidPageID 0)
         (replicate (Z.to_nat (PageSize - PageHeaderSize)) x00).

Definition Serialize (p : Page) : bytes :=
  let h := Header p in
  [PageType_ h; Reserved h] ++ PutUint16 (DataLength h)
    ++ PutUint32 (NextPage h) ++ PutUint32 (PrevPage h)
    ++ PutUint32 (Checksum h)
    ++ take (Z.to_nat (PageSize - PageHeaderSize))
         (Data p ++ replicate (Z.to_nat (PageSize - PageHeaderSize)) x00).

Definition Deserialize (p : Page) (data : bytes) : result Page :=
  if negb (Z.of_nat (length data) =? PageSize) then Err ErrInvalidSize
  else
    ty <- index data 0 ;;
    rs <- index data 1 ;;
    dl <- (b <- sub data 2 4 ;; Uint16 b) ;;
    np <- (b <- sub data 4 8 ;; Uint32 b) ;;
    pp <- (b <- sub data 8 12 ;; Uint32 b) ;;
    cs <- (b <- sub data 12 16 ;; Uint32 b) ;;
    d <- sub data PageHeaderSize (Z.of_nat (length data)) ;;
    Ok (mkPage (ID p) (mkHeader ty rs dl np pp cs) d).

Definition SetData (p : Page) (data : bytes) : result Page :=
  if Z.of_nat (length data) >? Z.of_nat (length (Data p)) then Err ErrDataTooLarge
  else
    let h := Header p in
    Ok (mkPage (ID p)
          (mkHeader (PageType_ h) (Reserved h)
             (uint16 (Z.of_nat (length data))) (NextPage h) (PrevPage h)
             (Checksum h))
          (data ++ replicate (length (Data p) - length data)%nat x00)).

Definition GetData (p : Page) : result bytes :=
  sub (Data p) 0 (DataLength (Header p)).

Definition AvailableSpace (p : Page) : Z :=
  Z.of_nat (length (Data p)) - DataLength (Header p).

Definition updateChecksum (p : Page) : result Page :=
  sum <- for_range 0 (DataLength (Header p)) (fun i sum =>
           b <- index (Data p) i ;; Ok (uint32 (sum + Z_of_byte b))) 0 ;;
  let h := Header p in
  Ok (mkPage (ID p)
        (mkHeader (PageType_ h) (Reserved h) (DataLength h) (NextPage h)
           (PrevPage h) sum)
        (Data p)).

(** *** Page manager

    The backing file is its byte content, [None] once the handle is closed.
    The storage device is taken to be reliable: a read fails only at the end
    of the file, a write only on a closed handle. The mutex is not modelled,
    the embedding being sequential. *)

Record PageManager : Type := mkPM {
  file : option bytes;
  nextPage : PageID;
  freeList : list PageID
}.

Definition WriteAt (f : bytes) (buf : bytes) (off : Z) : bytes :=
  let o := Z.to_nat off in
  take o f ++ replicate (o - length f)%nat x00 ++ buf
    ++ drop (o + length buf)%nat f.

Definition ReadAt (f : bytes) (n : Z) (off : Z) : result bytes :=
  if off + n <=? Z.of_nat (length f)
  then Ok (take (Z.to_nat n) (drop (Z.to_nat off) f))
  else Err ErrRead.

Definition readPageLocked (pm : PageManager) (pageID : PageID) : result Page :=
  if pageID =? InvalidPageID then Err ErrInvalidPageID
  else
    match file pm with
    | None => Err ErrClosed
    | Some f =>
        buf <- ReadAt f PageSize (pageID * PageSize) ;;
        Deserialize (mkPage pageID (mkHeader x00 x00 0 0 0 0)
                       (replicate (Z.to_nat (PageSize - PageHeaderSize)) x00))
                    buf
    end.

Definition writePageLocked (page : Page) : M PageManager (option error) :=
  if ID page =? InvalidPageID then ret (Some ErrInvalidPageID)
  else
    page' <~ lift (updateChecksum page) ;;
    pm <~ get ;;
    match file pm with
    | None => ret (Some ErrClosed)
    | Some f =>
        _ <~ modify (fun pm =>
               mkPM (Some (WriteAt f (Serialize page') (ID page * PageSize)))
                    (nextPage pm) (freeList pm)) ;;
        ret None
    end.

Definition AllocatePage (pageType : PageType)
  : M PageManager (PageID * option error) :=
  pm <~ get ;;
  pageID <~ (match last (freeList pm) with
             | Some id =>
                 _ <~ modify (fun pm =>
                        mkPM (file pm) (nextPage pm)
                             (take (length (freeList pm) - 1) (freeList pm))) ;;
                 ret id
             | None =>
                 _ <~ modify (fun pm =>
                        mkPM (file pm) (uint32 (nextPage pm + 1)) (freeList pm)) ;;
                 ret (nextPage pm)
             end) ;;
  err <~ writePageLocked (NewPage pageID pageType) ;;
  ret (pageID, err).

Definition DeallocatePage (pageID : PageID) : M PageManager (option error) :=
  err <~ writePageLocked (NewPage pageID FreePageType) ;;
  match err with
  | Some e => ret (Some e)
  | None =>
      _ <~ modify (fun pm =>
             mkPM (file pm) (nextPage pm) (freeList pm ++ [pageID])) ;;
      ret None
  end.

Definition ReadPage (pm : PageManager) (pageID : PageID) : result Page :=
  readPageLocked pm pageID.

Definition WritePage (page : Page) : M PageManager (option error) :=
  writePageLocked page.

Definition initializeIfEmpty : M PageManager (option error) :=
  pm <~ get ;;
  match file pm with
  | None => ret (Some ErrClosed)
  | Some f =>
      if Z.of_nat (length f) =? 0 then
        match SetData (NewPage 0 MetaPageType) (list_byte_of_string "SIMPLEDB_V1") with
        | Ok metaPage => writePageLocked metaPage
        | Err e => ret (Some e)
        | Panic => lift Panic
        | Diverge => lift Diverge
        end
      else ret None
  end.

(** [NewPageManager] on a file whose present content is [existing]. *)
Definition NewPageManager (existing : bytes) : result (error + PageManager) :=
  r <- initializeIfEmpty (mkPM (Some existing) 1 []) ;;
  match r with
  | (Some e, _) => Ok (inl e)
  | (None, pm) => Ok (inr pm)
  end.

Definition PageManager_Close : M PageManager (option error) :=
  _ <~ modify (fun pm => mkPM None (nextPage pm) (freeList pm)) ;;
  ret None.

(** *** Node codec *)

(** The key/value part written by the loop of [SerializeNode]. *)
Fixpoint serialize_entries (steps : nat) (node : Node) (i : Z) (buf : bytes)
  : result bytes :=
  match steps with
  | O => Ok buf
  | S steps' =>
      key <- KeyAt node i ;;
      match key with
      | None => Err (ErrNilKey i)
      | Some kb =>
          let buf := buf ++ PutUint32 (uint32 (len key)) ++ kb in
          if IsLeaf node then
            val <- ValueAt node i ;;
            let val := match val with None => Some [] | Some _ => val end in
            serialize_entries steps' node (i + 1)
              (buf ++ PutUint32 (uint32 (len val)) ++ content val)
          else serialize_entries steps' node (i + 1) buf
      end
  end.

Definition SerializeNode (node : option Node) : result bytes :=
  match node with
  | None => Err ErrNilNode
  | Some node =>
      let nodeType := if IsLeaf node then x01 else x00 in
      let buf := [nodeType] ++ PutUint32 (uint32 (NumKeys node)) in
      buf <- serialize_entries (Z.to_nat (NumKeys node)) node 0 buf ;;
      if negb (IsLeaf node) then
        (* for i := 0; i <= node.NumKeys; i++ *)
        for_range 0 (NumKeys node + 1) (fun _ buf => Ok (buf ++ PutUint32 0)) buf
      else Ok (buf ++ PutUint32 0)
  end.

(** One round of the loop of [DeserializeNode], on the pair of the read
    offset and the node being filled. *)
Definition deserialize_entry (data : bytes) (i : Z) (st : Z * Node)
  : result (Z * Node) :=
  let '(offset, node) := st in
  let n := Z.of_nat (length data) in
  if offset + 4 >? n then Err ErrKeyLength
  else
    keyLen <- (b <- sub data offset (offset + 4) ;; Uint32 b) ;;
    let offset := offset + 4 in
    if offset + keyLen >? n then Err ErrKey
    else
      key <- sub data offset (offset + keyLen) ;;
      let offset := offset + keyLen in
      ks <- assign (Keys node) i (Some key) ;;
      let node := set_Keys ks node in
      if IsLeaf node then
        if offset + 4 >? n then Err ErrValueLength
        else
          valLen <- (b <- sub data offset (offset + 4) ;; Uint32 b) ;;
          let offset := offset + 4 in
          if offset + valLen >? n then Err ErrValue
          else
            val <- sub data offset (offset + valLen) ;;
            let offset := offset + valLen in
            vs <- assign (Values node) i (Some val) ;;
            Ok (offset, set_Values vs node)
      else Ok (offset, node).

(** [data] is the content of the argument; a nil argument has length 0. *)
Definition DeserializeNode (data : bytes) : result Node :=
  if Z.of_nat (length data) <? 5 then Err ErrTooShort
  else
    nodeType <- index data 0 ;;
    numKeys <- (b <- sub data 1 5 ;; Uint32 b) ;;
    let node := if Byte.eqb nodeType x01 then NewLeafNode else NewInternalNode in
    st <- for_range 0 numKeys (deserialize_entry data) (5, node) ;;
    Ok (set_NumKeys numKeys (snd st)).

Definition EstimateNodeSize (node : Node) : result Z :=
  sz <- for_range 0 (NumKeys node) (fun i sz =>
          key <- KeyAt node i ;;
          let sz := match key with Some _ => sz + 4 + len key | None => sz end in
          if IsLeaf node then
            val <- ValueAt node i ;;
            match val with
            | Some _ => Ok (sz + 4 + len val)
            | None => Ok (sz + 4)
            end
          else Ok sz) 5 ;;
  if IsLeaf node then Ok (sz + 4) else Ok (sz + 4 * (NumKeys node + 1)).

(** *** Disk B+Tree

    [dnodes] is the arena of the [*btree.Node] values the tree holds;
    [cache] and the package-level table [nodeToPageID] refer to them by
    pointer. *)

Record DiskBTree : Type := mkDisk {
  pm : PageManager;
  rootID : PageID;
  cache : gmap Z ptr;
  dnodes : list Node;
  nodeToPageID : gmap nat Z
}.

Definition set_pm (x : PageManager) (d : DiskBTree) : DiskBTree :=
  mkDisk x (rootID d) (cache d) (dnodes d) (nodeToPageID d).
Definition set_rootID (x : PageID) (d : DiskBTree) : DiskBTree :=
  mkDisk (pm d) x (cache d) (dnodes d) (nodeToPageID d).
Definition set_cache (x : gmap Z ptr) (d : DiskBTree) : DiskBTree :=
  mkDisk (pm d) (rootID d) x (dnodes d) (nodeToPageID d).
Definition set_dnodes (x : list Node) (d : DiskBTree) : DiskBTree :=
  mkDisk (pm d) (rootID d) (cache d) x (nodeToPageID d).
Definition set_nodeToPageID (x : gmap nat Z) (d : DiskBTree) : DiskBTree :=
  mkDisk (pm d) (rootID d) (cache d) (dnodes d) x.

(** A page manager method called through [dbt.pm]. *)
Definition on_pm {A : Type} (m : M PageManager A) : M DiskBTree A :=
  fun d =>
    match m (pm d) with
    | Ok (a, pm') => Ok (a, set_pm pm' d)
    | Err e => Err e
    | Panic => Panic
    | Diverge => Diverge
    end.

(** A call returning [(T, error)]: the error becomes a value. *)
Definition try {S A : Type} (r : result A) : M S (error + A) :=
  fun s =>
    match r with
    | Ok a => Ok (inr a, s)
    | Err e => Ok (inl e, s)
    | Panic => Panic
    | Diverge => Diverge
    end.

Definition dnode_at (d : DiskBTree) (p : option ptr) : result Node :=
  match p with
  | None => Panic
  | Some h => match dnodes d !! h with Some n => Ok n | None => Panic end
  end.

Definition dderef (p : option ptr) : M DiskBTree Node :=
  fun d => lift (dnode_at d p) d.

Definition dupdate (p : option ptr) (f : Node -> result Node)
  : M DiskBTree unit :=
  fun d =>
    rbind (dnode_at d p) (fun n =>
    rbind (f n) (fun n' =>
      match p with
      | Some h => Ok (tt, set_dnodes (<[h := n']> (dnodes d)) d)
      | None => Panic
      end)).

Definition dalloc (n : Node) : M DiskBTree ptr :=
  fun d => Ok (length (dnodes d), set_dnodes (dnodes d ++ [n]) d).

Definition setNodePageID (node : ptr) (pageID : PageID) : M DiskBTree unit :=
  modify (fun d => set_nodeToPageID (<[node := pageID]> (nodeToPageID d)) d).

Definition getPageIDFromNode (d : DiskBTree) (node : ptr) : PageID :=
  match nodeToPageID d !! node with
  | Some pageID => pageID
  | None => InvalidPageID
  end.

Definition loadNode (pageID : PageID) : M DiskBTree (error + ptr) :=
  d <~ get ;;
  match cache d !! pageID with
  | Some node => ret (inr node)
  | None =>
      r <~ try (ReadPage (pm d) pageID) ;;
      match r with
      | inl e => ret (inl e)
      | inr page =>
          data <~ lift (GetData page) ;;
          r <~ try (DeserializeNode data) ;;
          match r with
          | inl e => ret (inl e)
          | inr n =>
              node <~ dalloc n ;;
              _ <~ setNodePageID node pageID ;;
              _ <~ modify (fun d => set_cache (<[pageID := node]> (cache d)) d) ;;
              ret (inr node)
          end
      end
  end.

Definition saveNode (pageID : PageID) (node : ptr) : M DiskBTree (option error) :=
  n <~ dderef (Some node) ;;
  r <~ try (SerializeNode (Some n)) ;;
  match r with
  | inl e => ret (Some e)
  | inr data =>
      let pageType := if IsLeaf n then BTreeLeafType else BTreeInternalType in
      r <~ try (SetData (NewPage pageID pageType) data) ;;
      match r with
      | inl e => ret (Some e)
      | inr page =>
          err <~ on_pm (WritePage page) ;;
          match err with
          | Some e => ret (Some e)
          | None =>
              _ <~ setNodePageID node pageID ;;
              _ <~ modify (fun d => set_cache (<[pageID := node]> (cache d)) d) ;;
              ret None
          end
      end
  end.

Definition saveNodeFromCache (node : ptr) : M DiskBTree unit :=
  d <~ get ;;
  let pageID := getPageIDFromNode d node in
  if negb (pageID =? InvalidPageID) then _ <~ saveNode pageID node ;; ret tt
  else ret tt.

Definition NewDiskBTree (p : PageManager) : result (error + DiskBTree) :=
  let d := mkDisk p 0 ∅ [] ∅ in
  r <- (r <~ on_pm (AllocatePage BTreeLeafType) ;;
        match r with
        | (_, Some e) => ret (Some e)
        | (id, None) =>
            root <~ dalloc NewLeafNode ;;
            err <~ saveNode id root ;;
            match err with
            | Some e => ret (Some e)
            | None => _ <~ modify (set_rootID id) ;; ret None
            end
        end) d ;;
  match r with
  | (Some e, _) => Ok (inl e)
  | (None, d') => Ok (inr d')
  end.

(** The loop of [findLeaf] tests [current != nil && !current.IsLeaf()] and
    leaves at once through [break]: the argument comes back. *)
Definition findLeaf (node : option ptr) (key : slice) : M DiskBTree (option ptr) :=
  match node with
  | None => ret None
  | Some _ => _ <~ dderef node ;; ret node
  end.

Fixpoint findKeyIndex_loop (steps : nat) (n : Node) (key : slice) (i : Z)
  : result Z :=
  match steps with
  | O => Ok (NumKeys n)
  | S steps' =>
      nodeKey <- KeyAt n i ;;
      match nodeKey with
      | None => findKeyIndex_loop steps' n key (i + 1)
      | Some _ =>
          if Compare key nodeKey <=? 0 then Ok i
          else findKeyIndex_loop steps' n key (i + 1)
      end
  end.

Definition findKeyIndex (d : DiskBTree) (node : option ptr) (key : slice)
  : result Z :=
  match node with
  | None => Ok 0
  | Some _ =>
      n <- dnode_at d node ;;
      findKeyIndex_loop (Z.to_nat (NumKeys n)) n key 0
  end.

(** The mutation of [insertIntoLeaf] on the fields of the leaf. *)
Definition leaf_insert (i : Z) (key val : slice) (n : Node) : result Node :=
  n1 <- for_down_range (NumKeys n) i (fun i n =>
          k <- index (Keys n) (i - 1) ;;
          ks <- assign (Keys n) i k ;;
          v <- index (Values n) (i - 1) ;;
          vs <- assign (Values n) i v ;;
          Ok (set_Values vs (set_Keys ks n))) n ;;
  ks <- assign (Keys n1) i key ;;
  vs <- assign (Values n1) i val ;;
  Ok (set_NumKeys (NumKeys n1 + 1) (set_Values vs (set_Keys ks n1))).

Definition insertIntoLeaf (leaf : option ptr) (key val : slice) (i : Z)
  : M DiskBTree unit :=
  match leaf with
  | None => ret tt
  | Some l =>
      n <~ dderef leaf ;;
      if NumKeys n <? MaxKeys then
        _ <~ dupdate leaf (leaf_insert i key val) ;;
        saveNodeFromCache l
      else ret tt
  end.

Definition delete_shift (i : Z) (n : Node) : result Node :=
  n' <- for_range i (NumKeys n - 1) (fun i n =>
          k <- index (Keys n) (i + 1) ;;
          ks <- assign (Keys n) i k ;;
          v <- index (Values n) (i + 1) ;;
          vs <- assign (Values n) i v ;;
          Ok (set_Values vs (set_Keys ks n))) n ;;
  Ok (set_NumKeys (NumKeys n' - 1) n').

Definition deleteFromLeaf (leaf : option ptr) (i : Z) : M DiskBTree unit :=
  match leaf with
  | None => ret tt
  | Some l =>
      if i <? 0 then ret tt
      else
        n <~ dderef leaf ;;
        if i >=? NumKeys n then ret tt
        else
          _ <~ dupdate leaf (delete_shift i) ;;
          saveNodeFromCache l
  end.

(** The test shared by [Get], [Set] and [Delete]:
    [index >= 0 && index < leaf.NumKeys && bytes.Equal(leaf.KeyAt(index), key)]. *)
Definition hit (leaf : option ptr) (key : slice) (i : Z) : M DiskBTree bool :=
  if 0 <=? i then
    n <~ dderef leaf ;;
    if i <? NumKeys n then k <~ lift (KeyAt n i) ;; ret (Equal k key)
    else ret false
  else ret false.

Definition Get (key : slice) : M DiskBTree (slice * bool) :=
  d <~ get ;;
  r <~ loadNode (rootID d) ;;
  match r with
  | inl _ => ret (None, false)
  | inr root =>
      leaf <~ findLeaf (Some root) key ;;
      d <~ get ;;
      i <~ lift (findKeyIndex d leaf key) ;;
      h <~ hit leaf key i ;;
      if h then
        n <~ dderef leaf ;;
        v <~ lift (ValueAt n i) ;;
        ret (v, true)
      else ret (None, false)
  end.

Definition Set_ (key val : slice) : M DiskBTree unit :=
  d <~ get ;;
  r <~ loadNode (rootID d) ;;
  match r with
  | inl _ => ret tt
  | inr root =>
      leaf <~ findLeaf (Some root) key ;;
      d <~ get ;;
      i <~ lift (findKeyIndex d leaf key) ;;
      h <~ hit leaf key i ;;
      if h then
        _ <~ dupdate leaf (fun n =>
               vs <- assign (Values n) i val ;; Ok (set_Values vs n)) ;;
        match leaf with Some l => saveNodeFromCache l | None => lift Panic end
      else insertIntoLeaf leaf key val i
  end.

Definition Delete (key : slice) : M DiskBTree unit :=
  d <~ get ;;
  r <~ loadNode (rootID d) ;;
  match r with
  | inl _ => ret tt
  | inr root =>
      leaf <~ findLeaf (Some root) key ;;
      d <~ get ;;
      i <~ lift (findKeyIndex d leaf key) ;;
      h <~ hit leaf key i ;;
      if h then deleteFromLeaf leaf i else ret tt
  end.

Record DiskBTreeIterator : Type := mkDiskIter {
  dcurrent : PageID;
  dindex : Z
}.

Fixpoint larger_loop (steps : nat) (n : Node) (key : slice) (i : Z) : result Z :=
  match steps with
  | O => Ok i
  | S steps' =>
      if i <? NumKeys n then
        k <- KeyAt n i ;;
        if Compare k key <=? 0 then larger_loop steps' n key (i + 1) else Ok i
      else Ok i
  end.

Definition FindLarger (key : slice) : M DiskBTree DiskBTreeIterator :=
  d <~ get ;;
  r <~ loadNode (rootID d) ;;
  match r with
  | inl _ => ret (mkDiskIter InvalidPageID 0)
  | inr root =>
      leaf <~ findLeaf (Some root) key ;;
      d <~ get ;;
      i <~ lift (findKeyIndex d leaf key) ;;
      n <~ dderef leaf ;;
      i <~ lift (larger_loop (S (Z.to_nat (NumKeys n - i))) n key i) ;;
      if i >=? NumKeys n then ret (mkDiskIter InvalidPageID 0)
      else
        match leaf with
        | Some l => d <~ get ;; ret (mkDiskIter (getPageIDFromNode d l) i)
        | None => lift Panic
        end
  end.

Definition Next_ (it : DiskBTreeIterator)
  : M DiskBTree (slice * slice * DiskBTreeIterator) :=
  if dcurrent it =? InvalidPageID then ret (None, None, it)
  else
    r <~ loadNode (dcurrent it) ;;
    match r with
    | inl _ => ret (None, None, it)
    | inr node =>
        n <~ dderef (Some node) ;;
        if dindex it >=? NumKeys n then ret (None, None, it)
        else
          key <~ lift (KeyAt n (dindex it)) ;;
          val <~ lift (ValueAt n (dindex it)) ;;
          let i := dindex it + 1 in
          if i >=? NumKeys n then ret (key, val, mkDiskIter InvalidPageID i)
          else ret (key, val, mkDiskIter (dcurrent it) i)
    end.

Definition ContainsNext (it : DiskBTreeIterator) : M DiskBTree bool :=
  if dcurrent it =? InvalidPageID then ret false
  else
    r <~ loadNode (dcurrent it) ;;
    match r with
    | inl _ => ret false
    | inr node =>
        n <~ dderef (Some node) ;;
        ret (dindex it <? NumKeys n)
    end.

Definition Close : M DiskBTree (option error) :=
  _ <~ modify (set_cache ∅) ;; ret None.

End storage.

(** ** Operation sequences and observations *)

Definition exec {S A : Type} (m : M S A) (s : S) : result S :=
  match m s with
  | Ok (_, s') => Ok s'
  | Err e => Err e
  | Panic => Panic
  | Diverge => Diverge
  end.

Definition key_of (s : string) : slice := Some (list_byte_of_string s).

(** The mutations of the KV interface. *)
Inductive op : Type :=
| OpSet (key val : slice)
| OpDelete (key : slice).

Definition step_mem (o : op) : M btree.BTree unit :=
  match o with
  | OpSet key val => btree.Set_ key val
  | OpDelete key => btree.Delete key
  end.

Fixpoint run_mem (ops : list op) : M btree.BTree unit :=
  match ops with
  | [] => ret tt
  | o :: ops' => _ <~ step_mem o ;; run_mem ops'
  end.

Definition step_disk (o : op) : M storage.DiskBTree unit :=
  match o with
  | OpSet key val => storage.Set_ key val
  | OpDelete key => storage.Delete key
  end.

Fixpoint run_disk (ops : list op) : M storage.DiskBTree unit :=
  match ops with
  | [] => ret tt
  | o :: ops' => _ <~ step_disk o ;; run_disk ops'
  end.

(** The pairs returned by [n] successive calls of [Next], and the iterator
    they leave. *)
Fixpoint nexts_mem (n : nat) (bt : btree.BTree) (it : btree.BTreeIterator)
  : result (list (slice * slice) * btree.BTreeIterator) :=
  match n with
  | O => Ok ([], it)
  | S n' =>
      r <- btree.Next_ bt it ;;
      let '(k, v, it') := r in
      rest <- nexts_mem n' bt it' ;;
      Ok ((k, v) :: fst rest, snd rest)
  end.

Fixpoint nexts_disk (n : nat) (it : storage.DiskBTreeIterator)
  : M storage.DiskBTree (list (slice * slice) * storage.DiskBTreeIterator) :=
  match n with
  | O => ret ([], it)
  | S n' =>
      r <~ storage.Next_ it ;;
      let '(k, v, it') := r in
      rest <~ nexts_disk n' it' ;;
      ret ((k, v) :: fst rest, snd rest)
  end.

(** What a caller sees of a call that returns a value. *)
Definition value {S A : Type} (m : M S A) (s : S) : result A :=
  match m s with
  | Ok (a, _) => Ok a
  | Err e => Err e
  | Panic => Panic
  | Diverge => Diverge
  end.

(** The occupancy requirement of the data model: every node but the root
    holds at least [MinKeys] keys. *)
Definition occupancy (bt : btree.BTree) : Prop :=
  forall h n, btree.nodes bt !! h = Some n -> btree.Parent n <> None ->
              btree.MinKeys <= btree.NumKeys n.

(** The root of the in-memory tree is a leaf. *)
Definition root_is_leaf (bt : btree.BTree) : bool :=
  match btree.node_at bt (btree.root bt) with
  | Ok n => btree.IsLeaf n
  | _ => false
  end.

(** The in-memory tree runs [ops] and its root is a leaf after each one. *)
Fixpoint stays_leaf (ops : list op) (bt : btree.BTree) : bool :=
  match ops with
  | [] => true
  | o :: ops' =>
      match exec (step_mem o) bt with
      | Ok bt' => root_is_leaf bt' && stays_leaf ops' bt'
      | _ => false
      end
  end.

(** The sequence [old] with [x] put at position [i]: the content of the
    [MaxKeys+1]-slot buffer of a leaf split. *)
Definition inserted {A : Type} (old : list A) (i : Z) (x : A) : list A :=
  take (Z.to_nat i) old ++ x :: drop (Z.to_nat i) old.

(** The keys key01, key02, ... of the splitting test, the first [n] of them,
    and the operations that set each to its value. *)
Definition ascending_keys (n : nat) : list string :=
  take n ["key01"; "key02"; "key03"; "key04"; "key05"; "key06"; "key07";
          "key08"; "key09"; "key10"; "key11"]%string.

Definition ascending_sets (n : nat) : list op :=
  map (fun s => OpSet (key_of s) (key_of ("value_" ++ s))) (ascending_keys n).

(** The tree after the first [n] of these keys are set. *)
Definition tree_after (ops : list op) : btree.BTree :=
  match exec (run_mem ops) btree.New with
  | Ok bt => bt
  | _ => btree.New
  end.

(** ** The node format, entry by entry

    These definitions follow the format description (section 4.2 of the
    specification) and are compared with the codec of package storage. *)

(** A node as the codec expects it: a key count between 0 and [MaxKeys],
    the key and value arrays of the node constructors, no nil key among the
    first [NumKeys]. *)
Definition wf_node (n : btree.Node) : bool :=
  (0 <=? btree.NumKeys n) && (btree.NumKeys n <=? btree.MaxKeys)
  && (Z.of_nat (length (btree.Keys n)) =? btree.MaxKeys)
  && (negb (btree.IsLeaf n)
      || (Z.of_nat (length (btree.Values n)) =? btree.MaxKeys))
  && forallb (fun k : slice => match k with Some _ => true | None => false end)
             (take (Z.to_nat (btree.NumKeys n)) (btree.Keys n)).

(** Every key and value length fits the 4-byte length field. *)
Definition fits32 (n : btree.Node) : bool :=
  forallb (fun k : slice => len k <? 2 ^ 32)
          (take (Z.to_nat (btree.NumKeys n)) (btree.Keys n))
  && (negb (btree.IsLeaf n)
      || forallb (fun v : slice => len v <? 2 ^ 32)
                 (take (Z.to_nat (btree.NumKeys n)) (btree.Values n))).

(** [[4B LE length][key bytes]], and for a leaf [[4B LE length][value bytes]]. *)
Definition entry_bytes (leaf : bool) (k v : slice) : bytes :=
  PutUint32 (uint32 (len k)) ++ content k
    ++ (if leaf then PutUint32 (uint32 (len v)) ++ content v else []).

Definition key_slot (n : btree.Node) (i : Z) : slice :=
  match btree.Keys n !! Z.to_nat i with Some k => k | None => None end.

Definition value_slot (n : btree.Node) (i : Z) : slice :=
  match btree.Values n !! Z.to_nat i with Some v => v | None => None end.

(** The entries [i], [i+1], ... of a node, [steps] of them. *)
Fixpoint entries_bytes (n : btree.Node) (i : Z) (steps : nat) : bytes :=
  match steps with
  | O => []
  | S steps' =>
      entry_bytes (btree.IsLeaf n) (key_slot n i) (value_slot n i)
        ++ entries_bytes n (i + 1) steps'
  end.

(** The slot [i] of [nd] once the entry [i] of [n] is read back. *)
Definition fill_entry (n : btree.Node) (i : Z) (nd : btree.Node) : btree.Node :=
  let nd1 :=
    btree.set_Keys (<[Z.to_nat i := Some (content (key_slot n i))]> (btree.Keys nd)) nd in
  if btree.IsLeaf nd then
    btree.set_Values
      (<[Z.to_nat i := Some (content (value_slot n i))]> (btree.Values nd1)) nd1
  else nd1.

Fixpoint fill (n : btree.Node) (i : Z) (steps : nat) (nd : btree.Node)
  : btree.Node :=
  match steps with
  | O => nd
  | S steps' => fill n (i + 1) steps' (fill_entry n i nd)
  end.

(** [[1B nodeType][4B LE keyCount]] *)
Definition header_bytes (n : btree.Node) : bytes :=
  [if btree.IsLeaf n then x01 else x00] ++ PutUint32 (uint32 (btree.NumKeys n)).

(** Everything before the trailer. *)
Definition body_bytes (n : btree.Node) : bytes :=
  header_bytes n ++ entries_bytes n 0 (Z.to_nat (btree.NumKeys n)).

(** One zero link for a leaf, [NumKeys + 1] zero links for an internal node. *)
Definition trailer_bytes (n : btree.Node) : bytes :=
  if btree.IsLeaf n then PutUint32 0
  else concat (replicate (Z.to_nat (btree.NumKeys n + 1)) (PutUint32 0)).

(** The node the decoder builds from the encoding of [n]. *)
Definition decoded (n : btree.Node) : btree.Node :=
  btree.set_NumKeys (btree.NumKeys n)
    (fill n 0 (Z.to_nat (btree.NumKeys n))
       (if btree.IsLeaf n then btree.NewLeafNode else btree.NewInternalNode)).

(** A leaf with the one key "a" and a value of 2^32 zero bytes. *)
Definition huge_value : bytes := replicate (Z.to_nat (2 ^ 32)) x00.

Definition huge_leaf (v : bytes) : btree.Node :=
  btree.mkNode btree.LeafNode
    [Some [x61]; None; None; None] [Some v; None; None; None] [] None None 1.

(** A leaf at capacity, with the key and value arrays of [NewLeafNode]. *)
Definition full_leaf (n : btree.Node) : bool :=
  btree.IsLeaf n && (btree.NumKeys n =? btree.MaxKeys)
  && (Z.of_nat (length (btree.Keys n)) =? btree.MaxKeys)
  && (Z.of_nat (length (btree.Values n)) =? btree.MaxKeys).

(** Every parent pointer of the tree points to an internal node. *)
Definition parents_internal (bt : btree.BTree) : bool :=
  forallb (fun n =>
             match btree.Parent n with
             | None => true
             | Some p =>
                 match btree.nodes bt !! p with
                 | Some pn => negb (btree.IsLeaf pn)
                 | None => false
                 end
             end) (btree.nodes bt).

(** The node at [h] is an internal node. *)
Definition internal_at (bt : btree.BTree) (h : btree.ptr) : Prop :=
  exists n, btree.nodes bt !! h = Some n /\ btree.IsLeaf n = false.

(** [parents_internal] as a proposition. *)
Definition parents_ok (bt : btree.BTree) : Prop :=
  forall h n p, btree.nodes bt !! h = Some n -> btree.Parent n = Some p ->
                internal_at bt p.

(** From [s] to [s'] every node is still there with its type, and every leaf
    is as it was but for its parent pointer. *)
Definition leaves_kept (s s' : btree.BTree) : Prop :=
  forall h n, btree.nodes s !! h = Some n ->
    exists n', btree.nodes s' !! h = Some n' /\
               btree.Type_ n' = btree.Type_ n /\
               (btree.IsLeaf n = true ->
                btree.set_Parent None n' = btree.set_Parent None n).

(** The invariant of the propagation of a split: relative to the state [s0]
    it started from, and with the nodes of [I] known to be internal. *)
Definition climbing (s0 : btree.BTree) (I : list btree.ptr) (s : btree.BTree)
  : Prop :=
  leaves_kept s0 s /\ parents_ok s /\ Forall (internal_at s) I.

(** ** The two variants side by side *)

(** The pairs that [n] calls of [Next] return on the iterator of
    [FindLarger key]. *)
Definition scan_mem (n : nat) (bt : btree.BTree) (key : slice)
  : result (list (slice * slice)) :=
  it <- btree.FindLarger bt key ;;
  r <- nexts_mem n bt it ;;
  Ok (fst r).

Definition scan_disk (n : nat) (key : slice)
  : M storage.DiskBTree (list (slice * slice)) :=
  it <~ storage.FindLarger key ;;
  r <~ nexts_disk n it ;;
  ret (fst r).

(** A leaf that is a whole tree: the arrays of [NewLeafNode], a key count
    within them, no neighbour and no parent. *)
Definition lone_leaf (n : btree.Node) : Prop :=
  btree.IsLeaf n = true /\
  length (btree.Keys n) = 4%nat /\ length (btree.Values n) = 4%nat /\
  0 <= btree.NumKeys n <= 4 /\
  btree.Next n = None /\ btree.Parent n = None.

(** The in-memory tree is the single leaf [n]. *)
Definition mem_holds (bt : btree.BTree) (n : btree.Node) : Prop :=
  exists rp, btree.root bt = Some rp /\ btree.nodes bt !! rp = Some n.

(** The disk tree has the leaf [n] in its cache under the root page, and
    knows the page of this node. *)
Definition disk_holds (d : storage.DiskBTree) (n : btree.Node) : Prop :=
  exists dp,
    storage.cache d !! storage.rootID d = Some dp /\
    storage.dnodes d !! dp = Some n /\
    storage.nodeToPageID d !! dp = Some (storage.rootID d) /\
    storage.rootID d <> storage.InvalidPageID.

(** Both variants hold the same single leaf. *)
Definition same_leaf (bt : btree.BTree) (d : storage.DiskBTree) : Prop :=
  exists n, lone_leaf n /\ mem_holds bt n /\ disk_holds d n.

(** The operations on one leaf that both variants run while the tree is a
    single leaf. [leaf_set] gives [None] when the leaf is full and the key
    is new: the in-memory tree splits there. *)
Definition leaf_hit (n : btree.Node) (key : slice) (i : Z) : result bool :=
  if 0 <=? i then
    if i <? btree.NumKeys n
    then k <- btree.KeyAt n i ;; Ok (Equal k key)
    else Ok false
  else Ok false.

Definition leaf_get (n : btree.Node) (key : slice) : result (slice * bool) :=
  i <- btree.findKeyIndex_node n key ;;
  h <- leaf_hit n key i ;;
  if h then v <- btree.ValueAt n i ;; Ok (v, true) else Ok (None, false).

Definition leaf_set (n : btree.Node) (key val : slice)
  : result (option btree.Node) :=
  i <- btree.findKeyIndex_node n key ;;
  h <- leaf_hit n key i ;;
  if h then
    vs <- assign (btree.Values n) i val ;; Ok (Some (btree.set_Values vs n))
  else if btree.NumKeys n =? btree.MaxKeys then Ok None
  else n' <- btree.leaf_insert i key val n ;; Ok (Some n').

Definition leaf_delete (n : btree.Node) (key : slice) : result btree.Node :=
  i <- btree.findKeyIndex_node n key ;;
  h <- leaf_hit n key i ;;
  if h then btree.delete_shift i n else Ok n.

Fixpoint leaf_nexts (count : nat) (n : btree.Node) (i : Z)
  : result (list (slice * slice)) :=
  match count with
  | O => Ok []
  | S count' =>
      if i >=? btree.NumKeys n then
        rest <- leaf_nexts count' n i ;; Ok ((None, None) :: rest)
      else
        k <- btree.KeyAt n i ;;
        v <- btree.ValueAt n i ;;
        rest <- leaf_nexts count' n (i + 1) ;;
        Ok ((k, v) :: rest)
  end.

Definition leaf_scan (count : nat) (n : btree.Node) (key : slice)
  : result (list (slice * slice)) :=
  i <- btree.findKeyIndex_node n key ;;
  i <- btree.larger_loop (S (Z.to_nat (btree.NumKeys n - i))) n key i ;;
  leaf_nexts count n i.

(** The page manager of an empty file, and the disk tree opened on it. *)
Definition fresh_pm : storage.PageManager :=
  match storage.NewPageManager [] with
  | Ok (inr p) => p
  | _ => storage.mkPM None 1 []
  end.

Definition fresh_disk : storage.DiskBTree :=
  match storage.NewDiskBTree fresh_pm with
  | Ok (inr d) => d
  | _ => storage.mkDisk fresh_pm 0 ∅ [] ∅
  end.

(** A call that comes back with a value or an error: it neither panics nor
    runs for ever. *)
Definition returns {A : Type} (r : result A) : Prop :=
  match r with Ok _ | Err _ => True | _ => False end.

(** A run that keeps the tree a single leaf: four keys are set, one is
    deleted, one is set again. *)
Definition single_leaf_ops : list op :=
  ascending_sets 4
    ++ [OpDelete (key_of "key02"); OpSet (key_of "key03") (key_of "other")].

(** ** Specifications of state-passing code

    [wp m s Q]: [m] returns from [s], and the result satisfies [Q]. *)
Definition wp {S A : Type} (m : M S A) (s : S) (Q : A -> S -> Prop) : Prop :=
  exists a s', m s = Ok (a, s') /\ Q a s'.

(** [wlp m s Q]: if [m] returns from [s], the result satisfies [Q]. *)
Definition wlp {S A : Type} (m : M S A) (s : S) (Q : A -> S -> Prop) : Prop :=
  forall a s', m s = Ok (a, s') -> Q a s'.

(** ** Pages as Go types them

    A [Page] whose fields hold values of their Go types: [Data] is an array
    of [PageSize - PageHeaderSize] bytes, [DataLength] a [uint16], the page
    links and the checksum [uint32]s. *)
Definition page_typed (p : storage.Page) : Prop :=
  length (storage.Data p) = Z.to_nat (storage.PageSize - storage.PageHeaderSize) /\
  0 <= storage.DataLength (storage.Header p) < 2 ^ 16 /\
  0 <= storage.NextPage (storage.Header p) < 2 ^ 32 /\
  0 <= storage.PrevPage (storage.Header p) < 2 ^ 32 /\
  0 <= storage.Checksum (storage.Header p) < 2 ^ 32.

(** The checksum of [updateChecksum]: the bytes of the data in use, summed
    as a [uint32]. *)
Definition checksum_of (p : storage.Page) : Z :=
  fold_left (fun sum b => uint32 (sum + Z_of_byte b))
    (take (Z.to_nat (storage.DataLength (storage.Header p))) (storage.Data p)) 0.

Definition set_Checksum (c : Z) (p : storage.Page) : storage.Page :=
  let h := storage.Header p in
  storage.mkPage (storage.ID p)
    (storage.mkHeader (storage.PageType_ h) (storage.Reserved h)
       (storage.DataLength h) (storage.NextPage h) (storage.PrevPage h) c)
    (storage.Data p).

(** ** Sample nodes and declared counts *)

(** The root of the in-memory tree after the first [k] sample keys are set;
    a leaf as long as [k <= MaxKeys]. *)
Definition root_after (k : nat) : btree.Node :=
  let bt := tree_after (ascending_sets k) in
  match btree.node_at bt (btree.root bt) with
  | Ok n => n
  | _ => btree.NewLeafNode
  end.

(** The key count that an encoded node declares in its bytes 1 to 4. *)
Definition declared_keys (data : bytes) : result Z :=
  Uint32 (take 4 (drop 1 data)).

(** The state of the decoding loop of [DeserializeNode], the read offset
    and the node being filled, as the loop keeps it. *)
Definition decoding (leaf : bool) (st : Z * btree.Node) : Prop :=
  0 <= fst st /\ btree.IsLeaf (snd st) = leaf /\
  length (btree.Keys (snd st)) = Z.to_nat btree.MaxKeys /\
  (leaf = true -> length (btree.Values (snd st)) = Z.to_nat btree.MaxKeys).

(** ** A leaf as a sorted table

    The entries of a leaf, in slot order: the first [NumKeys] keys, as
    bytes, each with its value. *)

Definition leaf_keys (n : btree.Node) : list slice :=
  take (Z.to_nat (btree.NumKeys n)) (btree.Keys n).

Definition leaf_entries (n : btree.Node) : list (bytes * slice) :=
  zip_with (fun k v => (content k, v)) (leaf_keys n)
    (take (Z.to_nat (btree.NumKeys n)) (btree.Values n)).

(** Strictly ascending in the order of [bytes.Compare]. *)
Fixpoint ascending (l : list bytes) : Prop :=
  match l with
  | [] => True
  | x :: l' => Forall (fun y => compare_bytes x y < 0) l' /\ ascending l'
  end.

(** A single leaf whose keys in use are non-nil and strictly ascending. *)
Definition sorted_leaf (n : btree.Node) : Prop :=
  lone_leaf n /\
  Forall (fun k : slice => k <> None) (leaf_keys n) /\
  ascending (fst <$> leaf_entries n).

(** *** The table that a run of operations describes

    [kv_get] looks a key up, [kv_put] sets it keeping the keys ascending,
    [kv_delete] removes it, [kv_larger] keeps the entries above a bound.
    [kv_set] is [kv_put] on a table of at most [MaxKeys] entries: a new key
    is dropped when the table is full. *)
Fixpoint kv_get (k : bytes) (m : list (bytes * slice)) : slice * bool :=
  match m with
  | [] => (None, false)
  | (k', v) :: m' => if equal_bytes k' k then (v, true) else kv_get k m'
  end.

Fixpoint kv_put (k : bytes) (v : slice) (m : list (bytes * slice)) : list (bytes * slice) :=
  match m with
  | [] => [(k, v)]
  | (k', v') :: m' =>
      if equal_bytes k' k then (k', v) :: m'
      else if compare_bytes k k' <? 0 then (k, v) :: m
      else (k', v') :: kv_put k v m'
  end.

Definition kv_set (k : bytes) (v : slice) (m : list (bytes * slice)) : list (bytes * slice) :=
  if snd (kv_get k m) || (Z.of_nat (length m) <? btree.MaxKeys)
  then kv_put k v m else m.

Definition kv_delete (k : bytes) (m : list (bytes * slice)) : list (bytes * slice) :=
  filter (fun e => equal_bytes (fst e) k = false) m.

Definition kv_larger (k : bytes) (m : list (bytes * slice)) : list (bytes * slice) :=
  filter (fun e => 0 < compare_bytes (fst e) k) m.

(** The pairs that [count] calls of [Next] return on the entries [m]: the
    entries in order, then [(nil, nil)] for ever. *)
Fixpoint pairs_of (count : nat) (m : list (bytes * slice))
  : list (slice * slice) :=
  match count with
  | O => []
  | S count' =>
      match m with
      | [] => (None, None) :: pairs_of count' []
      | e :: m' => (Some (fst e), snd e) :: pairs_of count' m'
      end
  end.

(** Every [Set] of the run has a non-nil key. *)
Definition keyed (ops : list op) : bool :=
  forallb (fun o => match o with
                    | OpSet None _ => false
                    | _ => true
                    end) ops.

Definition replay (ops : list op) (m : list (bytes * slice)) : list (bytes * slice) :=
  fold_left (fun m o =>
               match o with
               | OpSet key val => kv_set (content key) val m
               | OpDelete key => kv_delete (content key) m
               end) ops m.

(** The index at which [findKeyIndex] stops on the keys [l]: the number of
    leading keys below [k]. *)
Fixpoint pos (k : bytes) (l : list bytes) : nat :=
  match l with
  | [] => 0
  | x :: l' => if compare_bytes k x <=? 0 then 0 else S (pos k l')
  end.

(** The number of leading keys that the loop of [FindLarger] steps over:
    those not above [k]. *)
Fixpoint pos_larger (k : bytes) (l : list bytes) : nat :=
  match l with
  | [] => 0
  | x :: l' => if compare_bytes x k <=? 0 then S (pos_larger k l') else 0
  end.

(** The key an operation works on. *)
Definition op_key (o : op) : slice :=
  match o with
  | OpSet key _ => key
  | OpDelete key => key
  end.

(** * Basic facts about the Go layer *)

Section GoFacts.

Context {A : Type}.
Implicit Types (l : list A) (i : Z) (x : A).

Lemma index_Ok l i x :
  index l i = Ok x <-> 0 <= i /\ l !! Z.to_nat i = Some x.
Proof.
  unfold index. destruct (0 <=? i) eqn:E.
  - apply Z.leb_le in E. destruct (l !! Z.to_nat i); split.
    + intros [= ->]. auto.
    + intros [_ [= ->]]. reflexivity.
    + discriminate.
    + intros [_ [=]].
  - apply Z.leb_gt in E. split; [discriminate|]. intros [? _]. lia.
Qed.

Lemma index_in_range l i :
  0 <= i < Z.of_nat (length l) -> exists x, index l i = Ok x.
Proof.
  intros Hi. destruct (lookup_lt_is_Some_2 l (Z.to_nat i)) as [x Hx]; [lia|].
  exists x. apply index_Ok. split; [lia|assumption].
Qed.

Lemma index_not_Err l i e : index l i <> Err e.
Proof. unfold index. destruct (0 <=? i), (l !! Z.to_nat i); discriminate. Qed.

Lemma index_not_Diverge l i : index l i <> Diverge.
Proof. unfold index. destruct (0 <=? i), (l !! Z.to_nat i); discriminate. Qed.

Lemma assign_Ok l i x l' :
  assign l i x = Ok l' <->
  0 <= i < Z.of_nat (length l) /\ l' = <[Z.to_nat i := x]> l.
Proof.
  unfold assign.
  destruct (0 <=? i) eqn:E1, (i <? Z.of_nat (length l)) eqn:E2; simpl;
    rewrite ?Z.leb_le, ?Z.leb_gt, ?Z.ltb_lt, ?Z.ltb_ge in *;
    (split; [intros [= <-] || discriminate | intros [? ->]]);
    try (split; [lia|reflexivity]); try reflexivity; try lia.
Qed.

Lemma assign_in_range l i x :
  0 <= i < Z.of_nat (length l) -> assign l i x = Ok (<[Z.to_nat i := x]> l).
Proof. intros. apply assign_Ok. auto. Qed.

Lemma assign_length l i x l' : assign l i x = Ok l' -> length l' = length l.
Proof. intros [_ ->]%assign_Ok. apply length_insert. Qed.

Lemma sub_Ok l lo hi l' :
  sub l lo hi = Ok l' <->
  0 <= lo <= hi /\ hi <= Z.of_nat (length l) /\
  l' = take (Z.to_nat (hi - lo)) (drop (Z.to_nat lo) l).
Proof.
  unfold sub.
  destruct (0 <=? lo) eqn:E1, (lo <=? hi) eqn:E2,
           (hi <=? Z.of_nat (length l)) eqn:E3; simpl;
    rewrite ?Z.leb_le, ?Z.leb_gt in *;
    (split; [intros [= <-] || discriminate | intros (? & ? & ->)]);
    try (repeat split; lia); try reflexivity; try lia.
Qed.

Lemma sub_length l lo hi l' :
  sub l lo hi = Ok l' -> Z.of_nat (length l') = hi - lo.
Proof.
  intros (H1 & H2 & ->)%sub_Ok. rewrite length_take, length_drop. lia.
Qed.

End GoFacts.

(** A loop keeps what each round keeps. *)
Lemma for_loop_inv {S : Type} (P : S -> Prop) (body : Z -> S -> result S) :
  (forall j x y, P x -> body j x = Ok y -> P y) ->
  forall steps i s s', P s -> for_loop steps i body s = Ok s' -> P s'.
Proof.
  intros Hb. induction steps as [|steps IH]; simpl; intros i s s' Hs H.
  - injection H as <-. assumption.
  - destruct (body i s) as [y| | |] eqn:E; simpl in H; try discriminate.
    eapply IH; [|exact H]. eapply Hb; eassumption.
Qed.

(** A loop whose body returns under an invariant that may mention the
    counter returns, and ends in the invariant at the final counter. *)
Lemma for_loop_total_inv {St : Type} (P : Z -> St -> Prop)
    (body : Z -> St -> result St) :
  forall steps i s,
    (forall j x, i <= j < i + Z.of_nat steps -> P j x ->
       exists y, body j x = Ok y /\ P (j + 1) y) ->
    P i s ->
    exists s', for_loop steps i body s = Ok s' /\ P (i + Z.of_nat steps) s'.
Proof.
  induction steps as [|steps IH]; intros i s Hb Hs; cbn [for_loop].
  { exists s. split; [reflexivity|]. rewrite Z.add_0_r. assumption. }
  destruct (Hb i s ltac:(lia) Hs) as (y & -> & Hy). cbn [rbind].
  destruct (IH (i + 1) y) as (s' & Hs' & HP); [|assumption|].
  { intros j x Hj. apply Hb. lia. }
  exists s'. split; [assumption|].
  replace (i + Z.of_nat (S steps)) with (i + 1 + Z.of_nat steps) by lia.
  assumption.
Qed.

Lemma for_down_inv {S : Type} (P : S -> Prop) (body : Z -> S -> result S) :
  (forall j x y, P x -> body j x = Ok y -> P y) ->
  forall steps i s s', P s -> for_down steps i body s = Ok s' -> P s'.
Proof.
  intros Hb. induction steps as [|steps IH]; simpl; intros i s s' Hs H.
  - injection H as <-. assumption.
  - destruct (body i s) as [y| | |] eqn:E; simpl in H; try discriminate.
    eapply IH; [|exact H]. eapply Hb; eassumption.
Qed.

Lemma equal_bytes_eq (a b : bytes) : equal_bytes a b = true <-> a = b.
Proof.
  revert b. induction a as [|x a IH]; intros [|y b]; simpl;
    try (split; [discriminate|discriminate]); try (split; reflexivity).
  rewrite andb_true_iff, IH. split.
  - intros [H ->]. apply Byte.byte_dec_bl in H. congruence.
  - intros [= -> ->]. split; [apply Byte.byte_dec_lb|]; reflexivity.
Qed.

(** Case analysis on the computation in a hypothesis [H : ... = Ok _]. *)
Ltac inv_ok H :=
  repeat
    (simpl in H;
     match type of H with
     | Ok _ = Ok _ => injection H as H
     | Err _ = Ok _ => discriminate H
     | Panic = Ok _ => discriminate H
     | Diverge = Ok _ => discriminate H
     | rbind ?m _ = Ok _ =>
         let E := fresh "E" in
         destruct m eqn:E; simpl in H; try discriminate H
     | (match ?m with _ => _ end) = Ok _ =>
         let E := fresh "E" in
         destruct m eqn:E; try discriminate H
     end).

(** * Weakest preconditions for state-passing code *)

Section WP.

Context {S : Type}.

Lemma wp_ret {A} (a : A) s (Q : A -> S -> Prop) : Q a s -> wp (ret a) s Q.
Proof. intros. exists a, s. auto. Qed.

Lemma wp_bind {A B} (m : M S A) (k : A -> M S B) s (Q : B -> S -> Prop) :
  wp m s (fun a s' => wp (k a) s' Q) -> wp (bind m k) s Q.
Proof.
  intros (a & s' & Hm & b & s'' & Hk & HQ). exists b, s''.
  unfold bind. rewrite Hm. auto.
Qed.

Lemma wp_lift {A} (r : result A) a s (Q : A -> S -> Prop) :
  r = Ok a -> Q a s -> wp (lift r) s Q.
Proof. intros -> HQ. exists a, s. auto. Qed.

Lemma wp_get s (Q : S -> S -> Prop) : Q s s -> wp get s Q.
Proof. intros. exists s, s. auto. Qed.

Lemma wp_modify (f : S -> S) s (Q : unit -> S -> Prop) :
  Q tt (f s) -> wp (modify f) s Q.
Proof. intros. exists tt, (f s). auto. Qed.

Lemma wp_mono {A} (m : M S A) s (Q Q' : A -> S -> Prop) :
  wp m s Q -> (forall a s', Q a s' -> Q' a s') -> wp m s Q'.
Proof. intros (a & s' & H & HQ) HI. exists a, s'. auto. Qed.

Lemma wp_wlp {A} (m : M S A) s (Q Q' : A -> S -> Prop) :
  wp m s Q -> wlp m s Q' -> wp m s (fun a s' => Q a s' /\ Q' a s').
Proof. intros (a & s' & H & HQ) HI. exists a, s'. auto. Qed.

Lemma wlp_ret {A} (a : A) s (Q : A -> S -> Prop) : Q a s -> wlp (ret a) s Q.
Proof. intros HQ a' s' [= <- <-]. assumption. Qed.

Lemma wlp_bind {A B} (m : M S A) (k : A -> M S B) s (Q : B -> S -> Prop) :
  wlp m s (fun a s' => wlp (k a) s' Q) -> wlp (bind m k) s Q.
Proof.
  intros Hm b s'' H. unfold bind in H.
  destruct (m s) as [[a s']| | |] eqn:E; try discriminate.
  eapply Hm; eauto.
Qed.

Lemma wlp_lift {A} (r : result A) s (Q : A -> S -> Prop) :
  (forall a, r = Ok a -> Q a s) -> wlp (lift r) s Q.
Proof.
  intros HQ a s' H. unfold lift in H. destruct r; simpl in H; try discriminate.
  injection H as <- <-. auto.
Qed.

Lemma wlp_get s (Q : S -> S -> Prop) : Q s s -> wlp get s Q.
Proof. intros HQ a s' [= <- <-]. assumption. Qed.

Lemma wlp_modify (f : S -> S) s (Q : unit -> S -> Prop) :
  Q tt (f s) -> wlp (modify f) s Q.
Proof. intros HQ [] s' [= <-]. assumption. Qed.

Lemma wlp_diverge {A} s (Q : A -> S -> Prop) : wlp diverge s Q.
Proof. intros a s' [=]. Qed.

Lemma wlp_mono {A} (m : M S A) s (Q Q' : A -> S -> Prop) :
  wlp m s Q -> (forall a s', Q a s' -> Q' a s') -> wlp m s Q'.
Proof. intros H HI a s' E. auto. Qed.

(** A loop over the state keeps an invariant that every round keeps. *)
Lemma wlp_for_loopM (I : S -> Prop) (body : Z -> M S unit) :
  (forall j s, I s -> wlp (body j) s (fun _ s' => I s')) ->
  forall steps i s, I s -> wlp (for_loopM steps i body) s (fun _ s' => I s').
Proof.
  intros Hb. induction steps as [|steps IH]; simpl; intros i s Hs.
  - apply wlp_ret. assumption.
  - apply wlp_bind. eapply wlp_mono; [apply Hb; assumption|].
    intros [] s' Hs'. apply IH. assumption.
Qed.

End WP.

(** * The in-memory B+Tree on concrete runs *)

Section Scenarios.

Import btree.

(** C1, at the failing input. Eleven keys are set in ascending order; the
    eleventh insertion fills the root, [splitInternal] stores the last child
    of the new right node in slot [MaxKeys/2] while the node has one key, so
    slot 1 stays nil and the descent stops on the internal node: the key set
    last is not found, and the separator key09 is found with a nil value. *)
Theorem Get_after_Set_lost_by_splitInternal :
  exists bt,
    exec (run_mem (ascending_sets 11)) New = Ok bt /\
    Get bt (key_of "key11") = Ok (None, false) /\
    Get bt (key_of "key10") = Ok (None, false) /\
    Get bt (key_of "key09") = Ok (None, true) /\
    Get bt (key_of "key08") = Ok (key_of "value_key08", true).
Proof.
  eexists. split; [vm_compute; reflexivity|].
  repeat split; vm_compute; reflexivity.
Qed.

(** C5. With [MaxKeys = 4], after the six keys key01 .. key06 are set, each
    with any value, [Size] is 6, [Get] returns every value with found = true,
    and the iterator of [FindLarger "key02"] yields key03, key04, key05 and
    key06 with their values, in this order, and then only (nil, nil). *)
Theorem six_keys_scenario (v1 v2 v3 v4 v5 v6 : slice) :
  exists bt it,
    exec (run_mem [OpSet (key_of "key01") v1; OpSet (key_of "key02") v2;
                   OpSet (key_of "key03") v3; OpSet (key_of "key04") v4;
                   OpSet (key_of "key05") v5; OpSet (key_of "key06") v6])
         New = Ok bt /\
    Size bt = 6 /\
    Get bt (key_of "key01") = Ok (v1, true) /\
    Get bt (key_of "key02") = Ok (v2, true) /\
    Get bt (key_of "key03") = Ok (v3, true) /\
    Get bt (key_of "key04") = Ok (v4, true) /\
    Get bt (key_of "key05") = Ok (v5, true) /\
    Get bt (key_of "key06") = Ok (v6, true) /\
    FindLarger bt (key_of "key02") = Ok it /\
    (exists it',
        nexts_mem 4 bt it =
          Ok ([(key_of "key03", v3); (key_of "key04", v4);
               (key_of "key05", v5); (key_of "key06", v6)], it') /\
        ContainsNext bt it' = Ok false /\
        Next_ bt it' = Ok (None, None, it')).
Proof.
  do 2 eexists. split; [vm_compute; reflexivity|].
  repeat split; try (vm_compute; reflexivity).
  eexists. repeat split; vm_compute; reflexivity.
Qed.

End Scenarios.

(** * Delete in the in-memory B+Tree *)

Section DeleteFacts.

Import btree.

(** The shift of [deleteFromLeaf] only moves keys and values. *)
Lemma delete_shift_fields i n n' :
  delete_shift i n = Ok n' ->
  Type_ n' = Type_ n /\ Children n' = Children n /\ Next n' = Next n /\
  Parent n' = Parent n /\ NumKeys n' = NumKeys n - 1 /\
  length (Keys n') = length (Keys n) /\ length (Values n') = length (Values n).
Proof.
  unfold delete_shift, for_range. intros H.
  destruct (for_loop _ i _ n) as [n1| | |] eqn:E; simpl in H; try discriminate.
  injection H as <-. simpl.
  revert E. generalize (Z.to_nat (NumKeys n - 1 - i)). intros steps E.
  apply (for_loop_inv (fun x =>
           Type_ x = Type_ n /\ Children x = Children n /\ Next x = Next n /\
           Parent x = Parent n /\ NumKeys x = NumKeys n /\
           length (Keys x) = length (Keys n) /\
           length (Values x) = length (Values n))) in E.
  - destruct E as (? & ? & ? & ? & -> & ? & ?). auto 10.
  - clear. intros j x y (? & ? & ? & ? & ? & ? & ?) Hb. inv_ok Hb. subst y. simpl.
    apply assign_length in E0, E2. repeat split; congruence.
  - auto 10.
Qed.

(** What a returning [Delete] has done: nothing, or the shift on the node
    the search ends on, and the decrement of [size]. *)
Lemma Delete_inv key bt bt' :
  Delete key bt = Ok (tt, bt') ->
  bt' = bt \/
  exists l n i k n',
    findLeaf bt key = Ok (Some l) /\ nodes bt !! l = Some n /\
    findKeyIndex bt (Some l) key = Ok i /\
    0 <= i < NumKeys n /\ KeyAt n i = Ok k /\ Equal k key = true /\
    delete_shift i n = Ok n' /\
    bt' = mkBTree (<[l := n']> (nodes bt)) (root bt) (size bt - 1).
Proof.
  unfold Delete, Go.bind, get. intros H.
  destruct (root bt) eqn:Er; [|left; unfold ret in H; congruence].
  unfold lift, rbind in H.
  destruct (findLeaf bt key) as [leaf| | |] eqn:EL; try discriminate.
  destruct (findKeyIndex bt leaf key) as [i| | |] eqn:EI; try discriminate.
  destruct (0 <=? i) eqn:E0; [|left; unfold ret in H; congruence].
  unfold deref, lift, rbind in H.
  destruct (node_at bt leaf) as [n| | |] eqn:EN; try discriminate.
  destruct (i <? NumKeys n) eqn:E1; [|left; unfold ret in H; congruence].
  destruct (KeyAt n i) as [k| | |] eqn:EK; try discriminate.
  destruct (Equal k key) eqn:EE; [|left; unfold ret in H; congruence].
  right.
  unfold deleteFromLeaf, Go.bind, update, rbind in H.
  rewrite EN in H.
  destruct (delete_shift i n) as [n'| | |] eqn:ED; try discriminate.
  destruct leaf as [l|]; [|discriminate].
  unfold deref, lift, rbind, node_at in H. simpl in H.
  simpl in EN. destruct (nodes bt !! l) as [n0|] eqn:EL0; [|discriminate].
  injection EN as ->.
  destruct (<[l:=n']> (nodes bt) !! l) as [n1|] eqn:EL1; [|discriminate].
  unfold handleUnderflow, ret, modify in H.
  exists l, n, i, k, n'.
  assert (bt' = mkBTree (<[l := n']> (nodes bt)) (root bt) (size bt - 1)).
  { destruct (IsUnderflow n1 && bool_decide (Parent n1 <> None));
      injection H as <-; reflexivity. }
  apply Z.leb_le in E0. apply Z.ltb_lt in E1.
  repeat split; auto. rewrite <- Er. assumption.
Qed.

(** [Get] finds a key exactly when [Delete] would remove it. *)
Lemma Get_found key bt v :
  Get bt key = Ok (v, true) ->
  exists l n i k,
    findLeaf bt key = Ok (Some l) /\ nodes bt !! l = Some n /\
    findKeyIndex bt (Some l) key = Ok i /\
    0 <= i < NumKeys n /\ KeyAt n i = Ok k /\ Equal k key = true /\
    ValueAt n i = Ok v.
Proof.
  unfold Get. intros H.
  destruct (root bt) eqn:Er; [|discriminate].
  destruct (findLeaf bt key) as [leaf| | |] eqn:EL; try discriminate.
  simpl in H.
  destruct (findKeyIndex bt leaf key) as [i| | |] eqn:EI; try discriminate.
  simpl in H.
  destruct (0 <=? i) eqn:E0; [|discriminate].
  destruct (node_at bt leaf) as [n| | |] eqn:EN; try discriminate.
  simpl in H.
  destruct (i <? NumKeys n) eqn:E1; [|discriminate].
  destruct (KeyAt n i) as [k| | |] eqn:EK; try discriminate.
  simpl in H.
  destruct (Equal k key) eqn:EE; [|discriminate].
  destruct (ValueAt n i) as [v'| | |] eqn:EV; try discriminate.
  simpl in H. injection H as ->.
  destruct leaf as [l|]; [|discriminate]. simpl in EN.
  destruct (nodes bt !! l) as [n0|] eqn:EL0; [|discriminate].
  injection EN as ->.
  apply Z.leb_le in E0. apply Z.ltb_lt in E1.
  exists l, n, i, k. auto 10.
Qed.

Lemma findLeaf_no_root bt key : root bt = None -> findLeaf bt key = Ok None.
Proof.
  unfold findLeaf. intros ->. destruct (length (nodes bt)); reflexivity.
Qed.

(** The frame of [Delete]: a [Delete] that returns leaves the root pointer
    and the number of nodes as they were, and changes at most one node, the
    one on which the search for the key ends, leaf or not. That node keeps
    its type, children, next link and parent; when it changes, its key count
    drops by one. Every other node is unchanged. *)
Lemma Delete_changes_one_node (bt bt' : BTree) (key : slice) :
  Delete key bt = Ok (tt, bt') ->
  root bt' = root bt /\
  length (nodes bt') = length (nodes bt) /\
  exists leaf,
    findLeaf bt key = Ok leaf /\
    (forall h, Some h <> leaf -> nodes bt' !! h = nodes bt !! h) /\
    (forall h n, leaf = Some h -> nodes bt !! h = Some n ->
       exists n',
         nodes bt' !! h = Some n' /\
         Type_ n' = Type_ n /\ Children n' = Children n /\
         Next n' = Next n /\ Parent n' = Parent n /\
         (n' = n \/ NumKeys n' = NumKeys n - 1)).
Proof.
  intros H. destruct (Delete_inv _ _ _ H) as [->|Hd].
  - repeat split.
    unfold Delete, Go.bind, get in H.
    destruct (root bt) eqn:Er.
    + unfold lift, rbind in H.
      destruct (findLeaf bt key) as [leaf| | |] eqn:EL; try discriminate.
      exists leaf. repeat split. intros h n _ Hn. exists n. auto 10.
    + exists None. split; [apply findLeaf_no_root; assumption|].
      split; [reflexivity|]. discriminate.
  - destruct Hd as (l & n & i & k & n' & HL & Hn & _ & _ & _ & _ & Hs & ->).
    simpl. split; [reflexivity|]. split; [apply length_insert|].
    exists (Some l). split; [assumption|]. split.
    + intros h Hh. apply list_lookup_insert_ne. congruence.
    + intros h n0 [= <-] Hn0. rewrite Hn in Hn0. injection Hn0 as <-.
      exists n'. split.
      * apply list_lookup_insert_eq. eapply lookup_lt_Some; eassumption.
      * apply delete_shift_fields in Hs.
        destruct Hs as (? & ? & ? & ? & ? & _). auto 10.
Qed.

Lemma Delete_changes_one_node_witness :
  let bt := tree_after (ascending_sets 5) in
  let bt' := tree_after (ascending_sets 5 ++ [OpDelete (key_of "key01")]) in
  Delete (key_of "key01") bt = Ok (tt, bt') /\
  root bt' = root bt /\
  nodes bt' !! 1%nat = nodes bt !! 1%nat.
Proof.
  intros bt bt'.
  assert (H : Delete (key_of "key01") bt = Ok (tt, bt'))
    by (vm_compute; reflexivity).
  split; [exact H|].
  destruct (Delete_changes_one_node bt bt' (key_of "key01") H)
    as (Hr & _ & leaf & HL & Hframe & _).
  split; [exact Hr|].
  apply Hframe.
  assert (HL' : findLeaf bt (key_of "key01") = Ok (Some 0%nat))
    by (vm_compute; reflexivity).
  rewrite HL' in HL. injection HL as <-. discriminate.
Defined.

(** C10, at the failing input. Eleven keys are set in ascending order, which
    leaves the internal node 6 (one key, key09) with a nil child in slot 1
    and the leaf 5, its child in slot 2, holding key09, key10 and key11.
    The search of [Delete] for key09 ends on the internal node 6, not on a
    leaf; [Delete] finds key09 there as the separator, and takes it out of
    this internal node, whose key count drops from 1 to 0. The leaf 5 that
    holds key09 is not changed and still holds it, while [size] is
    decremented. *)
Theorem Delete_changes_internal_node :
  exists bt bt' n6 n6' n5,
    exec (run_mem (ascending_sets 11)) New = Ok bt /\
    Delete (key_of "key09") bt = Ok (tt, bt') /\
    findLeaf bt (key_of "key09") = Ok (Some 6%nat) /\
    nodes bt !! 6%nat = Some n6 /\
    IsLeaf n6 = false /\ NumKeys n6 = 1 /\
    KeyAt n6 0 = Ok (key_of "key09") /\
    Children n6 = [Some 4%nat; None; Some 5%nat; None; None] /\
    nodes bt !! 5%nat = Some n5 /\
    IsLeaf n5 = true /\ NumKeys n5 = 3 /\
    KeyAt n5 0 = Ok (key_of "key09") /\
    ValueAt n5 0 = Ok (key_of "value_key09") /\
    nodes bt' !! 6%nat = Some n6' /\
    IsLeaf n6' = false /\ NumKeys n6' = 0 /\ n6' <> n6 /\
    nodes bt' !! 5%nat = Some n5 /\
    size bt = 11 /\ size bt' = 10.
Proof.
  do 5 eexists.
  split; [vm_compute; reflexivity|].
  split; [vm_compute; reflexivity|].
  split; [vm_compute; reflexivity|].
  split; [vm_compute; reflexivity|].
  repeat split; try (vm_compute; reflexivity).
  vm_compute. discriminate.
Qed.

(** C3 as stated fails: key01 .. key05 are set, which splits the first leaf
    into key01, key02 and key03, key04, key05; deleting key01 leaves the
    first leaf, which is not the root, with one key, below [MinKeys]. *)
Lemma Delete_breaks_occupancy :
  exists bt,
    exec (run_mem (ascending_sets 5 ++ [OpDelete (key_of "key01")])) New
      = Ok bt /\
    ~ occupancy bt.
Proof.
  eexists. split; [vm_compute; reflexivity|].
  intros Hocc.
  specialize (Hocc 0%nat _ eq_refl). simpl in Hocc.
  assert (H : MinKeys <= 1) by (apply Hocc; discriminate).
  vm_compute in H. apply H. reflexivity.
Qed.

(** [handleUnderflow] does nothing. *)
Lemma handleUnderflow_noop node (bt : BTree) :
  handleUnderflow node bt = Ok (tt, bt).
Proof. reflexivity. Qed.

(** The shift of [deleteFromLeaf] on a node whose arrays hold its keys: it
    returns, the slots below [i] keep their content, each slot from [i] to
    the last but one takes the content of the next, and the key count drops
    by one. *)
Lemma delete_shift_spec i n :
  0 <= i < NumKeys n ->
  NumKeys n <= Z.of_nat (length (Keys n)) ->
  NumKeys n <= Z.of_nat (length (Values n)) ->
  exists n',
    delete_shift i n = Ok n' /\
    Type_ n' = Type_ n /\ Children n' = Children n /\ Next n' = Next n /\
    Parent n' = Parent n /\ NumKeys n' = NumKeys n - 1 /\
    (forall j : nat,
       Keys n' !! j
       = if bool_decide (i <= Z.of_nat j < NumKeys n - 1)
         then Keys n !! S j else Keys n !! j) /\
    (forall j : nat,
       Values n' !! j
       = if bool_decide (i <= Z.of_nat j < NumKeys n - 1)
         then Values n !! S j else Values n !! j).
Proof.
  intros Hi HK HV. unfold delete_shift, for_range.
  set (body := fun (i : Z) (n : Node) => _).
  destruct (for_loop_total_inv
              (fun c x =>
                 Type_ x = Type_ n /\ Children x = Children n /\
                 Next x = Next n /\ Parent x = Parent n /\
                 NumKeys x = NumKeys n /\
                 length (Keys x) = length (Keys n) /\
                 length (Values x) = length (Values n) /\
                 (forall j : nat,
                    Keys x !! j
                    = if bool_decide (i <= Z.of_nat j < c)
                      then Keys n !! S j else Keys n !! j) /\
                 (forall j : nat,
                    Values x !! j
                    = if bool_decide (i <= Z.of_nat j < c)
                      then Values n !! S j else Values n !! j))
              body (Z.to_nat (NumKeys n - 1 - i)) i n)
    as (n1 & Hloop & HP).
  - intros c x Hc (HT & HC & HX & HPa & HN & HLK & HLV & HKs & HVs).
    unfold body.
    destruct (lookup_lt_is_Some_2 (Keys n) (Z.to_nat (c + 1)) ltac:(lia))
      as [k Hk].
    destruct (lookup_lt_is_Some_2 (Values n) (Z.to_nat (c + 1)) ltac:(lia))
      as [v Hv].
    assert (Hxk : Keys x !! Z.to_nat (c + 1) = Some k).
    { rewrite HKs. rewrite bool_decide_eq_false_2 by lia. exact Hk. }
    assert (Hxv : Values x !! Z.to_nat (c + 1) = Some v).
    { rewrite HVs. rewrite bool_decide_eq_false_2 by lia. exact Hv. }
    assert (Hik : index (Keys x) (c + 1) = Ok k)
      by (apply index_Ok; split; [lia|exact Hxk]).
    assert (Hiv : index (Values x) (c + 1) = Ok v)
      by (apply index_Ok; split; [lia|exact Hxv]).
    rewrite Hik. cbn [rbind].
    rewrite (assign_in_range (Keys x) c k) by lia. cbn [rbind].
    rewrite Hiv. cbn [rbind].
    rewrite (assign_in_range (Values x) c v) by lia. cbn [rbind].
    eexists. split; [reflexivity|].
    unfold set_Values, set_Keys.
    cbn [Type_ Children Next Parent NumKeys Keys Values].
    rewrite !length_insert.
    repeat split; try assumption.
    + intros j. destruct (decide (j = Z.to_nat c)) as [->|Hne].
      * rewrite list_lookup_insert_eq by lia.
        rewrite bool_decide_eq_true_2 by lia.
        replace (S (Z.to_nat c)) with (Z.to_nat (c + 1)) by lia.
        symmetry. exact Hk.
      * rewrite list_lookup_insert_ne by congruence. rewrite HKs.
        destruct (bool_decide (i <= Z.of_nat j < c)) eqn:E.
        -- apply bool_decide_eq_true_1 in E.
           rewrite bool_decide_eq_true_2 by lia. reflexivity.
        -- apply bool_decide_eq_false_1 in E.
           rewrite bool_decide_eq_false_2 by lia. reflexivity.
    + intros j. destruct (decide (j = Z.to_nat c)) as [->|Hne].
      * rewrite list_lookup_insert_eq by lia.
        rewrite bool_decide_eq_true_2 by lia.
        replace (S (Z.to_nat c)) with (Z.to_nat (c + 1)) by lia.
        symmetry. exact Hv.
      * rewrite list_lookup_insert_ne by congruence. rewrite HVs.
        destruct (bool_decide (i <= Z.of_nat j < c)) eqn:E.
        -- apply bool_decide_eq_true_1 in E.
           rewrite bool_decide_eq_true_2 by lia. reflexivity.
        -- apply bool_decide_eq_false_1 in E.
           rewrite bool_decide_eq_false_2 by lia. reflexivity.
  - repeat split; intros j; rewrite bool_decide_eq_false_2 by lia; reflexivity.
  - rewrite Hloop. cbn [rbind]. eexists. split; [reflexivity|].
    destruct HP as (HT & HC & HX & HPa & HN & _ & _ & HKs & HVs).
    replace (i + Z.of_nat (Z.to_nat (NumKeys n - 1 - i))) with (NumKeys n - 1)
      in HKs, HVs by lia.
    unfold set_NumKeys. cbn [Type_ Children Next Parent NumKeys Keys Values].
    repeat split; try assumption. lia.
Qed.

(** C3, amended. [Delete] keeps no occupancy invariant. When the search for
    the key ends on a leaf whose arrays hold its keys, and the key is found
    there, [Delete] returns and has done this and nothing else: the entry is
    taken out of this leaf, the entries after it moving down by one slot and
    the key count dropping by one, and [size] is decremented. The root
    pointer, the number of nodes and every other node are as they were, so
    nothing is borrowed from a sibling, no node is merged or removed, no
    separator or child is dropped from a parent. The leaf keeps its parent,
    its children and its next link; a leaf other than the root that held at
    most [MinKeys] keys is left in underflow. *)
Theorem Delete_never_rebalances (bt : BTree) (key v : slice) (l : ptr) (n : Node) :
  Get bt key = Ok (v, true) ->
  findLeaf bt key = Ok (Some l) ->
  nodes bt !! l = Some n ->
  IsLeaf n = true ->
  NumKeys n <= Z.of_nat (length (Keys n)) ->
  NumKeys n <= Z.of_nat (length (Values n)) ->
  exists bt' n' i,
    Delete key bt = Ok (tt, bt') /\
    findKeyIndex bt (Some l) key = Ok i /\ 0 <= i < NumKeys n /\
    (exists k, KeyAt n i = Ok k /\ Equal k key = true) /\
    nodes bt' !! l = Some n' /\
    IsLeaf n' = true /\ NumKeys n' = NumKeys n - 1 /\
    (forall j, 0 <= j < i ->
       KeyAt n' j = KeyAt n j /\ ValueAt n' j = ValueAt n j) /\
    (forall j, i <= j < NumKeys n - 1 ->
       KeyAt n' j = KeyAt n (j + 1) /\ ValueAt n' j = ValueAt n (j + 1)) /\
    Parent n' = Parent n /\ Children n' = Children n /\ Next n' = Next n /\
    (Parent n <> None -> NumKeys n <= MinKeys -> IsUnderflow n' = true) /\
    root bt' = root bt /\ size bt' = size bt - 1 /\
    length (nodes bt') = length (nodes bt) /\
    (forall h, h <> l -> nodes bt' !! h = nodes bt !! h).
Proof.
  intros HG HL Hn Hleaf HK HV.
  destruct (Get_found _ _ _ HG)
    as (l0 & n0 & i & k & HL0 & Hn0 & Hi & Hr & Hk & He & _).
  rewrite HL in HL0. injection HL0 as <-.
  rewrite Hn in Hn0. injection Hn0 as <-.
  destruct (delete_shift_spec i n Hr HK HV)
    as (n' & ED & HT & HC & HX & HP & HN & HKs & HVs).
  assert (Hl : (l < length (nodes bt))%nat) by (eapply lookup_lt_Some; eassumption).
  exists (mkBTree (<[l := n']> (nodes bt)) (root bt) (size bt - 1)), n', i.
  assert (Hleaf' : IsLeaf n' = true) by (unfold IsLeaf in *; rewrite HT; exact Hleaf).
  split.
  { unfold Delete, Go.bind, get.
    destruct (root bt) eqn:Er;
      [|rewrite (findLeaf_no_root _ _ Er) in HL; discriminate].
    unfold lift, rbind. rewrite HL, Hi.
    destruct (0 <=? i) eqn:E0; [|apply Z.leb_gt in E0; lia].
    unfold deref, lift, rbind, node_at. rewrite Hn.
    destruct (i <? NumKeys n) eqn:E1; [|apply Z.ltb_ge in E1; lia].
    rewrite Hk, He.
    unfold deleteFromLeaf, Go.bind, update, rbind, node_at.
    rewrite Hn, ED.
    unfold deref, lift, rbind, node_at. cbn [nodes set_nodes].
    rewrite list_lookup_insert_eq by assumption.
    destruct (IsUnderflow n' && bool_decide (Parent n' <> None));
      unfold handleUnderflow, ret, modify, set_size, set_nodes;
      cbn [nodes root size]; rewrite Er; reflexivity. }
  split; [exact Hi|]. split; [exact Hr|].
  split; [exists k; auto|].
  cbn [nodes root size].
  split; [apply list_lookup_insert_eq; assumption|].
  split; [exact Hleaf'|]. split; [exact HN|].
  split.
  { intros j Hj. unfold KeyAt, ValueAt. rewrite Hleaf, Hleaf', HN.
    cbn [negb orb].
    destruct (j <? 0) eqn:E1; [apply Z.ltb_lt in E1; lia|].
    destruct (j >=? NumKeys n - 1) eqn:E2;
      [rewrite Z.geb_leb in E2; apply Z.leb_le in E2; lia|].
    destruct (j >=? NumKeys n) eqn:E3;
      [rewrite Z.geb_leb in E3; apply Z.leb_le in E3; lia|].
    unfold index. destruct (0 <=? j); [|auto].
    rewrite HKs, HVs. rewrite !bool_decide_eq_false_2 by lia. auto. }
  split.
  { intros j Hj. unfold KeyAt, ValueAt. rewrite Hleaf, Hleaf', HN.
    cbn [negb orb].
    destruct (j <? 0) eqn:E1; [apply Z.ltb_lt in E1; lia|].
    destruct (j >=? NumKeys n - 1) eqn:E2;
      [rewrite Z.geb_leb in E2; apply Z.leb_le in E2; lia|].
    destruct (j + 1 <? 0) eqn:E4; [apply Z.ltb_lt in E4; lia|].
    destruct (j + 1 >=? NumKeys n) eqn:E3;
      [rewrite Z.geb_leb in E3; apply Z.leb_le in E3; lia|].
    unfold index.
    destruct (0 <=? j) eqn:E5; [|apply Z.leb_gt in E5; lia].
    destruct (0 <=? j + 1) eqn:E6; [|apply Z.leb_gt in E6; lia].
    rewrite HKs, HVs. rewrite !bool_decide_eq_true_2 by lia.
    replace (S (Z.to_nat j)) with (Z.to_nat (j + 1)) by lia. auto. }
  split; [exact HP|]. split; [exact HC|]. split; [exact HX|].
  split.
  { intros Hp Hk'. unfold IsUnderflow. rewrite HP.
    destruct (Parent n); [|congruence]. apply Z.ltb_lt. lia. }
  split; [reflexivity|]. split; [reflexivity|].
  split; [apply length_insert|].
  intros h Hh. apply list_lookup_insert_ne. congruence.
Qed.

Lemma Delete_never_rebalances_witness :
  let bt := tree_after (ascending_sets 5) in
  let bt' := tree_after (ascending_sets 5 ++ [OpDelete (key_of "key01")]) in
  Get bt (key_of "key01") = Ok (key_of "value_key01", true) /\
  findLeaf bt (key_of "key01") = Ok (Some 0%nat) /\
  Delete (key_of "key01") bt = Ok (tt, bt') /\
  length (nodes bt') = length (nodes bt) /\
  (forall h, h <> 0%nat -> nodes bt' !! h = nodes bt !! h).
Proof.
  intros bt bt'.
  assert (HG : Get bt (key_of "key01") = Ok (key_of "value_key01", true))
    by (vm_compute; reflexivity).
  assert (HL : findLeaf bt (key_of "key01") = Ok (Some 0%nat))
    by (vm_compute; reflexivity).
  assert (Hn : nodes bt !! 0%nat
               = Some (mkNode LeafNode
                         [key_of "key01"; key_of "key02"; None; None]
                         [key_of "value_key01"; key_of "value_key02"; None; None]
                         [] (Some 1%nat) (Some 2%nat) 2))
    by (vm_compute; reflexivity).
  assert (HD : Delete (key_of "key01") bt = Ok (tt, bt'))
    by (vm_compute; reflexivity).
  destruct (Delete_never_rebalances bt _ _ 0%nat _ HG HL Hn eq_refl
              ltac:(vm_compute; discriminate) ltac:(vm_compute; discriminate))
    as (bt1 & n' & i & HD1 & _ & _ & _ & _ & _ & _ & _ & _ & _ & _ & _ & _
        & _ & _ & Hlen & Hframe).
  assert (bt1 = bt') as -> by congruence.
  split; [exact HG|]. split; [exact HL|]. split; [exact HD|].
  split; [exact Hlen|exact Hframe].
Defined.

End DeleteFacts.

(** * The node codec *)

Lemma Z_of_byte_of_Z z : Z_of_byte (byte_of_Z z) = z mod 256.
Proof.
  unfold Z_of_byte, byte_of_Z.
  assert (Hr : 0 <= z mod 256 < 256) by (apply Z.mod_pos_bound; lia).
  destruct (Byte.of_N (Z.to_N (z mod 256))) as [b|] eqn:E.
  - apply Byte.to_of_N in E. rewrite E. lia.
  - apply Byte.of_N_None_iff in E. lia.
Qed.

Lemma Z_of_byte_range b : 0 <= Z_of_byte b < 256.
Proof.
  unfold Z_of_byte. pose proof (Byte.to_N_bounded b). lia.
Qed.

Lemma Uint32_PutUint32 v rest :
  0 <= v < 2 ^ 32 -> Uint32 (PutUint32 v ++ rest) = Ok v.
Proof.
  intros Hv. unfold PutUint32, Uint32. simpl. rewrite !Z_of_byte_of_Z. f_equal.
  change (2 ^ 32) with 4294967296 in Hv.
  change (2 ^ 8) with 256. change (2 ^ 16) with 65536. change (2 ^ 24) with 16777216.
  replace (v / 65536) with (v / 256 / 256) by (rewrite Z.div_div by lia; reflexivity).
  replace (v / 16777216) with (v / 256 / 256 / 256)
    by (rewrite !Z.div_div by lia; reflexivity).
  pose proof (Z.div_mod v 256 ltac:(lia)).
  pose proof (Z.div_mod (v / 256) 256 ltac:(lia)).
  pose proof (Z.div_mod (v / 256 / 256) 256 ltac:(lia)).
  assert (0 <= v / 256 / 256 / 256 < 256).
  { split; [repeat apply Z.div_pos; lia|].
    repeat (apply Z.div_lt_upper_bound; [lia|]). lia. }
  rewrite (Z.mod_small (v / 256 / 256 / 256) 256) by lia.
  lia.
Qed.

Lemma PutUint32_length v : length (PutUint32 v) = 4%nat.
Proof. reflexivity. Qed.

Lemma uint32_small v : 0 <= v < 2 ^ 32 -> uint32 v = v.
Proof. intros. unfold uint32. apply Z.mod_small. assumption. Qed.

Lemma Uint32_PutUint32' v : 0 <= v < 2 ^ 32 -> Uint32 (PutUint32 v) = Ok v.
Proof. intros. rewrite <- (app_nil_r (PutUint32 v)). apply Uint32_PutUint32. assumption. Qed.

Lemma sub_at {A : Type} (data p a r : list A) (off : Z) :
  data = p ++ a ++ r -> off = Z.of_nat (length p) ->
  sub data off (off + Z.of_nat (length a)) = Ok a.
Proof.
  intros -> ->. apply sub_Ok. rewrite !length_app. repeat split; try lia.
  rewrite Nat2Z.id.
  replace (Z.to_nat (Z.of_nat (length p) + Z.of_nat (length a) - Z.of_nat (length p)))
    with (length a) by lia.
  rewrite drop_app_length, take_app_length. reflexivity.
Qed.

Section Codec.

Import btree storage.

Lemma len_nonneg (s : slice) : 0 <= len s.
Proof. unfold len. lia. Qed.

(** One round of the decoding loop on one encoded entry. *)
Lemma deserialize_entry_ok (n nd : Node) (pre post : bytes) (i : Z) :
  let e := entry_bytes (IsLeaf nd) (key_slot n i) (value_slot n i) in
  len (key_slot n i) < 2 ^ 32 ->
  (IsLeaf nd = true -> len (value_slot n i) < 2 ^ 32) ->
  0 <= i < Z.of_nat (length (Keys nd)) ->
  (IsLeaf nd = true -> i < Z.of_nat (length (Values nd))) ->
  deserialize_entry (pre ++ e ++ post) i (Z.of_nat (length pre), nd)
  = Ok (Z.of_nat (length (pre ++ e)), fill_entry n i nd).
Proof.
  intros e Hk Hv Hi Hiv. unfold deserialize_entry.
  set (data := pre ++ e ++ post).
  set (k := key_slot n i) in *. set (v := value_slot n i) in *.
  pose proof (len_nonneg k) as Hk0. pose proof (len_nonneg v) as Hv0.
  assert (Hlen : Z.of_nat (length data) = Z.of_nat (length pre) + Z.of_nat (length e) + Z.of_nat (length post)).
  { unfold data. rewrite !length_app. lia. }
  assert (He : Z.of_nat (length e) = 4 + len k + (if IsLeaf nd then 4 + len v else 0)).
  { unfold e, entry_bytes. rewrite !length_app, PutUint32_length. unfold len.
    destruct (IsLeaf nd); [rewrite !length_app, PutUint32_length|simpl]; lia. }
  destruct (Z.of_nat (length pre) + 4 >? Z.of_nat (length data)) eqn:E1.
  { apply Z.gtb_lt in E1. destruct (IsLeaf nd); lia. }
  rewrite (sub_at data pre (PutUint32 (uint32 (len k))) (content k ++ (if IsLeaf nd then PutUint32 (uint32 (len v)) ++ content v else []) ++ post) _).
  2:{ unfold data, e, entry_bytes. rewrite <- !app_assoc. reflexivity. }
  2:{ reflexivity. }
  cbn [rbind]. rewrite uint32_small by lia. rewrite Uint32_PutUint32' by lia.
  cbn [rbind].
  destruct (Z.of_nat (length pre) + 4 + len k >? Z.of_nat (length data)) eqn:E2.
  { apply Z.gtb_lt in E2. destruct (IsLeaf nd); lia. }
  unfold len at 1.
  rewrite (sub_at data (pre ++ PutUint32 (len k)) (content k) ((if IsLeaf nd then PutUint32 (uint32 (len v)) ++ content v else []) ++ post) _).
  2:{ unfold data, e, entry_bytes. rewrite uint32_small by lia. rewrite <- !app_assoc. reflexivity. }
  2:{ rewrite length_app, PutUint32_length. lia. }
  cbn [rbind]. rewrite assign_in_range by lia. cbn [rbind].
  unfold fill_entry. fold k v.
  change (IsLeaf (set_Keys (<[Z.to_nat i:=Some (content k)]> (Keys nd)) nd)) with (IsLeaf nd).
  destruct (IsLeaf nd) eqn:EL.
  - specialize (Hv eq_refl). specialize (Hiv eq_refl).
    fold (len k).
    destruct (Z.of_nat (length pre) + 4 + len k + 4 >? Z.of_nat (length data)) eqn:E3.
    { apply Z.gtb_lt in E3. lia. }
    rewrite (sub_at data (pre ++ PutUint32 (len k) ++ content k) (PutUint32 (uint32 (len v))) (content v ++ post) _).
    2:{ unfold data, e, entry_bytes. rewrite uint32_small by lia. rewrite <- !app_assoc. reflexivity. }
    2:{ rewrite !length_app, PutUint32_length. unfold len. lia. }
    cbn [rbind]. rewrite (uint32_small (len v)) by lia. rewrite Uint32_PutUint32' by lia.
    cbn [rbind].
    destruct (Z.of_nat (length pre) + 4 + len k + 4 + len v >? Z.of_nat (length data)) eqn:E4.
    { apply Z.gtb_lt in E4. lia. }
    unfold len at 3.
    rewrite (sub_at data (pre ++ PutUint32 (len k) ++ content k ++ PutUint32 (len v)) (content v) post _).
    2:{ unfold data, e, entry_bytes. rewrite !uint32_small by lia. rewrite <- !app_assoc. reflexivity. }
    2:{ rewrite !length_app, !PutUint32_length. unfold len. lia. }
    cbn [rbind]. cbn [Values set_Keys]. rewrite assign_in_range by lia. cbn [rbind].
    f_equal. f_equal. rewrite length_app. unfold len in *. lia.
  - f_equal. f_equal. rewrite length_app. unfold len in *. lia.
Qed.

Lemma forallb_take_lookup {A : Type} (f : A -> bool) (l : list A) (m j : nat) x :
  forallb f (take m l) = true -> (j < m)%nat -> l !! j = Some x -> f x = true.
Proof.
  intros H Hj Hx. rewrite forallb_forall in H. apply H.
  apply list_elem_of_In. apply list_elem_of_lookup. exists j.
  rewrite lookup_take_lt by assumption. assumption.
Qed.

(** The content of [wf_node] and [fits32]. *)
Lemma wf_node_range n :
  wf_node n = true ->
  0 <= NumKeys n <= MaxKeys /\ Z.of_nat (length (Keys n)) = MaxKeys /\
  (IsLeaf n = true -> Z.of_nat (length (Values n)) = MaxKeys).
Proof.
  unfold wf_node. rewrite !andb_true_iff, orb_true_iff, negb_true_iff.
  rewrite !Z.leb_le, !Z.eqb_eq. intros ((((? & ?) & ?) & Hv) & _).
  repeat split; try assumption. intros HL. destruct Hv; congruence.
Qed.

Lemma wf_node_key n i :
  wf_node n = true -> 0 <= i < NumKeys n ->
  exists kb : bytes, Keys n !! Z.to_nat i = Some (Some kb : slice).
Proof.
  intros Hwf Hi. pose proof (wf_node_range n Hwf) as (Hr & HK & _).
  unfold wf_node in Hwf. rewrite !andb_true_iff in Hwf. destruct Hwf as (_ & Hf).
  destruct (lookup_lt_is_Some_2 (Keys n) (Z.to_nat i)) as [k Hk]; [lia|].
  pose proof (forallb_take_lookup _ _ _ (Z.to_nat i) k Hf ltac:(lia) Hk) as Hn.
  destruct k as [kb|]; [|discriminate]. exists kb. assumption.
Qed.

Lemma fits32_key n i :
  wf_node n = true -> fits32 n = true -> 0 <= i < NumKeys n ->
  len (key_slot n i) < 2 ^ 32.
Proof.
  intros Hwf Hf Hi. destruct (wf_node_key n i Hwf Hi) as [kb Hk].
  unfold fits32 in Hf. rewrite andb_true_iff in Hf. destruct Hf as (Hf & _).
  pose proof (forallb_take_lookup _ _ _ (Z.to_nat i) _ Hf ltac:(lia) Hk) as Hn.
  apply Z.ltb_lt in Hn. unfold key_slot. rewrite Hk. assumption.
Qed.

Lemma fits32_value n i :
  wf_node n = true -> fits32 n = true -> 0 <= i < NumKeys n ->
  IsLeaf n = true -> len (value_slot n i) < 2 ^ 32.
Proof.
  intros Hwf Hf Hi HL. pose proof (wf_node_range n Hwf) as (Hr & _ & HV).
  specialize (HV HL).
  unfold fits32 in Hf. rewrite andb_true_iff, HL in Hf. destruct Hf as (_ & Hf).
  simpl in Hf.
  destruct (lookup_lt_is_Some_2 (Values n) (Z.to_nat i)) as [v Hv]; [lia|].
  pose proof (forallb_take_lookup _ _ _ (Z.to_nat i) _ Hf ltac:(lia) Hv) as Hn.
  apply Z.ltb_lt in Hn. unfold value_slot. rewrite Hv. assumption.
Qed.

Lemma KeyAt_wf n i :
  wf_node n = true -> 0 <= i < NumKeys n ->
  KeyAt n i = Ok (key_slot n i) /\ exists kb, key_slot n i = Some kb.
Proof.
  intros Hwf Hi. destruct (wf_node_key n i Hwf Hi) as [kb Hk].
  unfold KeyAt, key_slot. rewrite Hk.
  destruct (i <? 0) eqn:E1; [apply Z.ltb_lt in E1; lia|].
  destruct (i >=? NumKeys n) eqn:E2; [apply Z.geb_le in E2; lia|].
  simpl. split; [|eauto]. apply index_Ok. split; [lia|assumption].
Qed.

Lemma ValueAt_wf n i :
  wf_node n = true -> 0 <= i < NumKeys n -> IsLeaf n = true ->
  ValueAt n i = Ok (value_slot n i).
Proof.
  intros Hwf Hi HL. pose proof (wf_node_range n Hwf) as (Hr & _ & HV).
  specialize (HV HL).
  destruct (lookup_lt_is_Some_2 (Values n) (Z.to_nat i)) as [v Hv]; [lia|].
  unfold ValueAt, value_slot. rewrite Hv, HL.
  destruct (i <? 0) eqn:E1; [apply Z.ltb_lt in E1; lia|].
  destruct (i >=? NumKeys n) eqn:E2; [apply Z.geb_le in E2; lia|].
  simpl. apply index_Ok. split; [lia|assumption].
Qed.

(** The encoder writes the entries one after the other. *)
Lemma serialize_entries_ok n :
  wf_node n = true ->
  forall steps i buf,
    0 <= i -> i + Z.of_nat steps <= NumKeys n ->
    serialize_entries steps n i buf = Ok (buf ++ entries_bytes n i steps).
Proof.
  intros Hwf. induction steps as [|steps IH]; intros i buf Hi Hs;
    cbn [serialize_entries entries_bytes].
  - rewrite app_nil_r. reflexivity.
  - destruct (KeyAt_wf n i Hwf ltac:(lia)) as (HK & kb & Hkb).
    rewrite HK. cbn [rbind]. unfold entry_bytes. rewrite Hkb.
    destruct (IsLeaf n) eqn:HL.
    + rewrite (ValueAt_wf n i Hwf ltac:(lia) HL). cbn [rbind].
      rewrite IH by lia. f_equal.
      replace (len match value_slot n i with Some _ => value_slot n i | None => Some [] end)
        with (len (value_slot n i)) by (destruct (value_slot n i); reflexivity).
      replace (content match value_slot n i with Some _ => value_slot n i | None => Some [] end)
        with (content (value_slot n i)) by (destruct (value_slot n i); reflexivity).
      cbn [content]. rewrite <- !app_assoc. reflexivity.
    + rewrite IH by lia. f_equal. cbn [content].
      rewrite <- !app_assoc. reflexivity.
Qed.

Lemma fill_entry_shape n i nd :
  IsLeaf (fill_entry n i nd) = IsLeaf nd /\
  length (Keys (fill_entry n i nd)) = length (Keys nd) /\
  length (Values (fill_entry n i nd)) = length (Values nd).
Proof.
  unfold fill_entry. destruct (IsLeaf nd) eqn:E; simpl;
    rewrite ?length_insert; auto.
Qed.

(** The decoder reads them back one after the other. *)
Lemma deserialize_loop_ok n :
  wf_node n = true -> fits32 n = true ->
  forall steps i pre post nd,
    0 <= i -> i + Z.of_nat steps <= NumKeys n ->
    IsLeaf nd = IsLeaf n ->
    Z.of_nat (length (Keys nd)) = MaxKeys ->
    (IsLeaf nd = true -> Z.of_nat (length (Values nd)) = MaxKeys) ->
    for_loop steps i
      (deserialize_entry (pre ++ entries_bytes n i steps ++ post))
      (Z.of_nat (length pre), nd)
    = Ok (Z.of_nat (length (pre ++ entries_bytes n i steps)), fill n i steps nd).
Proof.
  intros Hwf Hf. pose proof (wf_node_range n Hwf) as (Hr & _ & _).
  induction steps as [|steps IH]; intros i pre post nd Hi Hs HL HK HV;
    cbn [for_loop entries_bytes fill].
  - rewrite app_nil_r. reflexivity.
  - rewrite <- (app_assoc _ _ post).
    rewrite <- HL.
    rewrite (deserialize_entry_ok n nd pre _ i).
    + cbn [rbind]. rewrite HL.
      assert (Hsh := fill_entry_shape n i nd). destruct Hsh as (S1 & S2 & S3).
      rewrite (app_assoc pre). rewrite <- HL.
      rewrite HL.
      rewrite IH; try lia.
      * rewrite <- !app_assoc. reflexivity.
      * congruence.
      * rewrite S1, S3. assumption.
    + apply fits32_key; try assumption; lia.
    + intros E. apply fits32_value; try assumption; try lia. congruence.
    + lia.
    + intros E. specialize (HV E). lia.
Qed.

Lemma fill_fields n steps : forall i nd,
  Type_ (fill n i steps nd) = Type_ nd /\
  Children (fill n i steps nd) = Children nd /\
  Next (fill n i steps nd) = Next nd /\
  Parent (fill n i steps nd) = Parent nd /\
  NumKeys (fill n i steps nd) = NumKeys nd /\
  length (Keys (fill n i steps nd)) = length (Keys nd) /\
  length (Values (fill n i steps nd)) = length (Values nd).
Proof.
  induction steps as [|steps IH]; intros i nd; cbn [fill]; [auto 10|].
  destruct (IH (i + 1) (fill_entry n i nd)) as (-> & -> & -> & -> & -> & -> & ->).
  unfold fill_entry. destruct (IsLeaf nd); simpl; rewrite ?length_insert; auto 10.
Qed.

Lemma fill_below n steps : forall i nd (j : nat),
  0 <= i -> (j < Z.to_nat i)%nat ->
  Keys (fill n i steps nd) !! j = Keys nd !! j /\
  Values (fill n i steps nd) !! j = Values nd !! j.
Proof.
  induction steps as [|steps IH]; intros i nd j Hi Hj; cbn [fill]; [auto|].
  destruct (IH (i + 1) (fill_entry n i nd) j ltac:(lia) ltac:(lia)) as (-> & ->).
  unfold fill_entry. destruct (IsLeaf nd); simpl;
    rewrite ?list_lookup_insert_ne by lia; auto.
Qed.

Lemma fill_in n steps : forall i nd (j : nat),
  0 <= i -> (Z.to_nat i <= j < Z.to_nat i + steps)%nat ->
  (j < length (Keys nd))%nat ->
  Keys (fill n i steps nd) !! j
  = Some (Some (content (key_slot n (Z.of_nat j))) : slice) /\
  (IsLeaf nd = true -> (j < length (Values nd))%nat ->
   Values (fill n i steps nd) !! j
   = Some (Some (content (value_slot n (Z.of_nat j))) : slice)).
Proof.
  induction steps as [|steps IH]; intros i nd j Hi Hj Hk; cbn [fill]; [lia|].
  destruct (decide (j = Z.to_nat i)) as [->|Hne].
  - destruct (fill_below n steps (i + 1) (fill_entry n i nd) (Z.to_nat i)
                ltac:(lia) ltac:(lia)) as (-> & ->).
    rewrite Z2Nat.id by lia.
    unfold fill_entry. destruct (IsLeaf nd) eqn:E; simpl.
    + split; [apply list_lookup_insert_eq; assumption|].
      intros _ Hv. apply list_lookup_insert_eq. assumption.
    + split; [apply list_lookup_insert_eq; assumption|]. discriminate.
  - destruct (fill_entry_shape n i nd) as (S1 & S2 & S3).
    destruct (IH (i + 1) (fill_entry n i nd) j ltac:(lia) ltac:(lia)
                ltac:(lia)) as (HK & HV).
    split; [exact HK|]. intros HL Hv. apply HV; [congruence|lia].
Qed.

Lemma for_loop_append (x : bytes) steps : forall i buf,
  for_loop steps i (fun _ b => Ok (b ++ x)) buf
  = Ok (buf ++ concat (replicate steps x)).
Proof.
  induction steps as [|steps IH]; intros i buf; simpl.
  - rewrite app_nil_r. reflexivity.
  - rewrite IH. rewrite <- app_assoc. reflexivity.
Qed.

(** The encoder writes the body and then the trailer of zero links. *)
Lemma SerializeNode_bytes n :
  wf_node n = true ->
  SerializeNode (Some n) = Ok (body_bytes n ++ trailer_bytes n).
Proof.
  intros Hwf. pose proof (wf_node_range n Hwf) as (Hr & _ & _).
  unfold SerializeNode.
  rewrite (serialize_entries_ok n Hwf) by lia. cbn [rbind].
  unfold body_bytes, header_bytes, trailer_bytes.
  destruct (IsLeaf n); cbn [negb].
  - reflexivity.
  - unfold for_range. rewrite for_loop_append. rewrite Z.sub_0_r. reflexivity.
Qed.

(** The decoder reads the body and looks at nothing after it. *)
Lemma DeserializeNode_body n (post : bytes) :
  wf_node n = true -> fits32 n = true ->
  DeserializeNode (body_bytes n ++ post) = Ok (decoded n).
Proof.
  intros Hwf Hf. pose proof (wf_node_range n Hwf) as (Hr & HK & HV).
  unfold MaxKeys in Hr.
  unfold DeserializeNode, body_bytes, header_bytes.
  set (ty := if IsLeaf n then x01 else x00).
  set (es := entries_bytes n 0 (Z.to_nat (NumKeys n))).
  set (data := (([ty] ++ PutUint32 (uint32 (NumKeys n))) ++ es) ++ post).
  assert (Hlen : 5 <= Z.of_nat (length data)).
  { unfold data. rewrite !length_app, PutUint32_length. simpl. lia. }
  destruct (Z.of_nat (length data) <? 5) eqn:E; [apply Z.ltb_lt in E; lia|].
  assert (H0 : index data 0 = Ok ty) by reflexivity.
  rewrite H0. cbn [rbind].
  rewrite (sub_at data [ty] (PutUint32 (uint32 (NumKeys n))) (es ++ post) 1
             ltac:(unfold data; rewrite <- !app_assoc; reflexivity)
             ltac:(reflexivity) : sub data 1 5 = _).
  cbn [rbind]. rewrite uint32_small by lia. rewrite Uint32_PutUint32' by lia.
  cbn [rbind]. unfold for_range. rewrite Z.sub_0_r.
  assert (Hnd : (if Byte.eqb ty x01 then NewLeafNode else NewInternalNode)
                = (if IsLeaf n then NewLeafNode else NewInternalNode)).
  { unfold ty. destruct (IsLeaf n); reflexivity. }
  rewrite Hnd.
  pose proof (deserialize_loop_ok n Hwf Hf (Z.to_nat (NumKeys n)) 0
                ([ty] ++ PutUint32 (NumKeys n)) post
                (if IsLeaf n then NewLeafNode else NewInternalNode)) as HL.
  fold es in HL.
  replace (([ty] ++ PutUint32 (NumKeys n)) ++ es ++ post) with data in HL
    by (unfold data; rewrite uint32_small by lia; rewrite <- !app_assoc; reflexivity).
  change (Z.of_nat (length ([ty] ++ PutUint32 (NumKeys n)))) with 5 in HL.
  rewrite HL.
  - cbn [rbind snd]. reflexivity.
  - lia.
  - lia.
  - destruct (IsLeaf n); reflexivity.
  - destruct (IsLeaf n); reflexivity.
  - destruct (IsLeaf n); intros H; [reflexivity|discriminate H].
Qed.

Lemma decoded_fields n :
  wf_node n = true ->
  IsLeaf (decoded n) = IsLeaf n /\ NumKeys (decoded n) = NumKeys n /\
  Next (decoded n) = None /\ Parent (decoded n) = None /\
  Children (decoded n)
  = (if IsLeaf n then [] else replicate (Z.to_nat (MaxKeys + 1)) None).
Proof.
  intros Hwf. unfold decoded.
  destruct (fill_fields n (Z.to_nat (NumKeys n)) 0
              (if IsLeaf n then NewLeafNode else NewInternalNode))
    as (HT & HC & HN & HP & _).
  unfold IsLeaf at 1. simpl. rewrite HT, HC, HN, HP.
  destruct (IsLeaf n) eqn:E; simpl; auto.
Qed.

Lemma decoded_KeyAt n i :
  wf_node n = true -> KeyAt (decoded n) i = KeyAt n i.
Proof.
  intros Hwf. pose proof (wf_node_range n Hwf) as (Hr & HK & HV).
  destruct (decide (0 <= i < NumKeys n)) as [Hi|Hi].
  - destruct (KeyAt_wf n i Hwf Hi) as (-> & kb & Hkb).
    unfold KeyAt, decoded. simpl.
    destruct (i <? 0) eqn:E1; [apply Z.ltb_lt in E1; lia|].
    destruct (i >=? NumKeys n) eqn:E2; [apply Z.geb_le in E2; lia|].
    simpl. apply index_Ok. split; [lia|].
    destruct (fill_in n (Z.to_nat (NumKeys n)) 0
                (if IsLeaf n then NewLeafNode else NewInternalNode)
                (Z.to_nat i) ltac:(lia) ltac:(lia)) as (-> & _).
    + destruct (IsLeaf n); simpl; unfold MaxKeys in *; lia.
    + rewrite Z2Nat.id by lia. rewrite Hkb. reflexivity.
  - unfold KeyAt, decoded. simpl.
    destruct (i <? 0) eqn:E1; [reflexivity|].
    destruct (i >=? NumKeys n) eqn:E2; [reflexivity|].
    apply Z.ltb_ge in E1. rewrite Z.geb_leb in E2. apply Z.leb_gt in E2. lia.
Qed.

Lemma decoded_ValueAt n i :
  wf_node n = true -> 0 <= i < NumKeys n -> IsLeaf n = true ->
  ValueAt n i = Ok (value_slot n i) /\
  ValueAt (decoded n) i = Ok (Some (content (value_slot n i))).
Proof.
  intros Hwf Hi HL. pose proof (wf_node_range n Hwf) as (Hr & HK & HV).
  split; [apply ValueAt_wf; assumption|].
  destruct (decoded_fields n Hwf) as (HL' & HN & _).
  unfold ValueAt. rewrite HL', HL, HN.
  destruct (i <? 0) eqn:E1; [apply Z.ltb_lt in E1; lia|].
  destruct (i >=? NumKeys n) eqn:E2; [apply Z.geb_le in E2; lia|].
  simpl. apply index_Ok. split; [lia|].
  unfold decoded. simpl. rewrite HL.
  destruct (fill_in n (Z.to_nat (NumKeys n)) 0 NewLeafNode
              (Z.to_nat i) ltac:(lia) ltac:(lia)) as (_ & HVal).
  - simpl. unfold MaxKeys in *. lia.
  - rewrite Z2Nat.id in HVal by lia. apply HVal; [reflexivity|].
    simpl. unfold MaxKeys in *. lia.
Qed.

Lemma huge_leaf_body (V : bytes) :
  Z.of_nat (length V) = 2 ^ 32 ->
  body_bytes (huge_leaf V) = body_bytes (huge_leaf []) ++ V.
Proof.
  intros HV. unfold body_bytes, header_bytes, huge_leaf.
  cbn [IsLeaf Type_ NumKeys]. change (Z.to_nat 1) with 1%nat.
  cbn [entries_bytes]. unfold entry_bytes, key_slot, value_slot, len.
  change (Z.to_nat 0) with 0%nat.
  cbn [IsLeaf Type_ Keys Values lookup list_lookup content].
  rewrite HV. cbn [length]. 
  change (uint32 (2 ^ 32)) with 0. change (uint32 (Z.of_nat 0)) with 0.
  rewrite !app_nil_r, <- !app_assoc. reflexivity.
Qed.

Lemma huge_leaf_roundtrip (V : bytes) :
  Z.of_nat (length V) = 2 ^ 32 ->
  SerializeNode (Some (huge_leaf V))
    = Ok (body_bytes (huge_leaf []) ++ V ++ PutUint32 0) /\
  DeserializeNode (body_bytes (huge_leaf []) ++ V ++ PutUint32 0)
    = Ok (decoded (huge_leaf [])).
Proof.
  intros HV. split.
  - rewrite SerializeNode_bytes by reflexivity.
    rewrite (huge_leaf_body V HV), <- app_assoc. reflexivity.
  - apply DeserializeNode_body; reflexivity.
Qed.

Lemma huge_value_length : Z.of_nat (length huge_value) = 2 ^ 32.
Proof.
  unfold huge_value. rewrite length_replicate. apply Z2Nat.id. discriminate.
Qed.


Lemma concat_zero_links (k : nat) :
  concat (replicate k (PutUint32 0)) = replicate (4 * k) x00.
Proof.
  induction k as [|k IH]; [reflexivity|].
  replace (4 * S k)%nat with (4 + 4 * k)%nat by lia.
  cbn [replicate concat]. rewrite IH. reflexivity.
Qed.

(** The trailer is made of zero bytes only. *)
Lemma trailer_bytes_zero n :
  trailer_bytes n
  = replicate (if IsLeaf n then 4 else 4 * Z.to_nat (NumKeys n + 1))%nat x00.
Proof.
  unfold trailer_bytes. destruct (IsLeaf n); [reflexivity|].
  apply concat_zero_links.
Qed.

(** Whatever the node, what [SerializeNode] returns ends with the trailer. *)
Lemma SerializeNode_trailer n buf :
  SerializeNode (Some n) = Ok buf -> exists body, buf = body ++ trailer_bytes n.
Proof.
  unfold SerializeNode, trailer_bytes. intros H.
  destruct (serialize_entries _ n 0 _) as [b| | |] eqn:E; try discriminate.
  cbn [rbind] in H. destruct (IsLeaf n); cbn [negb] in H.
  - injection H as <-. eauto.
  - unfold for_range in H. rewrite for_loop_append, Z.sub_0_r in H.
    injection H as <-. eauto.
Qed.

(** The encoder reads the type, the key count, the keys and the values. *)
Lemma serialize_entries_links n nx pr ch steps : forall i buf,
  serialize_entries steps (set_Parent pr (set_Children ch (set_Next nx n))) i buf
  = serialize_entries steps n i buf.
Proof.
  induction steps as [|steps IH]; intros i buf; [reflexivity|].
  cbn [serialize_entries].
  set (n' := set_Parent pr (set_Children ch (set_Next nx n))) in *.
  change (KeyAt n' i) with (KeyAt n i).
  change (ValueAt n' i) with (ValueAt n i).
  change (IsLeaf n') with (IsLeaf n).
  destruct (KeyAt n i) as [[kb|]| | |]; cbn [rbind]; try reflexivity.
  destruct (IsLeaf n).
  - destruct (ValueAt n i) as [v| | |]; cbn [rbind]; try reflexivity.
    apply IH.
  - apply IH.
Qed.

(** The decoding loop leaves the links of the node being filled alone. *)
Lemma deserialize_entry_links data i off nd off' nd' :
  deserialize_entry data i (off, nd) = Ok (off', nd') ->
  Type_ nd' = Type_ nd /\ Children nd' = Children nd /\
  Next nd' = Next nd /\ Parent nd' = Parent nd.
Proof.
  unfold deserialize_entry. intros H.
  repeat match type of H with
         | (if ?c then _ else _) = Ok _ => destruct c; try discriminate H
         | rbind ?m _ = Ok _ =>
             destruct m; cbn [rbind] in H; try discriminate H
         end;
    injection H as _ <-; auto.
Qed.

Lemma DeserializeNode_links data n :
  DeserializeNode data = Ok n ->
  Next n = None /\ Parent n = None /\
  Children n
  = (if IsLeaf n then [] else replicate (Z.to_nat (MaxKeys + 1)) None).
Proof.
  unfold DeserializeNode. intros H.
  destruct (Z.of_nat (length data) <? 5); [discriminate|].
  destruct (index data 0) as [ty| | |]; cbn [rbind] in H; try discriminate.
  destruct (sub data 1 5) as [b| | |]; cbn [rbind] in H; try discriminate.
  destruct (Uint32 b) as [numKeys| | |]; cbn [rbind] in H; try discriminate.
  set (nd := if Byte.eqb ty x01 then NewLeafNode else NewInternalNode) in H.
  destruct (for_range 0 numKeys (deserialize_entry data) (5, nd))
    as [[off nd']| | |] eqn:E; cbn [rbind] in H; try discriminate.
  injection H as <-. unfold for_range in E.
  apply (for_loop_inv (fun st =>
           Type_ (snd st) = Type_ nd /\ Children (snd st) = Children nd /\
           Next (snd st) = Next nd /\ Parent (snd st) = Parent nd)) in E.
  - cbn [snd] in E. destruct E as (HT & HC & HN & HP).
    unfold IsLeaf. cbn. rewrite HT, HC, HN, HP.
    unfold nd. destruct (Byte.eqb ty x01); cbn; auto.
  - clear. intros j [o x] [o' y] (HT & HC & HN & HP) Hb. cbn [snd] in *.
    apply deserialize_entry_links in Hb.
    destruct Hb as (-> & -> & -> & ->). auto.
  - auto.
Qed.

(** C6 as stated fails on a value of 2^32 bytes: its length is written as
    [uint32(len(val))], which is 0, so the decoder reads back the empty
    value and takes the bytes of the value for what follows. *)
Lemma roundtrip_loses_4GiB_value :
  wf_node (huge_leaf huge_value) = true /\
  exists buf n',
    SerializeNode (Some (huge_leaf huge_value)) = Ok buf /\
    DeserializeNode buf = Ok n' /\
    ValueAt (huge_leaf huge_value) 0 = Ok (Some huge_value) /\
    ValueAt n' 0 = Ok (Some []) /\
    huge_value <> [].
Proof.
  split; [reflexivity|].
  destruct (huge_leaf_roundtrip huge_value huge_value_length) as (HS & HD).
  do 2 eexists. split; [exact HS|]. split; [exact HD|].
  split; [reflexivity|]. split; [reflexivity|].
  intros E. pose proof huge_value_length as HL. rewrite E in HL. discriminate HL.
Qed.

(** C6, amended. For every node with at most [MaxKeys] keys, none of them
    nil, and with every key and value shorter than 2^32 bytes,
    [DeserializeNode] succeeds on the output of [SerializeNode] and gives
    back the leaf flag, the key count, every key, and every value of a
    leaf, a nil value coming back as the empty one. *)
Theorem node_roundtrip (n : Node) :
  wf_node n = true -> fits32 n = true ->
  exists buf n',
    SerializeNode (Some n) = Ok buf /\
    DeserializeNode buf = Ok n' /\
    IsLeaf n' = IsLeaf n /\
    NumKeys n' = NumKeys n /\
    (forall i, KeyAt n' i = KeyAt n i) /\
    (forall i, 0 <= i < NumKeys n -> IsLeaf n = true ->
       exists v, ValueAt n i = Ok v /\ ValueAt n' i = Ok (Some (content v))).
Proof.
  intros Hwf Hf. exists (body_bytes n ++ trailer_bytes n), (decoded n).
  split; [apply SerializeNode_bytes; assumption|].
  split; [apply DeserializeNode_body; assumption|].
  destruct (decoded_fields n Hwf) as (HL & HN & _).
  split; [assumption|]. split; [assumption|].
  split; [intros i; apply decoded_KeyAt; assumption|].
  intros i Hi Hleaf. exists (value_slot n i).
  apply decoded_ValueAt; assumption.
Qed.

Lemma node_roundtrip_witness :
  let n := mkNode LeafNode
             [key_of "apple"; key_of "banana"; None; None]
             [key_of "fruit"; None; None; None] [] (Some 3%nat) None 2 in
  wf_node n = true /\ fits32 n = true /\
  exists buf n',
    SerializeNode (Some n) = Ok buf /\ DeserializeNode buf = Ok n' /\
    NumKeys n' = 2.
Proof.
  intros n.
  assert (Hwf : wf_node n = true) by reflexivity.
  assert (Hf : fits32 n = true) by reflexivity.
  split; [exact Hwf|]. split; [exact Hf|].
  destruct (node_roundtrip n Hwf Hf) as (buf & n' & HS & HD & _ & HN & _).
  exists buf, n'. auto.
Defined.

(** C7, at the failing input: an internal node declaring five keys of
    length zero. The lengths pass every check, and the fifth key is stored
    at [node.Keys[4]], past the [MaxKeys] slots of the node: the decoder
    panics instead of returning an error. The same holds for a leaf. *)
Theorem DeserializeNode_panics_on_five_keys :
  DeserializeNode ([x00; x05; x00; x00; x00] ++ replicate 20 x00) = Panic /\
  DeserializeNode ([x01; x05; x00; x00; x00] ++ replicate 40 x00) = Panic.
Proof. split; vm_compute; reflexivity. Qed.

(** C9. [SerializeNode] does not read the links of a node: changing [Next],
    [Children] and [Parent] leaves its result the same; what it returns
    ends with the trailer, which is 4 zero bytes for a leaf and
    [4 * (NumKeys + 1)] zero bytes for an internal node. A node that
    [DeserializeNode] returns has nil [Next] and [Parent] and only nil
    children; and on the encoding of a node the bytes that follow the
    entries have no effect on the result, whatever they are. *)
Theorem codec_carries_no_links (n : Node) (nx pr : option ptr)
    (ch : list (option ptr)) :
  SerializeNode (Some (set_Parent pr (set_Children ch (set_Next nx n))))
    = SerializeNode (Some n) /\
  (forall buf, SerializeNode (Some n) = Ok buf ->
     exists body,
       buf = body ++ replicate
               (if IsLeaf n then 4 else 4 * Z.to_nat (NumKeys n + 1))%nat x00) /\
  (forall data n', DeserializeNode data = Ok n' ->
     Next n' = None /\ Parent n' = None /\
     Children n'
     = (if IsLeaf n' then [] else replicate (Z.to_nat (MaxKeys + 1)) None)) /\
  (wf_node n = true -> fits32 n = true ->
   exists body,
     SerializeNode (Some n) = Ok (body ++ trailer_bytes n) /\
     forall other, DeserializeNode (body ++ other)
                   = DeserializeNode (body ++ trailer_bytes n)).
Proof.
  split; [|split; [|split]].
  - unfold SerializeNode. rewrite serialize_entries_links. reflexivity.
  - intros buf H. rewrite <- trailer_bytes_zero.
    apply SerializeNode_trailer. assumption.
  - apply DeserializeNode_links.
  - intros Hwf Hf. exists (body_bytes n).
    split; [apply SerializeNode_bytes; assumption|].
    intros other. rewrite !DeserializeNode_body by assumption. reflexivity.
Qed.

Lemma codec_carries_no_links_witness :
  let n := mkNode InternalNode [key_of "middle"; key_of "zebra"; None; None]
             [] [Some 4%nat; Some 5%nat; Some 6%nat; None; None] None
             (Some 9%nat) 2 in
  wf_node n = true /\ fits32 n = true /\
  exists body,
    SerializeNode (Some n) = Ok (body ++ replicate 12 x00) /\
    DeserializeNode body = DeserializeNode (body ++ replicate 12 x00).
Proof.
  intros n.
  assert (Hwf : wf_node n = true) by reflexivity.
  assert (Hf : fits32 n = true) by reflexivity.
  split; [exact Hwf|]. split; [exact Hf|].
  destruct (codec_carries_no_links n None None []) as (_ & _ & _ & H).
  destruct (H Hwf Hf) as (body & HS & HD).
  exists body. split; [exact HS|].
  rewrite <- (app_nil_r body) at 1. apply HD.
Defined.

End Codec.

(** * The page manager *)

Section PageManagerFacts.

Import storage.

Lemma ReadAt_WriteAt (f buf : bytes) (off n : Z) :
  0 <= off -> n = Z.of_nat (length buf) ->
  ReadAt (WriteAt f buf off) n off = Ok buf.
Proof.
  intros Hoff ->. unfold ReadAt, WriteAt.
  set (o := Z.to_nat off).
  set (pre := take o f ++ replicate (o - length f) x00).
  assert (Hpre : length pre = o).
  { unfold pre. rewrite length_app, length_take, length_replicate. lia. }
  rewrite (app_assoc (take o f)). fold pre.
  destruct (off + Z.of_nat (length buf)
            <=? Z.of_nat (length (pre ++ buf ++ drop (o + length buf) f))) eqn:E.
  - rewrite <- Hpre at 1. rewrite drop_app_length.
    rewrite Nat2Z.id. rewrite take_app_length. reflexivity.
  - apply Z.leb_gt in E. rewrite !length_app, Hpre in E. lia.
Qed.

Lemma updateChecksum_NewPage id ty :
  updateChecksum (NewPage id ty) = Ok (NewPage id ty).
Proof. reflexivity. Qed.

Lemma Deserialize_Serialize_NewPage id ty p0 :
  ID p0 = id -> Deserialize p0 (Serialize (NewPage id ty)) = Ok (NewPage id ty).
Proof. intros <-. destruct p0 as [pid ph pd]. vm_compute. reflexivity. Qed.

Lemma Serialize_NewPage_length id ty :
  Z.of_nat (length (Serialize (NewPage id ty))) = PageSize.
Proof. vm_compute. reflexivity. Qed.

Lemma writePageLocked_NewPage id ty pm :
  writePageLocked (NewPage id ty) pm
  = if id =? InvalidPageID then Ok (Some ErrInvalidPageID, pm)
    else match file pm with
         | None => Ok (Some ErrClosed, pm)
         | Some f =>
             Ok (None, mkPM (Some (WriteAt f (Serialize (NewPage id ty))
                                     (id * PageSize)))
                            (nextPage pm) (freeList pm))
         end.
Proof.
  unfold writePageLocked. cbn [ID NewPage].
  destruct (id =? InvalidPageID); [reflexivity|].
  unfold Go.bind, lift. rewrite updateChecksum_NewPage. cbn [rbind].
  unfold get. destruct (file pm); reflexivity.
Qed.

Lemma ReadPage_after_write id ty pm f :
  0 <= id -> id <> InvalidPageID ->
  ReadPage (mkPM (Some (WriteAt f (Serialize (NewPage id ty)) (id * PageSize)))
                 (nextPage pm) (freeList pm)) id
  = Ok (NewPage id ty).
Proof.
  intros H0 Hne. unfold ReadPage, readPageLocked. cbn [file].
  destruct (id =? InvalidPageID) eqn:E; [apply Z.eqb_eq in E; contradiction|].
  rewrite ReadAt_WriteAt.
  - cbn [rbind]. apply Deserialize_Serialize_NewPage. reflexivity.
  - unfold PageSize. lia.
  - symmetry. apply Serialize_NewPage_length.
Qed.

Lemma id_last_inv {A : Type} (l : list A) (x : A) :
  last l = Some x -> exists rest, l = rest ++ [x].
Proof. apply last_Some. Qed.

(** [AllocatePage] in one piece: the choice of the ID, then the write. *)
Lemma AllocatePage_unfold ty pm :
  AllocatePage ty pm
  = let '(id, pm1) :=
      match last (freeList pm) with
      | Some x => (x, mkPM (file pm) (nextPage pm)
                        (take (length (freeList pm) - 1) (freeList pm)))
      | None => (nextPage pm,
                 mkPM (file pm) (uint32 (nextPage pm + 1)) (freeList pm))
      end in
    if id =? InvalidPageID then Ok ((id, Some ErrInvalidPageID), pm1)
    else match file pm with
         | None => Ok ((id, Some ErrClosed), pm1)
         | Some f =>
             Ok ((id, None),
                 mkPM (Some (WriteAt f (Serialize (NewPage id ty))
                               (id * PageSize)))
                      (nextPage pm1) (freeList pm1))
         end.
Proof.
  unfold AllocatePage, Go.bind, get, modify, ret.
  destruct (last (freeList pm)) as [x|]; rewrite writePageLocked_NewPage;
    cbn [file nextPage freeList];
    (destruct (_ =? InvalidPageID); [reflexivity|]);
    destruct (file pm); reflexivity.
Qed.

Lemma DeallocatePage_Ok id pm pm1 :
  DeallocatePage id pm = Ok (None, pm1) ->
  id <> InvalidPageID /\
  exists f, file pm = Some f /\
    pm1 = mkPM (Some (WriteAt f (Serialize (NewPage id FreePageType))
                        (id * PageSize)))
               (nextPage pm) (freeList pm ++ [id]).
Proof.
  unfold DeallocatePage, Go.bind. rewrite writePageLocked_NewPage.
  destruct (id =? InvalidPageID) eqn:E; [discriminate|].
  apply Z.eqb_neq in E. destruct (file pm) as [f|]; [|discriminate].
  unfold modify, ret. intros [= <-]. split; [assumption|]. eauto.
Qed.

(** [DeallocatePage] on an open file, for a valid ID: the page is written
    as a free page and the ID is appended to the free list. *)
Lemma DeallocatePage_open id pm f :
  file pm = Some f -> id <> InvalidPageID ->
  DeallocatePage id pm
  = Ok (None, mkPM (Some (WriteAt f (Serialize (NewPage id FreePageType))
                            (id * PageSize)))
                   (nextPage pm) (freeList pm ++ [id])).
Proof.
  intros Hf Hne. unfold DeallocatePage, Go.bind.
  rewrite writePageLocked_NewPage, Hf.
  destruct (id =? InvalidPageID) eqn:E; [apply Z.eqb_eq in E; contradiction|].
  reflexivity.
Qed.

(** C8. [AllocatePage] always returns. With a non-empty free list it returns
    the ID freed last and removes it from the list, the counter of fresh
    IDs being untouched; with an empty free list it returns the counter and
    advances it by one. It reports no error exactly when the ID is valid
    and the file is open, and then the page read back at this ID has the
    requested type, a data length of 0, no links, a zero checksum and
    [PageSize - PageHeaderSize] zero bytes of data (and a fresh ID is
    followed by a greater one). On an open file, [DeallocatePage id] with a
    valid [id] succeeds, writes the page as a free page and puts [id] last
    on the free list; the [AllocatePage] that follows returns [id] without
    error, leaves the free list and the counter as they were before the
    deallocation, and has written the zeroed page of the requested type. *)
Theorem AllocatePage_reuses_last_freed (pm : PageManager) (ty : PageType) :
  exists id err pm',
    AllocatePage ty pm = Ok ((id, err), pm') /\
    (forall rest x, freeList pm = rest ++ [x] ->
       id = x /\ freeList pm' = rest /\ nextPage pm' = nextPage pm) /\
    (freeList pm = [] ->
       id = nextPage pm /\ freeList pm' = [] /\
       nextPage pm' = uint32 (nextPage pm + 1) /\
       (err = None -> 0 <= nextPage pm < 2 ^ 32 -> nextPage pm' = id + 1)) /\
    (err = None <-> id <> InvalidPageID /\ file pm <> None) /\
    (err = None -> 0 <= id ->
       exists page,
         ReadPage pm' id = Ok page /\ ID page = id /\
         PageType_ (Header page) = ty /\ Reserved (Header page) = x00 /\
         DataLength (Header page) = 0 /\
         NextPage (Header page) = InvalidPageID /\
         PrevPage (Header page) = InvalidPageID /\
         Checksum (Header page) = 0 /\
         Data page = replicate (Z.to_nat (PageSize - PageHeaderSize)) x00) /\
    (forall id0 pm1, DeallocatePage id0 pm = Ok (None, pm1) ->
       exists pm2, AllocatePage ty pm1 = Ok ((id0, None), pm2)) /\
    (forall id0, file pm <> None -> id0 <> InvalidPageID ->
       exists pm1 pm2,
         DeallocatePage id0 pm = Ok (None, pm1) /\
         freeList pm1 = freeList pm ++ [id0] /\ nextPage pm1 = nextPage pm /\
         AllocatePage ty pm1 = Ok ((id0, None), pm2) /\
         freeList pm2 = freeList pm /\ nextPage pm2 = nextPage pm /\
         (0 <= id0 ->
          (exists freed,
             ReadPage pm1 id0 = Ok freed /\
             PageType_ (Header freed) = FreePageType /\
             DataLength (Header freed) = 0 /\
             Data freed = replicate (Z.to_nat (PageSize - PageHeaderSize)) x00) /\
          (exists page,
             ReadPage pm2 id0 = Ok page /\ ID page = id0 /\
             PageType_ (Header page) = ty /\
             DataLength (Header page) = 0 /\
             Checksum (Header page) = 0 /\
             Data page = replicate (Z.to_nat (PageSize - PageHeaderSize)) x00))).
Proof.
  assert (Hlast : forall id0 pm1, DeallocatePage id0 pm = Ok (None, pm1) ->
            exists pm2, AllocatePage ty pm1 = Ok ((id0, None), pm2)).
  { intros id0 pm1 HD. apply DeallocatePage_Ok in HD.
    destruct HD as (Hne & f & Hf & ->).
    rewrite AllocatePage_unfold. cbn [freeList file nextPage].
    rewrite last_snoc.
    destruct (id0 =? InvalidPageID) eqn:E; [apply Z.eqb_eq in E; contradiction|].
    eauto. }
  assert (Hzero : forall id1 ty1 pmx f,
            0 <= id1 -> id1 <> InvalidPageID ->
            exists page,
              ReadPage (mkPM (Some (WriteAt f (Serialize (NewPage id1 ty1))
                                      (id1 * PageSize)))
                             (nextPage pmx) (freeList pmx)) id1 = Ok page /\
              ID page = id1 /\
              PageType_ (Header page) = ty1 /\ Reserved (Header page) = x00 /\
              DataLength (Header page) = 0 /\
              NextPage (Header page) = InvalidPageID /\
              PrevPage (Header page) = InvalidPageID /\
              Checksum (Header page) = 0 /\
              Data page = replicate (Z.to_nat (PageSize - PageHeaderSize)) x00).
  { intros id1 ty1 pmx f H0 Hne. exists (NewPage id1 ty1).
    split; [apply ReadPage_after_write; assumption|].
    repeat split. }
  assert (Hfree : forall id0, file pm <> None -> id0 <> InvalidPageID ->
       exists pm1 pm2,
         DeallocatePage id0 pm = Ok (None, pm1) /\
         freeList pm1 = freeList pm ++ [id0] /\ nextPage pm1 = nextPage pm /\
         AllocatePage ty pm1 = Ok ((id0, None), pm2) /\
         freeList pm2 = freeList pm /\ nextPage pm2 = nextPage pm /\
         (0 <= id0 ->
          (exists freed,
             ReadPage pm1 id0 = Ok freed /\
             PageType_ (Header freed) = FreePageType /\
             DataLength (Header freed) = 0 /\
             Data freed = replicate (Z.to_nat (PageSize - PageHeaderSize)) x00) /\
          (exists page,
             ReadPage pm2 id0 = Ok page /\ ID page = id0 /\
             PageType_ (Header page) = ty /\
             DataLength (Header page) = 0 /\
             Checksum (Header page) = 0 /\
             Data page = replicate (Z.to_nat (PageSize - PageHeaderSize)) x00))).
  { intros id0 Hopen Hne. destruct (file pm) as [f|] eqn:Hf; [|contradiction].
    eexists. eexists.
    split; [apply (DeallocatePage_open id0 pm f Hf Hne)|].
    cbn [freeList nextPage].
    split; [reflexivity|]. split; [reflexivity|].
    split.
    { rewrite AllocatePage_unfold. cbn [freeList file nextPage].
      rewrite last_snoc.
      destruct (id0 =? InvalidPageID) eqn:E;
        [apply Z.eqb_eq in E; contradiction|].
      reflexivity. }
    cbn [freeList nextPage].
    split.
    { rewrite length_app. cbn [length].
      replace (length (freeList pm) + 1 - 1)%nat with (length (freeList pm)) by lia.
      apply take_app_length. }
    split; [reflexivity|].
    intros H0. split.
    - destruct (Hzero id0 FreePageType pm f H0 Hne)
        as (page & Hr & _ & Hty & _ & Hdl & _ & _ & _ & Hdata).
      exists page. repeat split; assumption.
    - destruct (Hzero id0 ty
                  (mkPM (Some f) (nextPage pm)
                     (take (length (freeList pm ++ [id0]) - 1)
                        (freeList pm ++ [id0])))
                  (WriteAt f (Serialize (NewPage id0 FreePageType))
                     (id0 * PageSize)) H0 Hne)
        as (page & Hr & Hid & Hty & _ & Hdl & _ & _ & Hcs & Hdata).
      exists page. repeat split; assumption. }
  rewrite AllocatePage_unfold.
  destruct (last (freeList pm)) as [x|] eqn:EL.
  - destruct (id_last_inv (freeList pm) x EL) as [rest Hrest].
    assert (Htake : take (length (freeList pm) - 1) (freeList pm) = rest).
    { rewrite Hrest, length_app. cbn [length].
      replace (length rest + 1 - 1)%nat with (length rest) by lia.
      apply take_app_length. }
    assert (Hpop : forall rest' x', freeList pm = rest' ++ [x'] ->
              x = x' /\ take (length (freeList pm) - 1) (freeList pm) = rest'
              /\ nextPage pm = nextPage pm).
    { intros rest' x' H'. rewrite Htake. rewrite Hrest in H'.
      apply app_inj_tail in H'. destruct H'; auto. }
    assert (Hne : freeList pm = [] -> False)
      by (rewrite Hrest; destruct rest; discriminate).
    destruct (x =? InvalidPageID) eqn:E;
      [apply Z.eqb_eq in E|apply Z.eqb_neq in E; destruct (file pm) as [f|] eqn:Ef];
      (do 3 eexists; split; [reflexivity|]; cbn [freeList nextPage];
       split; [exact Hpop|];
       split; [intros H'; destruct (Hne H')|];
       split; [|split; [|split; [exact Hlast|exact Hfree]]]).
    + split; [discriminate|]. intros [H' _]. contradiction.
    + discriminate.
    + split; [intros _; split; [assumption|discriminate]|reflexivity].
    + intros _ H0. apply (Hzero x ty (mkPM (Some f) (nextPage pm) rest) f);
        assumption.
    + split; [discriminate|]. intros [_ H']. congruence.
    + discriminate.
  - apply last_None in EL.
    assert (Hno : forall rest x, freeList pm = rest ++ [x] -> False).
    { intros rest x H'. rewrite EL in H'. destruct rest; discriminate. }
    destruct (nextPage pm =? InvalidPageID) eqn:E;
      [apply Z.eqb_eq in E|apply Z.eqb_neq in E; destruct (file pm) as [f|] eqn:Ef];
      (do 3 eexists; split; [reflexivity|]; cbn [freeList nextPage];
       split; [intros rest x H'; destruct (Hno _ _ H')|];
       split; [intros _; split; [reflexivity|]; split; [assumption|];
               split; [reflexivity|]|];
       [|split; [|split; [|split; [exact Hlast|exact Hfree]]]]).
    + discriminate.
    + split; [discriminate|]. intros [H' _]. contradiction.
    + discriminate.
    + intros _ Hr. unfold uint32. apply Z.mod_small.
      unfold InvalidPageID in E. lia.
    + split; [intros _; split; [assumption|discriminate]|reflexivity].
    + intros _ H0.
      apply (Hzero (nextPage pm) ty
               (mkPM (Some f) (uint32 (nextPage pm + 1)) (freeList pm)) f);
        assumption.
    + discriminate.
    + split; [discriminate|]. intros [_ H']. congruence.
    + discriminate.
Qed.

Lemma AllocatePage_reuses_last_freed_witness :
  exists pm1 pm2 page,
    DeallocatePage 5 (mkPM (Some []) 7 [3]) = Ok (None, pm1) /\
    freeList pm1 = [3; 5] /\
    AllocatePage BTreeLeafType pm1 = Ok ((5, None), pm2) /\
    freeList pm2 = [3] /\ nextPage pm2 = 7 /\
    ReadPage pm2 5 = Ok page /\
    PageType_ (Header page) = BTreeLeafType /\
    DataLength (Header page) = 0 /\
    Data page = replicate 4080 x00.
Proof.
  destruct (AllocatePage_reuses_last_freed (mkPM (Some []) 7 [3]) BTreeLeafType)
    as (_ & _ & _ & _ & _ & _ & _ & _ & _ & Hfree).
  destruct (Hfree 5 ltac:(discriminate) ltac:(discriminate))
    as (pm1 & pm2 & Hd & Hl1 & _ & Ha & Hl2 & Hn2 & Hpages).
  destruct (Hpages ltac:(lia)) as (_ & page & Hr & _ & Hty & Hdl & _ & Hdata).
  exists pm1, pm2, page. repeat split; assumption.
Defined.

End PageManagerFacts.

(** * The split of a full leaf *)

Section SplitFacts.
Import btree.

Lemma wp_deref s h n (Q : Node -> BTree -> Prop) :
  nodes s !! h = Some n -> Q n s -> wp (deref (Some h)) s Q.
Proof.
  intros Hn HQ. exists n, s. split; [|assumption].
  unfold deref, lift, node_at. rewrite Hn. reflexivity.
Qed.

Lemma wp_update s h n f n' (Q : unit -> BTree -> Prop) :
  nodes s !! h = Some n -> f n = Ok n' ->
  Q tt (set_nodes (<[h := n']> (nodes s)) s) -> wp (update (Some h) f) s Q.
Proof.
  intros Hn Hf HQ. eexists tt, _. split; [|exact HQ].
  unfold update, node_at. rewrite Hn. cbn [rbind]. rewrite Hf. reflexivity.
Qed.

Lemma wp_alloc s n (Q : ptr -> BTree -> Prop) :
  Q (length (nodes s)) (set_nodes (nodes s ++ [n]) s) -> wp (alloc n) s Q.
Proof. intros HQ. eexists _, _. split; [reflexivity|exact HQ]. Qed.

Ltac look :=
  cbn [nodes set_nodes root set_root size set_size];
  repeat first
    [ rewrite list_lookup_insert_eq
        by (rewrite ?length_insert, ?length_app; cbn [length]; lia)
    | rewrite list_lookup_insert_ne by lia
    | rewrite lookup_app_l by lia
    | rewrite list_lookup_middle by reflexivity ].

Lemma split_leaf_spec (bt : BTree) (leaf : ptr) (n : Node) (key val : slice) (i : Z) :
  nodes bt !! leaf = Some n -> full_leaf n = true -> 0 <= i <= MaxKeys ->
  let allKeys := inserted (Keys n) i key in
  let allValues := inserted (Values n) i val in
  let new := length (nodes bt) in
  wp (split_leaf leaf key val i) bt (fun newLeaf bt1 =>
    newLeaf = new /\
    nodes bt1 !! leaf
    = Some (mkNode LeafNode (take 2 allKeys ++ [None; None])
              (take 2 allValues ++ [None; None]) (Children n) (Some new)
              (Parent n) 2) /\
    nodes bt1 !! new
    = Some (mkNode LeafNode (drop 2 allKeys ++ [None])
              (drop 2 allValues ++ [None]) [] (Next n) None 3) /\
    length (nodes bt1) = S (length (nodes bt)) /\
    (forall h, h <> leaf -> h <> new -> nodes bt1 !! h = nodes bt !! h) /\
    root bt1 = root bt /\ size bt1 = size bt).
Proof.
  intros Hn Hfull Hi.
  assert (Hlt : (leaf < length (nodes bt))%nat) by (eapply lookup_lt_Some; eassumption).
  destruct n as [ty ks vs ch nx pr nk].
  unfold full_leaf, IsLeaf in Hfull. cbn in Hfull.
  rewrite !andb_true_iff, !Z.eqb_eq in Hfull.
  destruct Hfull as (((Hty & ->) & HK) & HV).
  destruct ty; [|discriminate]. clear Hty.
  unfold MaxKeys in *.
  destruct ks as [|k0 [|k1 [|k2 [|k3 [|]]]]];
    try (exfalso; cbn [length] in HK; lia).
  destruct vs as [|v0 [|v1 [|v2 [|v3 [|]]]]];
    try (exfalso; cbn [length] in HV; lia).
  clear HK HV.
  assert (Hc : i = 0 \/ i = 1 \/ i = 2 \/ i = 3 \/ i = 4) by lia.
  cbv zeta.
  unfold split_leaf.
  destruct Hc as [->|[->|[->|[->| ->]]]].
  all: apply wp_bind; eapply wp_deref; [eassumption|].
  all: do 6 (apply wp_bind; eapply wp_lift; [lazy; reflexivity|]).
  all: apply wp_bind; apply wp_alloc.
  all: apply wp_bind; eapply wp_update; [look; eassumption|lazy; reflexivity|].
  all: apply wp_bind; eapply wp_update; [look; reflexivity|lazy; reflexivity|].
  all: apply wp_bind; eapply wp_update; [look; reflexivity|lazy; reflexivity|].
  all: apply wp_bind; eapply wp_deref; [look; reflexivity|].
  all: apply wp_bind; eapply wp_update; [look; reflexivity|lazy; reflexivity|].
  all: apply wp_bind; eapply wp_update; [look; reflexivity|lazy; reflexivity|].
  all: apply wp_ret.
  all: split; [reflexivity|].
  all: split; [look; reflexivity|].
  all: split; [look; reflexivity|].
  all: split; [cbn [nodes set_nodes]; rewrite !length_insert, length_app; cbn [length]; lia|].
  all: split; [|split; reflexivity].
  all: intros h Hh1 Hh2; look.
  all: destruct (decide (h < length (nodes bt))%nat);
       [rewrite lookup_app_l by lia; reflexivity|].
  all: rewrite !lookup_ge_None_2; [reflexivity|lia|rewrite length_app; cbn [length]; lia].
Qed.


Lemma parents_internal_ok bt : parents_internal bt = true -> parents_ok bt.
Proof.
  unfold parents_internal, parents_ok. intros H h n p Hn Hp.
  rewrite forallb_forall in H.
  specialize (H n ltac:(apply list_elem_of_In; eapply list_elem_of_lookup_2; eassumption)).
  rewrite Hp in H. destruct (nodes bt !! p) as [pn|] eqn:E; [|discriminate].
  exists pn. split; [assumption|]. apply negb_true_iff. assumption.
Qed.

Lemma leaves_kept_refl s : leaves_kept s s.
Proof. intros h n Hn. exists n. auto. Qed.

Lemma leaves_kept_trans s1 s2 s3 :
  leaves_kept s1 s2 -> leaves_kept s2 s3 -> leaves_kept s1 s3.
Proof.
  intros H12 H23 h n Hn.
  destruct (H12 h n Hn) as (n2 & Hn2 & HT2 & HP2).
  destruct (H23 h n2 Hn2) as (n3 & Hn3 & HT3 & HP3).
  exists n3. split; [assumption|]. split; [congruence|].
  intros HL. rewrite HP3; [apply HP2; assumption|].
  unfold IsLeaf in *. rewrite HT2. assumption.
Qed.

Lemma internal_at_kept s s' h :
  leaves_kept s s' -> internal_at s h -> internal_at s' h.
Proof.
  intros HK (n & Hn & HL). destruct (HK h n Hn) as (n' & Hn' & HT & _).
  exists n'. split; [assumption|]. unfold IsLeaf in *. rewrite HT. assumption.
Qed.

(** The state after one node is replaced by a node of the same type. *)
Lemma replace_same_type s h n n' :
  nodes s !! h = Some n -> Type_ n' = Type_ n ->
  (IsLeaf n = true -> set_Parent None n' = set_Parent None n) ->
  leaves_kept s (set_nodes (<[h := n']> (nodes s)) s).
Proof.
  intros Hn HT HP h2 n2 Hn2. cbn [nodes set_nodes].
  destruct (decide (h2 = h)) as [->|Hne].
  - rewrite Hn in Hn2. injection Hn2 as <-. exists n'.
    split; [apply list_lookup_insert_eq; eapply lookup_lt_Some; eassumption|].
    auto.
  - exists n2. rewrite list_lookup_insert_ne by congruence. auto.
Qed.

Lemma climbing_weaken s0 I I' s :
  climbing s0 I s -> (forall h, h ∈ I' -> h ∈ I) -> climbing s0 I' s.
Proof.
  intros (HK & HJ & HI) Hsub. split; [assumption|]. split; [assumption|].
  rewrite Forall_forall in *. auto.
Qed.

Lemma climbing_internal s0 I s h : climbing s0 I s -> h ∈ I -> internal_at s h.
Proof. intros (_ & _ & HI) Hin. rewrite Forall_forall in HI. auto. Qed.

(** Replacing a node keeps the invariant when the type is kept and the new
    parent pointer is the old one or points to an internal node. *)
Lemma climbing_replace s0 I s h n n' :
  climbing s0 I s -> nodes s !! h = Some n -> Type_ n' = Type_ n ->
  (IsLeaf n = true -> set_Parent None n' = set_Parent None n) ->
  (Parent n' = Parent n \/ exists q, Parent n' = Some q /\ internal_at s q) ->
  climbing s0 I (set_nodes (<[h := n']> (nodes s)) s).
Proof.
  intros (HK & HJ & HI) Hn HT HP HPar.
  pose proof (replace_same_type s h n n' Hn HT HP) as Hstep.
  split; [eapply leaves_kept_trans; eassumption|].
  split.
  - intros h2 n2 p2 Hn2 Hp2. cbn [nodes set_nodes] in Hn2.
    eapply internal_at_kept; [exact Hstep|].
    destruct (decide (h2 = h)) as [->|Hne].
    + rewrite list_lookup_insert_eq in Hn2
        by (eapply lookup_lt_Some; eassumption).
      injection Hn2 as <-.
      destruct HPar as [HPar|(q & Hq & Hint)].
      * eapply HJ; [exact Hn|]. congruence.
      * congruence.
    + rewrite list_lookup_insert_ne in Hn2 by congruence.
      eapply HJ; eassumption.
  - rewrite Forall_forall in *. intros x Hx.
    eapply internal_at_kept; [exact Hstep|]. auto.
Qed.

Lemma climbing_alloc s0 I s m :
  climbing s0 I s -> IsLeaf m = false -> Parent m = None ->
  climbing s0 (length (nodes s) :: I) (set_nodes (nodes s ++ [m]) s).
Proof.
  intros (HK & HJ & HI) HL HP.
  assert (Hstep : leaves_kept s (set_nodes (nodes s ++ [m]) s)).
  { intros h n Hn. exists n. cbn [nodes set_nodes].
    rewrite lookup_app_l by (eapply lookup_lt_Some; eassumption). auto. }
  split; [eapply leaves_kept_trans; eassumption|].
  split.
  - intros h2 n2 p2 Hn2 Hp2. cbn [nodes set_nodes] in Hn2.
    eapply internal_at_kept; [exact Hstep|].
    destruct (decide (h2 < length (nodes s))%nat) as [Hlt|Hge].
    + rewrite lookup_app_l in Hn2 by assumption. eapply HJ; eassumption.
    + rewrite lookup_app_r in Hn2 by lia.
      destruct (h2 - length (nodes s))%nat; cbn in Hn2; [|discriminate].
      injection Hn2 as <-. congruence.
  - constructor.
    + exists m. cbn [nodes set_nodes]. split; [|assumption].
      apply list_lookup_middle. reflexivity.
    + rewrite Forall_forall in *. intros x Hx.
      eapply internal_at_kept; [exact Hstep|]. auto.
Qed.

Lemma climbing_set_root s0 I s r : climbing s0 I s -> climbing s0 I (set_root r s).
Proof. intros H. exact H. Qed.

(** The same steps as weakest preconditions. *)
Lemma wlp_deref s p (Q : Node -> BTree -> Prop) :
  (forall h n, p = Some h -> nodes s !! h = Some n -> Q n s) ->
  wlp (deref p) s Q.
Proof.
  intros HQ n s' H. unfold deref, lift, node_at in H.
  destruct p as [h|]; [|discriminate].
  destruct (nodes s !! h) as [n0|] eqn:E; [|discriminate].
  cbn in H. injection H as <- <-. eapply HQ; eauto.
Qed.

Lemma wlp_update s p f (Q : unit -> BTree -> Prop) :
  (forall h n n', p = Some h -> nodes s !! h = Some n -> f n = Ok n' ->
                  Q tt (set_nodes (<[h := n']> (nodes s)) s)) ->
  wlp (update p f) s Q.
Proof.
  intros HQ [] s' H. unfold update, node_at in H.
  destruct p as [h|]; [|discriminate].
  destruct (nodes s !! h) as [n|] eqn:E; [|discriminate].
  cbn [rbind] in H. destruct (f n) as [n'| | |] eqn:Ef; try discriminate.
  cbn [rbind] in H. injection H as <-. eapply HQ; eauto.
Qed.

Lemma wlp_alloc s m (Q : ptr -> BTree -> Prop) :
  Q (length (nodes s)) (set_nodes (nodes s ++ [m]) s) -> wlp (alloc m) s Q.
Proof. intros HQ h s' [= <- <-]. exact HQ. Qed.

Lemma wlp_set_parent s0 I s c q :
  climbing s0 I s -> q ∈ I ->
  wlp (update c (fun x => Ok (set_Parent (Some q) x))) s
      (fun _ s' => climbing s0 I s').
Proof.
  intros HC Hq. apply wlp_update. intros h n n' -> Hn [= <-].
  eapply climbing_replace; try eassumption; try reflexivity.
  right. exists q. split; [reflexivity|]. eapply climbing_internal; eassumption.
Qed.

Lemma wlp_update_internal s0 I s h f :
  climbing s0 I s -> h ∈ I ->
  (forall n n', f n = Ok n' -> Type_ n' = Type_ n /\ Parent n' = Parent n) ->
  wlp (update (Some h) f) s (fun _ s' => climbing s0 I s').
Proof.
  intros HC Hh Hf. apply wlp_update. intros h' n n' [= <-] Hn Hfn.
  destruct (Hf n n' Hfn) as (HT & HP).
  destruct (climbing_internal _ _ _ _ HC Hh) as (n0 & Hn0 & HL).
  rewrite Hn in Hn0. injection Hn0 as <-.
  eapply climbing_replace; try eassumption.
  - intros HL'. congruence.
  - left. assumption.
Qed.

Lemma wlp_alloc_internal s0 I s :
  climbing s0 I s ->
  wlp (alloc NewInternalNode) s (fun h s' => climbing s0 (h :: I) s').
Proof. intros HC. apply wlp_alloc. apply climbing_alloc; auto. Qed.


Ltac fields_kept :=
  let n := fresh "n" in let n' := fresh "n'" in let Hf := fresh "Hf" in
  intros n n' Hf; inv_ok Hf; subst; cbn; auto.

(** One step of a computation under the invariant [climbing]; [x] names
    the value the step returns. *)
Ltac climb_as x :=
  lazymatch goal with
  | |- wlp (bind (deref _) _) _ _ =>
      apply wlp_bind; apply wlp_deref; intros ? x ? ?
  | |- wlp (bind (lift _) _) _ _ =>
      apply wlp_bind; apply wlp_lift; intros x ?
  | |- wlp (bind get _) _ _ =>
      apply wlp_bind; apply wlp_get
  | H : climbing _ _ ?s |- wlp (bind (alloc NewInternalNode) _) ?s _ =>
      apply wlp_bind; eapply wlp_mono;
      [apply (wlp_alloc_internal _ _ _ H)|];
      clear H; cbv beta; intros x ? H
  | H : climbing _ _ ?s
    |- wlp (bind (update _ (fun x => Ok (set_Parent (Some _) x))) _) ?s _ =>
      apply wlp_bind; eapply wlp_mono;
      [apply (wlp_set_parent _ _ _ _ _ H); set_solver|];
      clear H; cbv beta; intros [] ? H
  | H : climbing _ _ ?s |- wlp (bind (update (Some _) _) _) ?s _ =>
      apply wlp_bind; eapply wlp_mono;
      [apply (wlp_update_internal _ _ _ _ _ H); [set_solver|fields_kept]|];
      clear H; cbv beta; intros [] ? H
  end.

Tactic Notation "climb" := let x := fresh "x" in climb_as x.
Tactic Notation "climb" "as" ident(x) := climb_as x.

Lemma climbing_done s0 I s : climbing s0 I s -> leaves_kept s0 s /\ parents_ok s.
Proof. intros (? & ? & _). auto. Qed.

Lemma splitInternal_climbs rec node s0 s :
  (forall p key rc s1, parents_ok s1 -> internal_at s1 p ->
     wlp (rec p key rc) s1 (fun _ s' => leaves_kept s1 s' /\ parents_ok s')) ->
  climbing s0 [node] s ->
  wlp (splitInternal rec node) s (fun _ s' => leaves_kept s0 s' /\ parents_ok s').
Proof.
  intros Hrec HC. unfold splitInternal.
  climb as newNode.
  apply wlp_bind. eapply wlp_mono.
  { unfold for_rangeM.
    apply (wlp_for_loopM (climbing s0 [newNode; node])); [|exact HC].
    clear HC. intros j t0 HC.
    climb as n. climb as k. climb as c. climb. climb. climb as m. climb as c'.
    destruct c' as [c1|].
    - eapply wlp_mono; [apply (wlp_set_parent _ _ _ _ _ HC); set_solver|].
      auto.
    - apply wlp_ret. assumption. }
  clear HC. cbv beta. intros [] t1 HC.
  climb as n. climb as last. climb. climb as m. climb as c'.
  apply wlp_bind. eapply wlp_mono.
  { instantiate (1 := fun _ s' => climbing s0 [newNode; node] s').
    destruct c' as [c1|].
    - apply (wlp_set_parent _ _ _ _ _ HC); set_solver.
    - apply wlp_ret. assumption. }
  clear HC. cbv beta. intros [] t2 HC.
  climb. climb as n1. climb as middleKey. climb. climb. climb as n2.
  destruct (Parent n2) as [parent|] eqn:EP.
  - eapply wlp_mono.
    + apply Hrec; [apply HC|].
      destruct HC as (_ & HJ & _). eapply (HJ _ n2); eassumption.
    + cbv beta. intros [] sf (HK' & HJ'). split; [|assumption].
      eapply leaves_kept_trans; [apply HC|assumption].
  - climb as newRoot. climb. climb. climb.
    apply wlp_modify. apply climbing_done in HC. exact HC.
Qed.


Lemma parent_insert_fields i key rc n n' :
  parent_insert i key rc n = Ok n' ->
  Type_ n' = Type_ n /\ Parent n' = Parent n.
Proof.
  unfold parent_insert, for_down_range. intros H.
  destruct (for_down _ (NumKeys n) _ n) as [n1| | |] eqn:E;
    cbn [rbind] in H; try discriminate.
  apply (for_down_inv (fun x => Type_ x = Type_ n /\ Parent x = Parent n)) in E.
  - destruct E as (HT & HP). inv_ok H. subst n'. cbn. auto.
  - clear. intros j x y (HT & HP) Hb. inv_ok Hb. subst y. cbn. auto.
  - auto.
Qed.

(** Climbing from a parent keeps every leaf as it is but for parent
    pointers, and keeps parent pointers on internal nodes. *)
Lemma insertIntoParent_climbs fuel : forall p key rc s,
  parents_ok s -> internal_at s p ->
  wlp (insertIntoParent fuel p key rc) s
      (fun _ s' => leaves_kept s s' /\ parents_ok s').
Proof.
  induction fuel as [|fuel IH]; intros p key rc s HJ Hp;
    cbn [insertIntoParent]; [apply wlp_diverge|].
  assert (HC : climbing s [p] s).
  { split; [apply leaves_kept_refl|]. split; [assumption|].
    constructor; [assumption|constructor]. }
  climb. climb. climb as i.
  apply wlp_bind. eapply wlp_mono.
  { apply (wlp_update_internal _ _ _ _ _ HC); [set_solver|].
    intros n n' Hf. eapply parent_insert_fields; eassumption. }
  clear HC. cbv beta. intros [] t1 HC.
  climb as n. destruct (IsFull n).
  - apply splitInternal_climbs; [|assumption]. intros. apply IH; assumption.
  - apply wlp_ret. eapply climbing_done; eassumption.
Qed.

Lemma link_parent_climbs leaf newLeaf s :
  parents_ok s ->
  wlp (link_parent leaf newLeaf) s
      (fun _ s' => leaves_kept s s' /\ parents_ok s').
Proof.
  intros HJ. unfold link_parent.
  assert (HC : climbing s [] s).
  { split; [apply leaves_kept_refl|]. split; [assumption|constructor]. }
  climb as n. climb as m. climb as sep.
  destruct (Parent n) as [parent|] eqn:EP.
  - climb. apply insertIntoParent_climbs; [assumption|].
    eapply (HJ _ n); eassumption.
  - climb as newRoot. climb. climb. climb.
    apply wlp_modify. eapply climbing_done; eassumption.
Qed.

(** The split of a leaf that is the root: a new root is made. *)
Lemma link_parent_root (bt1 : BTree) (leaf new : ptr) (nl nr : Node) :
  nodes bt1 !! leaf = Some nl -> nodes bt1 !! new = Some nr -> leaf <> new ->
  Parent nl = None -> length (Keys nr) = 4%nat ->
  wp (link_parent leaf new) bt1 (fun _ bt' =>
    nodes bt' !! leaf = Some (set_Parent (Some (length (nodes bt1))) nl) /\
    nodes bt' !! new = Some (set_Parent (Some (length (nodes bt1))) nr) /\
    root bt' = Some (length (nodes bt1)) /\
    exists r, nodes bt' !! length (nodes bt1) = Some r /\
              IsLeaf r = false /\ NumKeys r = 1 /\
              Keys r !! 0%nat = Keys nr !! 0%nat /\
              Children r !! 0%nat = Some (Some leaf) /\
              Children r !! 1%nat = Some (Some new)).
Proof.
  intros Hl Hr Hne HP HK.
  assert (Hl1 : (leaf < length (nodes bt1))%nat) by (eapply lookup_lt_Some; eassumption).
  assert (Hr1 : (new < length (nodes bt1))%nat) by (eapply lookup_lt_Some; eassumption).
  destruct (Keys nr) as [|sep ks] eqn:EK; [discriminate|].
  unfold link_parent.
  apply wp_bind; eapply wp_deref; [eassumption|].
  apply wp_bind; eapply wp_deref; [eassumption|].
  apply wp_bind; eapply wp_lift; [rewrite EK; reflexivity|].
  rewrite HP.
  apply wp_bind; apply wp_alloc.
  apply wp_bind; eapply wp_update; [look; reflexivity|lazy; reflexivity|].
  apply wp_bind; eapply wp_update; [look; eassumption|reflexivity|].
  apply wp_bind; eapply wp_update; [look; eassumption|reflexivity|].
  apply wp_modify.
  split; [look; reflexivity|]. split; [look; reflexivity|].
  split; [reflexivity|].
  eexists. split; [look; reflexivity|]. cbn. auto 10.
Qed.


(** The invariant on parent pointers goes through the split of the leaf. *)
Lemma split_leaf_parents_ok (bt bt1 : BTree) (leaf : ptr) (n nl nr : Node) :
  parents_ok bt ->
  nodes bt !! leaf = Some n -> IsLeaf n = true ->
  nodes bt1 !! leaf = Some nl -> Parent nl = Parent n ->
  nodes bt1 !! length (nodes bt) = Some nr -> Parent nr = None ->
  (forall h, h <> leaf -> h <> length (nodes bt) ->
             nodes bt1 !! h = nodes bt !! h) ->
  parents_ok bt1.
Proof.
  intros HJ Hn HL Hnl HPl Hnr HPr Hframe.
  assert (Hint : forall p, internal_at bt p -> internal_at bt1 p).
  { intros p (pn & Hpn & HLp). exists pn. split; [|assumption].
    rewrite Hframe; [assumption| |].
    - intros ->. congruence.
    - intros ->. apply lookup_lt_Some in Hpn. lia. }
  intros h n2 p Hn2 Hp.
  destruct (decide (h = leaf)) as [Heq|Hne1]; [subst h|].
  - pose proof (eq_trans (eq_sym Hnl) Hn2) as E. injection E as <-. apply Hint.
    eapply HJ; [exact Hn|]. congruence.
  - destruct (decide (h = length (nodes bt))) as [Heq|Hne2]; [subst h|].
    + pose proof (eq_trans (eq_sym Hnr) Hn2) as E. injection E as <-.
      congruence.
    + rewrite Hframe in Hn2 by assumption. apply Hint. eapply HJ; eassumption.
Qed.

(** C4 as stated fails: after key01 .. key05 are set, the leaf that was full
    keeps two keys and the new leaf has three, the cut being at
    [(MaxKeys + 1) / 2 = 2], not at 3. *)
Lemma split_leaves_two_and_three :
  exists bt nl nr,
    exec (run_mem (ascending_sets 5)) New = Ok bt /\
    nodes bt !! 0%nat = Some nl /\ nodes bt !! 1%nat = Some nr /\
    Next nl = Some 1%nat /\
    NumKeys nl = 2 /\ NumKeys nr = 3 /\
    Keys nl = [key_of "key01"; key_of "key02"; None; None] /\
    Keys nr = [key_of "key03"; key_of "key04"; key_of "key05"; None] /\
    ~ (NumKeys nl = 3 /\ NumKeys nr = 2).
Proof.
  do 3 eexists. split; [vm_compute; reflexivity|].
  repeat split; try reflexivity. cbn. intros [H _]. discriminate H.
Qed.

(** C4, amended. When an entry is inserted at index [i] into a leaf that
    holds [MaxKeys] keys, the old entries and the new one, in order, are cut
    at [mid = (MaxKeys + 1) / 2 = 2], the quotient rounded down: the leaf
    keeps the entries [0, 2) and two keys, the new leaf gets the entries
    [2, 5) and three keys, and the chain is relinked as
    [right.next = left.next; left.next = right]. The split itself always
    returns; the insertion into the parent that follows leaves both leaves
    as they are, but for their parent pointers; and when the leaf is the
    root the whole of [splitAndInsert] returns, with a new root above the
    two leaves. *)
Theorem splitAndInsert_cuts_at_two (bt : BTree) (leaf : ptr) (n : Node)
    (key val : slice) (i : Z) :
  nodes bt !! leaf = Some n -> full_leaf n = true -> 0 <= i <= MaxKeys ->
  let allKeys := inserted (Keys n) i key in
  let allValues := inserted (Values n) i val in
  let newLeaf := length (nodes bt) in
  let left := mkNode LeafNode (take 2 allKeys ++ [None; None])
                (take 2 allValues ++ [None; None]) (Children n)
                (Some newLeaf) None 2 in
  let right := mkNode LeafNode (drop 2 allKeys ++ [None])
                 (drop 2 allValues ++ [None]) [] (Next n) None 3 in
  (MaxKeys + 1) / 2 = 2 /\
  (exists bt1,
     split_leaf leaf key val i bt = Ok (newLeaf, bt1) /\
     nodes bt1 !! leaf = Some (set_Parent (Parent n) left) /\
     nodes bt1 !! newLeaf = Some right) /\
  (parents_internal bt = true ->
   forall bt', splitAndInsert leaf key val i bt = Ok (tt, bt') ->
     exists nl nr,
       nodes bt' !! leaf = Some nl /\ nodes bt' !! newLeaf = Some nr /\
       set_Parent None nl = left /\ set_Parent None nr = right) /\
  (Parent n = None ->
   exists bt',
     splitAndInsert leaf key val i bt = Ok (tt, bt') /\
     nodes bt' !! leaf = Some (set_Parent (Some (S newLeaf)) left) /\
     nodes bt' !! newLeaf = Some (set_Parent (Some (S newLeaf)) right) /\
     root bt' = Some (S newLeaf)).
Proof.
  intros Hn Hfull Hi allKeys allValues newLeaf left right.
  destruct (split_leaf_spec bt leaf n key val i Hn Hfull Hi)
    as (x & bt1 & Hsplit & -> & Hl & Hr & Hlen & Hframe & _).
  fold allKeys allValues newLeaf in Hl, Hr, Hsplit.
  assert (HL : IsLeaf n = true).
  { unfold full_leaf in Hfull. rewrite !andb_true_iff in Hfull. tauto. }
  assert (Hlt : (leaf < newLeaf)%nat) by (eapply lookup_lt_Some; eassumption).
  split; [reflexivity|]. split; [|split].
  - exists bt1. auto.
  - intros HJ bt' H. apply parents_internal_ok in HJ.
    unfold splitAndInsert, Go.bind in H. rewrite Hsplit in H.
    assert (HJ1 : parents_ok bt1).
    { eapply (split_leaf_parents_ok bt bt1 leaf n); try eassumption; reflexivity. }
    destruct (link_parent_climbs leaf newLeaf bt1 HJ1 tt bt' H) as (HK & _).
    destruct (HK leaf _ Hl) as (nl & Hnl & _ & Hpl).
    destruct (HK newLeaf _ Hr) as (nr & Hnr & _ & Hpr).
    exists nl, nr. repeat split; try assumption.
    + rewrite Hpl by reflexivity. reflexivity.
    + rewrite Hpr by reflexivity. reflexivity.
  - intros HP.
    destruct (link_parent_root bt1 leaf newLeaf _ _ Hl Hr ltac:(lia))
      as ([] & bt' & Hlink & Hl' & Hr' & Hroot & _).
    + cbn. assumption.
    + cbn. unfold allKeys, inserted.
      rewrite length_app, length_drop, length_app, length_take.
      cbn [length]. rewrite length_drop.
      unfold full_leaf in Hfull. rewrite !andb_true_iff, !Z.eqb_eq in Hfull.
      unfold MaxKeys in *. lia.
    + exists bt'. rewrite Hlen in *.
      split; [|split; [|split]]; try assumption.
      unfold splitAndInsert, Go.bind. rewrite Hsplit. exact Hlink.
Qed.

Lemma splitAndInsert_cuts_at_two_witness :
  let bt := tree_after (ascending_sets 6) in
  exists n bt' nl nr,
    nodes bt !! 1%nat = Some n /\ full_leaf n = true /\
    parents_internal bt = true /\
    splitAndInsert 1%nat (key_of "key07") (key_of "value_key07") 4 bt = Ok (tt, bt') /\
    nodes bt' !! 1%nat = Some nl /\ nodes bt' !! 3%nat = Some nr /\
    Keys nl = [key_of "key03"; key_of "key04"; None; None] /\
    Keys nr = [key_of "key05"; key_of "key06"; key_of "key07"; None].
Proof.
  intros bt.
  eassert (Hn : nodes bt !! 1%nat = Some _) by (lazy; reflexivity).
  assert (Hfull : full_leaf (mkNode LeafNode
            [key_of "key03"; key_of "key04"; key_of "key05"; key_of "key06"]
            [key_of "value_key03"; key_of "value_key04"; key_of "value_key05";
             key_of "value_key06"] [] None (Some 2%nat) 4) = true)
    by reflexivity.
  assert (HJ : parents_internal bt = true) by (vm_compute; reflexivity).
  eassert (HS : splitAndInsert 1%nat (key_of "key07") (key_of "value_key07") 4 bt
                = Ok (tt, _)) by (lazy; reflexivity).
  destruct (splitAndInsert_cuts_at_two bt 1%nat _ (key_of "key07")
              (key_of "value_key07") 4 Hn Hfull ltac:(unfold MaxKeys; lia))
    as (_ & _ & Hpart & _).
  destruct (Hpart HJ _ HS) as (nl & nr & Hnl & Hnr & Hl & Hr).
  eexists _, _, nl, nr.
  split; [exact Hn|]. split; [exact Hfull|]. split; [exact HJ|].
  split; [exact HS|]. split; [exact Hnl|]. split; [exact Hnr|].
  split.
  - apply (f_equal Keys) in Hl. exact Hl.
  - apply (f_equal Keys) in Hr. exact Hr.
Defined.
End SplitFacts.
(** * The two variants on a tree that is a single leaf

    While the root of the in-memory tree is a leaf, [Set], [Delete], [Get]
    and the iterator of both variants come down to the same operations on
    the fields of this leaf: [leaf_set], [leaf_delete], [leaf_get] and
    [leaf_scan]. *)

Section LeafMemory.
Import btree.

Lemma KeyAt_total n j :
  NumKeys n <= Z.of_nat (length (Keys n)) -> exists k, KeyAt n j = Ok k.
Proof.
  intros H. unfold KeyAt.
  destruct (j <? 0) eqn:E1; [eauto|].
  destruct (j >=? NumKeys n) eqn:E2; [eauto|]. cbn [orb].
  rewrite Z.geb_leb in E2. apply Z.leb_gt in E2. apply Z.ltb_ge in E1.
  apply index_in_range. lia.
Qed.

Lemma ValueAt_total n j :
  NumKeys n <= Z.of_nat (length (Values n)) -> exists v, ValueAt n j = Ok v.
Proof.
  intros H. unfold ValueAt.
  destruct (negb (IsLeaf n)); [eauto|].
  destruct (j <? 0) eqn:E1; [eauto|].
  destruct (j >=? NumKeys n) eqn:E2; [eauto|]. cbn [orb].
  rewrite Z.geb_leb in E2. apply Z.leb_gt in E2. apply Z.ltb_ge in E1.
  apply index_in_range. lia.
Qed.

Lemma findKeyIndex_loop_total n key :
  NumKeys n <= Z.of_nat (length (Keys n)) ->
  forall steps i,
    exists r, findKeyIndex_loop steps n key i = Ok r /\
              (i <= r < i + Z.of_nat steps \/ r = NumKeys n).
Proof.
  intros H. induction steps as [|steps IH]; intros i; cbn [findKeyIndex_loop].
  - eauto.
  - destruct (KeyAt_total n i H) as [k ->]. cbn [rbind].
    destruct (IH (i + 1)) as (r & Hr & Hrange).
    destruct k as [kb|].
    + destruct (Compare key (Some kb) <=? 0).
      * exists i. split; [reflexivity|]. left. lia.
      * exists r. split; [assumption|]. destruct Hrange; [left; lia|auto].
    + exists r. split; [assumption|]. destruct Hrange; [left; lia|auto].
Qed.

Lemma findKeyIndex_node_total n key :
  lone_leaf n ->
  exists i, findKeyIndex_node n key = Ok i /\ 0 <= i <= NumKeys n.
Proof.
  intros (_ & HK & _ & HN & _). unfold findKeyIndex_node.
  destruct (findKeyIndex_loop_total n key ltac:(lia) (Z.to_nat (NumKeys n)) 0)
    as (r & Hr & Hrange).
  exists r. split; [assumption|]. lia.
Qed.

(** The two variants search a node with the same code. *)
Lemma findKeyIndex_loop_same steps n key i :
  storage.findKeyIndex_loop steps n key i = findKeyIndex_loop steps n key i.
Proof. reflexivity. Qed.

Lemma delete_shift_same i n : storage.delete_shift i n = delete_shift i n.
Proof. reflexivity. Qed.

(** Case analysis on a lone leaf: its arrays and its key count. *)
Ltac lone_cases n H :=
  let ty := fresh "ty" in let ks := fresh "ks" in let vs := fresh "vs" in
  let ch := fresh "ch" in let nx := fresh "nx" in let pr := fresh "pr" in
  let nk := fresh "nk" in
  destruct n as [ty ks vs ch nx pr nk];
  destruct H as (HL & HK & HV & HN & HX & HP);
  cbn in HL, HK, HV, HN, HX, HP; subst nx pr;
  destruct ty; [|discriminate HL]; clear HL;
  destruct ks as [|? [|? [|? [|? [|]]]]]; try discriminate HK;
  destruct vs as [|? [|? [|? [|? [|]]]]]; try discriminate HV;
  clear HK HV.

Lemma lone_leaf_assign n i val :
  lone_leaf n -> 0 <= i < NumKeys n ->
  exists vs, assign (Values n) i val = Ok vs /\ lone_leaf (set_Values vs n).
Proof.
  intros H Hi. exists (<[Z.to_nat i := val]> (Values n)).
  destruct H as (HL & HK & HV & HN & HX & HP).
  split; [apply assign_in_range; lia|].
  unfold lone_leaf, IsLeaf in *. cbn. rewrite length_insert. auto 10.
Qed.

Lemma lone_leaf_insert n i key val :
  lone_leaf n -> NumKeys n < 4 -> 0 <= i <= NumKeys n ->
  exists n', btree.leaf_insert i key val n = Ok n' /\
             storage.leaf_insert i key val n = Ok n' /\ lone_leaf n'.
Proof.
  intros H Hn Hi. lone_cases n H. cbn in *.
  assert (Hc : nk = 0 \/ nk = 1 \/ nk = 2 \/ nk = 3) by lia.
  destruct Hc as [->|[->|[->| ->]]].
  all: assert (Hc : i = 0 \/ i = 1 \/ i = 2 \/ i = 3) by lia.
  all: destruct Hc as [->|[->|[->| ->]]]; try lia.
  all: eexists; split; [lazy; reflexivity|].
  all: split; [lazy; reflexivity|].
  all: unfold lone_leaf; cbn; repeat split; lia.
Qed.

Lemma lone_leaf_delete n i :
  lone_leaf n -> 0 <= i < NumKeys n ->
  exists n', delete_shift i n = Ok n' /\ lone_leaf n'.
Proof.
  intros H Hi. lone_cases n H. cbn in *.
  assert (Hc : nk = 1 \/ nk = 2 \/ nk = 3 \/ nk = 4) by lia.
  destruct Hc as [->|[->|[->| ->]]].
  all: assert (Hc : i = 0 \/ i = 1 \/ i = 2 \/ i = 3) by lia.
  all: destruct Hc as [->|[->|[->| ->]]]; try lia.
  all: eexists; split; [lazy; reflexivity|].
  all: unfold lone_leaf; cbn; repeat split; lia.
Qed.


Lemma wp_exec {S A : Type} (m : M S A) (s : S) (Q : A -> S -> Prop) :
  wp m s Q -> exists a s', m s = Ok (a, s') /\ exec m s = Ok s' /\ Q a s'.
Proof.
  intros (a & s' & H & HQ). exists a, s'. unfold exec. rewrite H. auto.
Qed.

Lemma mem_deref bt rp n (Q : Node -> BTree -> Prop) :
  nodes bt !! rp = Some n -> Q n bt -> wp (deref (Some rp)) bt Q.
Proof.
  intros Hn HQ. exists n, bt. split; [|assumption].
  unfold deref, lift, node_at. rewrite Hn. reflexivity.
Qed.

Lemma mem_update bt rp n f n' (Q : unit -> BTree -> Prop) :
  nodes bt !! rp = Some n -> f n = Ok n' ->
  Q tt (set_nodes (<[rp := n']> (nodes bt)) bt) -> wp (update (Some rp) f) bt Q.
Proof.
  intros Hn Hf HQ. eexists tt, _. split; [|exact HQ].
  unfold update, node_at. rewrite Hn. cbn [rbind]. rewrite Hf. reflexivity.
Qed.

Lemma mem_holds_update bt rp n n' :
  root bt = Some rp -> nodes bt !! rp = Some n ->
  mem_holds (set_nodes (<[rp := n']> (nodes bt)) bt) n'.
Proof.
  intros Hr Hn. exists rp. split; [assumption|]. cbn.
  apply list_lookup_insert_eq. eapply lookup_lt_Some; eassumption.
Qed.

Lemma mem_findLeaf bt rp n key :
  root bt = Some rp -> nodes bt !! rp = Some n -> IsLeaf n = true ->
  btree.findLeaf bt key = Ok (Some rp).
Proof.
  intros Hr Hn HL. unfold btree.findLeaf. rewrite Hr.
  destruct (length (nodes bt)); cbn [findLeaf_loop]; unfold node_at;
    rewrite Hn; cbn [rbind]; rewrite HL; reflexivity.
Qed.

Lemma mem_findKeyIndex bt rp n key :
  nodes bt !! rp = Some n ->
  btree.findKeyIndex bt (Some rp) key = findKeyIndex_node n key.
Proof.
  intros Hn. unfold btree.findKeyIndex, node_at. rewrite Hn. reflexivity.
Qed.

(** [Get] on a tree that is a single leaf. *)
Lemma mem_Get bt n key :
  mem_holds bt n -> lone_leaf n -> btree.Get bt key = leaf_get n key.
Proof.
  intros (rp & Hr & Hn) HS. unfold btree.Get, leaf_get. rewrite Hr.
  rewrite (mem_findLeaf bt rp n key Hr Hn ltac:(apply HS)). cbn [rbind].
  rewrite (mem_findKeyIndex bt rp n key Hn).
  destruct (findKeyIndex_node n key) as [i| | |]; cbn [rbind]; try reflexivity.
  unfold leaf_hit, node_at. rewrite Hn.
  destruct (0 <=? i); cbn [rbind]; [|reflexivity].
  destruct (i <? NumKeys n); cbn [rbind]; [|reflexivity].
  destruct (KeyAt n i) as [k| | |]; cbn [rbind]; reflexivity.
Qed.

(** The test on the key at the index found, in [Set]. *)
Lemma mem_hit bt rp n key i (Q : bool -> BTree -> Prop) b :
  nodes bt !! rp = Some n -> leaf_hit n key i = Ok b -> Q b bt ->
  wp (if 0 <=? i then
        n <~ deref (Some rp) ;;
        if i <? NumKeys n then k <~ lift (KeyAt n i) ;; ret (Equal k key)
        else ret false
      else ret false) bt Q.
Proof.
  intros Hn Hh HQ. unfold leaf_hit in Hh.
  destruct (0 <=? i); [|injection Hh as <-; apply wp_ret; assumption].
  apply wp_bind. eapply mem_deref; [eassumption|].
  destruct (i <? NumKeys n); [|injection Hh as <-; apply wp_ret; assumption].
  destruct (KeyAt n i) as [k| | |] eqn:E; cbn [rbind] in Hh; try discriminate.
  injection Hh as <-.
  apply wp_bind. eapply wp_lift; [first [reflexivity|eassumption]|]. apply wp_ret. assumption.
Qed.

Lemma mem_Set bt n key val n' :
  mem_holds bt n -> lone_leaf n -> leaf_set n key val = Ok (Some n') ->
  exists bt', exec (btree.Set_ key val) bt = Ok bt' /\ mem_holds bt' n'.
Proof.
  intros (rp & Hr & Hn) HS Hset.
  destruct (findKeyIndex_node_total n key HS) as (i & Hi & Hrange).
  unfold leaf_set in Hset. rewrite Hi in Hset. cbn [rbind] in Hset.
  destruct (leaf_hit n key i) as [h| | |] eqn:Hh; cbn [rbind] in Hset;
    try discriminate.
  enough (HW : wp (btree.Set_ key val) bt (fun _ bt' => mem_holds bt' n')).
  { destruct (wp_exec _ _ _ HW) as (a & bt' & _ & He & HQ). eauto. }
  unfold btree.Set_.
  apply wp_bind, wp_get. rewrite Hr.
  apply wp_bind, wp_ret.
  apply wp_bind, wp_get.
  apply wp_bind. eapply wp_lift; [eapply mem_findLeaf; [eassumption..|apply HS]|].
  apply wp_bind. eapply wp_lift; [rewrite (mem_findKeyIndex _ _ _ _ Hn); exact Hi|].
  apply wp_bind. eapply mem_hit; [eassumption..|].
  destruct h.
  - destruct (assign (Values n) i val) as [vs| | |] eqn:Ea; cbn [rbind] in Hset;
      try discriminate.
    injection Hset as <-.
    eapply mem_update; [eassumption|rewrite Ea; reflexivity|].
    eapply mem_holds_update; eassumption.
  - destruct (NumKeys n =? MaxKeys) eqn:Efull; [discriminate|].
    destruct (btree.leaf_insert i key val n) as [n1| | |] eqn:El;
      cbn [rbind] in Hset; try discriminate.
    injection Hset as <-.
    apply wp_bind. unfold btree.insertIntoLeaf.
    apply wp_bind, wp_get.
    apply wp_bind. eapply wp_lift; [rewrite (mem_findKeyIndex _ _ _ _ Hn); exact Hi|].
    apply wp_bind. eapply mem_deref; [eassumption|].
    rewrite Efull.
    destruct ((i <? 0) || (i >? MaxKeys)) eqn:Er.
    { apply orb_true_iff in Er. rewrite Z.ltb_lt, Z.gtb_lt in Er.
      destruct HS as (_ & _ & _ & HN & _). unfold MaxKeys in Er. lia. }
    eapply mem_update; [eassumption..|].
    apply wp_modify. change (mem_holds (set_nodes (<[rp := n1]> (nodes bt)) bt) n1).
    eapply mem_holds_update; eassumption.
Qed.

Lemma mem_Delete bt n key n' :
  mem_holds bt n -> lone_leaf n -> leaf_delete n key = Ok n' ->
  exists bt', exec (btree.Delete key) bt = Ok bt' /\ mem_holds bt' n'.
Proof.
  intros (rp & Hr & Hn) HS Hdel.
  destruct (findKeyIndex_node_total n key HS) as (i & Hi & Hrange).
  unfold leaf_delete in Hdel. rewrite Hi in Hdel. cbn [rbind] in Hdel.
  destruct (leaf_hit n key i) as [h| | |] eqn:Hh; cbn [rbind] in Hdel;
    try discriminate.
  enough (HW : wp (btree.Delete key) bt (fun _ bt' => mem_holds bt' n')).
  { destruct (wp_exec _ _ _ HW) as (a & bt' & _ & He & HQ). eauto. }
  unfold btree.Delete.
  apply wp_bind, wp_get. rewrite Hr.
  apply wp_bind. eapply wp_lift; [eapply mem_findLeaf; [eassumption..|apply HS]|].
  apply wp_bind. eapply wp_lift; [rewrite (mem_findKeyIndex _ _ _ _ Hn); exact Hi|].
  unfold leaf_hit in Hh.
  destruct (0 <=? i);
    [|injection Hh as <-; injection Hdel as <-; apply wp_ret; exists rp; auto].
  apply wp_bind. eapply mem_deref; [eassumption|].
  destruct (i <? NumKeys n);
    [|injection Hh as <-; injection Hdel as <-; apply wp_ret; exists rp; auto].
  destruct (KeyAt n i) as [k| | |] eqn:E; cbn [rbind] in Hh; try discriminate.
  injection Hh as <-.
  apply wp_bind. eapply wp_lift; [first [reflexivity|eassumption]|].
  destruct (Equal k key);
    [|injection Hdel as <-; apply wp_ret; exists rp; auto].
  apply wp_bind. unfold btree.deleteFromLeaf.
  apply wp_bind. eapply mem_update; [eassumption..|].
  apply wp_bind. eapply mem_deref.
  { cbn. apply list_lookup_insert_eq. eapply lookup_lt_Some; eassumption. }
  assert (HW : wp (if IsUnderflow n' && bool_decide (Parent n' <> None)
                   then handleUnderflow (Some rp) else ret tt)
                  (set_nodes (<[rp := n']> (nodes bt)) bt)
                  (fun _ s => s = set_nodes (<[rp := n']> (nodes bt)) bt)).
  { destruct (IsUnderflow n' && bool_decide (Parent n' <> None));
      apply wp_ret; reflexivity. }
  eapply wp_mono; [exact HW|]. cbv beta. intros [] s ->.
  apply wp_modify.
  change (mem_holds (set_nodes (<[rp := n']> (nodes bt)) bt) n').
  eapply mem_holds_update; eassumption.
Qed.


(** *** The in-memory variant: split of the root, and iteration *)

Lemma mem_Set_splits bt n key val :
  mem_holds bt n -> lone_leaf n -> leaf_set n key val = Ok None ->
  forall bt', exec (btree.Set_ key val) bt = Ok bt' -> root_is_leaf bt' = false.
Proof.
  intros (rp & Hr & Hn) HS Hset.
  destruct (findKeyIndex_node_total n key HS) as (i & Hi & Hrange).
  unfold leaf_set in Hset. rewrite Hi in Hset. cbn [rbind] in Hset.
  destruct (leaf_hit n key i) as [h| | |] eqn:Hh; cbn [rbind] in Hset;
    try discriminate.
  destruct h.
  { destruct (assign (Values n) i val); discriminate. }
  destruct (NumKeys n =? MaxKeys) eqn:Efull;
    [|destruct (btree.leaf_insert i key val n); discriminate].
  apply Z.eqb_eq in Efull.
  enough (HW : wp (btree.Set_ key val) bt (fun _ bt' => root_is_leaf bt' = false)).
  { destruct (wp_exec _ _ _ HW) as (a & bt1 & _ & He & HQ).
    intros bt' He'. congruence. }
  unfold btree.Set_.
  apply wp_bind, wp_get. rewrite Hr.
  apply wp_bind, wp_ret.
  apply wp_bind, wp_get.
  apply wp_bind. eapply wp_lift; [eapply mem_findLeaf; [eassumption..|apply HS]|].
  apply wp_bind. eapply wp_lift; [rewrite (mem_findKeyIndex _ _ _ _ Hn); exact Hi|].
  apply wp_bind. eapply mem_hit; [eassumption..|].
  apply wp_bind. unfold btree.insertIntoLeaf.
  apply wp_bind, wp_get.
  apply wp_bind. eapply wp_lift; [rewrite (mem_findKeyIndex _ _ _ _ Hn); exact Hi|].
  apply wp_bind. eapply mem_deref; [eassumption|].
  rewrite Efull. change (MaxKeys =? MaxKeys) with true. cbv iota.
  assert (Hfull : full_leaf n = true).
  { destruct HS as (HL & HK & HV & _). unfold full_leaf.
    rewrite HL, Efull, HK, HV. reflexivity. }
  unfold splitAndInsert. apply wp_bind.
  eapply wp_mono;
    [apply (split_leaf_spec bt rp n key val i Hn Hfull);
     rewrite <- Efull; assumption|].
  cbv beta. intros newLeaf bt1 (-> & Hl & Hnew & Hlen & _).
  assert (Hlt : (rp < length (nodes bt))%nat) by (eapply lookup_lt_Some; eassumption).
  eapply wp_mono.
  { eapply (link_parent_root bt1 rp (length (nodes bt))); try eassumption.
    - lia.
    - cbn. apply HS.
    - cbn. unfold inserted.
      rewrite length_app, length_drop, length_app, length_take.
      cbn [length]. rewrite length_drop.
      destruct HS as (_ & HK & _). rewrite HK. lia. }
  cbv beta. intros [] bt2 (_ & _ & Hroot & r & Hr2 & HLr & _).
  apply wp_modify. unfold root_is_leaf, node_at, set_size. cbn [root nodes].
  rewrite Hroot.
  match goal with
  | |- match match ?x with _ => _ end with _ => _ end = _ =>
      replace x with (Some r) by (symmetry; exact Hr2)
  end.
  exact HLr.
Qed.

Lemma leaf_nexts_ended count : forall n i,
  NumKeys n <= i -> leaf_nexts count n i = Ok (replicate count (None, None)).
Proof.
  induction count as [|count IH]; intros n i Hi; [reflexivity|].
  cbn [leaf_nexts replicate].
  destruct (i >=? NumKeys n) eqn:E;
    [|rewrite Z.geb_leb in E; apply Z.leb_gt in E; lia].
  rewrite IH by assumption. reflexivity.
Qed.

Lemma nexts_mem_ended count bt i :
  (r <- nexts_mem count bt (mkIter None i) ;; Ok (fst r))
  = Ok (replicate count (None, None)).
Proof.
  induction count as [|count IH]; [reflexivity|].
  cbn [nexts_mem]. unfold btree.Next_. cbn [current rbind].
  destruct (nexts_mem count bt (mkIter None i)) as [[l it]| | |];
    cbn [rbind fst] in *; try discriminate.
  injection IH as ->. reflexivity.
Qed.

Lemma nexts_mem_at bt rp n count : forall i,
  nodes bt !! rp = Some n -> Next n = None ->
  (r <- nexts_mem count bt (mkIter (Some rp) i) ;; Ok (fst r))
  = leaf_nexts count n i.
Proof.
  induction count as [|count IH]; intros i Hn HX; [reflexivity|].
  cbn [nexts_mem leaf_nexts]. unfold btree.Next_, node_at.
  cbn [current index_]. rewrite Hn. cbn [rbind].
  destruct (i >=? NumKeys n) eqn:E; cbn [rbind].
  - rewrite <- (IH i Hn HX).
    destruct (nexts_mem count bt (mkIter (Some rp) i)) as [[l it]| | |];
      reflexivity.
  - destruct (KeyAt n i) as [k| | |]; cbn [rbind]; try reflexivity.
    destruct (ValueAt n i) as [v| | |]; cbn [rbind]; try reflexivity.
    rewrite HX. rewrite andb_false_r. cbn [rbind].
    rewrite <- (IH (i + 1) Hn HX).
    destruct (nexts_mem count bt (mkIter (Some rp) (i + 1))) as [[l it]| | |];
      reflexivity.
Qed.

Lemma larger_loop_range n key steps : forall i r,
  larger_loop steps n key i = Ok r -> i <= r.
Proof.
  induction steps as [|steps IH]; intros i r H; cbn [larger_loop] in H.
  - injection H as <-. lia.
  - destruct (i <? NumKeys n); [|injection H as <-; lia].
    destruct (KeyAt n i) as [k| | |]; cbn [rbind] in H; try discriminate.
    destruct (Compare k key <=? 0); [|injection H as <-; lia].
    apply IH in H. lia.
Qed.

Lemma mem_scan bt n count key :
  mem_holds bt n -> lone_leaf n -> scan_mem count bt key = leaf_scan count n key.
Proof.
  intros (rp & Hr & Hn) HS. unfold scan_mem, leaf_scan, btree.FindLarger.
  rewrite Hr.
  rewrite (mem_findLeaf bt rp n key Hr Hn ltac:(apply HS)). cbn [rbind].
  rewrite (mem_findKeyIndex bt rp n key Hn).
  destruct (findKeyIndex_node n key) as [i0| | |]; cbn [rbind]; try reflexivity.
  unfold node_at. rewrite Hn. cbn [rbind].
  destruct (larger_loop _ n key i0) as [i| | |] eqn:EL; cbn [rbind];
    try reflexivity.
  assert (HX : Next n = None) by apply HS.
  destruct (i >=? NumKeys n) eqn:E; cbn [rbind].
  - rewrite HX. rewrite nexts_mem_ended.
    rewrite leaf_nexts_ended; [reflexivity|].
    rewrite Z.geb_leb in E. apply Z.leb_le in E. assumption.
  - apply nexts_mem_at; assumption.
Qed.

(** *** The leaf-level operations return, and keep the leaf a lone leaf *)

Lemma leaf_hit_total n key i :
  lone_leaf n -> exists b, leaf_hit n key i = Ok b.
Proof.
  intros (_ & HK & _ & HN & _). unfold leaf_hit.
  destruct (0 <=? i); [|eauto]. destruct (i <? NumKeys n); [|eauto].
  destruct (KeyAt_total n i ltac:(lia)) as [k ->]. cbn. eauto.
Qed.

Lemma leaf_hit_range n key i :
  leaf_hit n key i = Ok true -> 0 <= i < NumKeys n.
Proof.
  unfold leaf_hit. destruct (0 <=? i) eqn:E1; [|discriminate].
  destruct (i <? NumKeys n) eqn:E2; [|discriminate].
  intros _. apply Z.leb_le in E1. apply Z.ltb_lt in E2. lia.
Qed.

Lemma leaf_set_total n key val :
  lone_leaf n ->
  exists r, leaf_set n key val = Ok r /\
            forall n', r = Some n' ->
              lone_leaf n' /\
              (* both variants insert alike *)
              (forall i, findKeyIndex_node n key = Ok i ->
                 leaf_hit n key i = Ok false ->
                 storage.leaf_insert i key val n = Ok n').
Proof.
  intros HS. unfold leaf_set.
  destruct (findKeyIndex_node_total n key HS) as (i & Hi & Hrange).
  rewrite Hi. cbn [rbind].
  destruct (leaf_hit_total n key i HS) as [h Hh]. rewrite Hh. cbn [rbind].
  destruct h.
  - destruct (lone_leaf_assign n i val HS (leaf_hit_range _ _ _ Hh))
      as (vs & -> & HS').
    cbn [rbind]. eexists. split; [reflexivity|]. intros n' [= <-].
    split; [assumption|]. intros j [= <-] Hf. congruence.
  - destruct (NumKeys n =? MaxKeys) eqn:E.
    + eexists. split; [reflexivity|]. discriminate.
    + apply Z.eqb_neq in E. unfold MaxKeys in E.
      destruct (lone_leaf_insert n i key val HS) as (n1 & H1 & H2 & HS');
        [destruct HS as (_ & _ & _ & HN & _); lia|assumption|].
      rewrite H1. cbn [rbind]. eexists. split; [reflexivity|].
      intros n' [= <-]. split; [assumption|].
      intros j [= <-] _. assumption.
Qed.

Lemma leaf_delete_total n key :
  lone_leaf n -> exists n', leaf_delete n key = Ok n' /\ lone_leaf n'.
Proof.
  intros HS. unfold leaf_delete.
  destruct (findKeyIndex_node_total n key HS) as (i & Hi & Hrange).
  rewrite Hi. cbn [rbind].
  destruct (leaf_hit_total n key i HS) as [h Hh]. rewrite Hh. cbn [rbind].
  destruct h; [|eauto].
  apply lone_leaf_delete; [assumption|]. eapply leaf_hit_range; eassumption.
Qed.
End LeafMemory.
(** * The persistent variant on a single leaf *)

Section LeafDisk.
Import btree.
Import storage.

Lemma wp_try {S A : Type} (r : result A) (s : S) (Q : error + A -> S -> Prop) :
  returns r -> (forall x, r = Ok x -> Q (inr x) s) ->
  (forall e, r = Err e -> Q (inl e) s) -> wp (try r) s Q.
Proof.
  intros Hr HO HE. unfold wp, try.
  destruct r as [x|e| |]; try contradiction; eauto.
Qed.

Lemma for_loop_total {S : Type} (body : Z -> S -> result S) :
  forall steps i s,
    (forall j x, i <= j < i + Z.of_nat steps -> exists y, body j x = Ok y) ->
    exists s', for_loop steps i body s = Ok s'.
Proof.
  induction steps as [|steps IH]; intros i s Hb; cbn [for_loop]; [eauto|].
  destruct (Hb i s ltac:(lia)) as [y ->]. cbn [rbind].
  apply IH. intros j x Hj. apply Hb. lia.
Qed.

Lemma wp_on_pm {A : Type} (m : M PageManager A) d
    (Q' : A -> PageManager -> Prop) (Q : A -> DiskBTree -> Prop) :
  wp m (pm d) Q' -> (forall a p, Q' a p -> Q a (set_pm p d)) ->
  wp (on_pm m) d Q.
Proof.
  intros (a & p & Hm & HQ') HQ. exists a, (set_pm p d).
  unfold on_pm. rewrite Hm. auto.
Qed.

Lemma wp_dderef d dp n (Q : Node -> DiskBTree -> Prop) :
  dnodes d !! dp = Some n -> Q n d -> wp (dderef (Some dp)) d Q.
Proof.
  intros Hn HQ. exists n, d. split; [|assumption].
  unfold dderef, lift, dnode_at. rewrite Hn. reflexivity.
Qed.

Lemma wp_dupdate d dp n f n' (Q : unit -> DiskBTree -> Prop) :
  dnodes d !! dp = Some n -> f n = Ok n' ->
  Q tt (set_dnodes (<[dp := n']> (dnodes d)) d) ->
  wp (dupdate (Some dp) f) d Q.
Proof.
  intros Hn Hf HQ. eexists tt, _. split; [|exact HQ].
  unfold dupdate, dnode_at. rewrite Hn. cbn [rbind]. rewrite Hf. reflexivity.
Qed.

Lemma wp_loadNode_cached d id dp (Q : error + ptr -> DiskBTree -> Prop) :
  cache d !! id = Some dp -> Q (inr dp) d -> wp (loadNode id) d Q.
Proof.
  intros Hc HQ. exists (inr dp), d. split; [|assumption].
  unfold loadNode, bind, get. rewrite Hc. reflexivity.
Qed.

(** *** Writing a node through *)

Lemma updateChecksum_total page :
  0 <= DataLength (Header page) <= Z.of_nat (length (Data page)) ->
  exists page', updateChecksum page = Ok page' /\ ID page' = ID page.
Proof.
  intros H. unfold updateChecksum, for_range.
  destruct (for_loop_total
              (fun i sum => b <- index (Data page) i ;; Ok (uint32 (sum + Z_of_byte b)))
              (Z.to_nat (DataLength (Header page) - 0)) 0 0) as [sum ->].
  - intros j x Hj.
    destruct (index_in_range (Data page) j ltac:(lia)) as [b ->]. cbn. eauto.
  - cbn [rbind]. eauto.
Qed.

Lemma WritePage_total page p :
  0 <= DataLength (Header page) <= Z.of_nat (length (Data page)) ->
  wp (WritePage page) p (fun err _ => err = None -> ID page <> InvalidPageID).
Proof.
  intros H. unfold WritePage, writePageLocked.
  destruct (ID page =? InvalidPageID) eqn:E.
  { apply wp_ret. discriminate. }
  apply Z.eqb_neq in E.
  destruct (updateChecksum_total page H) as (page' & Hp & _).
  apply wp_bind. eapply wp_lift; [exact Hp|].
  apply wp_bind, wp_get.
  destruct (file p).
  - apply wp_bind, wp_modify. apply wp_ret. intros _. exact E.
  - apply wp_ret. discriminate.
Qed.

Lemma SetData_NewPage id ty data page :
  SetData (NewPage id ty) data = Ok page ->
  ID page = id /\
  0 <= DataLength (Header page) <= Z.of_nat (length (Data page)).
Proof.
  unfold SetData.
  destruct (Z.of_nat (length data) >? Z.of_nat (length (Data (NewPage id ty))));
    [discriminate|].
  intros [= <-]. cbn [ID Header DataLength Data]. split; [reflexivity|].
  rewrite length_app. unfold uint16.
  pose proof (Z.mod_pos_bound (Z.of_nat (length data)) (2 ^ 16) ltac:(lia)).
  pose proof (Z.mod_le (Z.of_nat (length data)) (2 ^ 16) ltac:(lia) ltac:(lia)).
  lia.
Qed.

Lemma SetData_returns page data : returns (SetData page data).
Proof. unfold SetData. destruct (_ >? _); exact I. Qed.

Lemma serialize_entries_returns n :
  NumKeys n <= Z.of_nat (length (Keys n)) ->
  NumKeys n <= Z.of_nat (length (Values n)) ->
  forall steps i buf, returns (serialize_entries steps n i buf).
Proof.
  intros HK HV. induction steps as [|steps IH]; intros i buf;
    cbn [serialize_entries]; [exact I|].
  destruct (KeyAt_total n i HK) as [k ->]. cbn [rbind].
  destruct k as [kb|]; [|exact I].
  destruct (IsLeaf n); [|apply IH].
  destruct (ValueAt_total n i HV) as [v ->]. cbn [rbind]. apply IH.
Qed.

Lemma SerializeNode_returns n :
  NumKeys n <= Z.of_nat (length (Keys n)) ->
  NumKeys n <= Z.of_nat (length (Values n)) ->
  returns (SerializeNode (Some n)).
Proof.
  intros HK HV. unfold SerializeNode.
  pose proof (serialize_entries_returns n HK HV (Z.to_nat (NumKeys n)) 0
                ([if IsLeaf n then x01 else x00] ++ PutUint32 (uint32 (NumKeys n))))
    as Hr.
  destruct (serialize_entries _ n 0 _) as [buf| | |]; try exact Hr.
  cbn [rbind]. destruct (negb (IsLeaf n)); [|exact I].
  unfold for_range.
  destruct (for_loop_total (fun _ buf => Ok (buf ++ PutUint32 0))
              (Z.to_nat (NumKeys n + 1 - 0)) 0 buf) as [s' ->]; [eauto|exact I].
Qed.

(** [saveNode] returns; it leaves the nodes and the root page alone, and
    enters the node in the cache and in the page table when it succeeds. *)
Lemma saveNode_spec d id dp n :
  dnodes d !! dp = Some n ->
  NumKeys n <= Z.of_nat (length (Keys n)) ->
  NumKeys n <= Z.of_nat (length (Values n)) ->
  wp (saveNode id dp) d (fun err d' =>
    dnodes d' = dnodes d /\ rootID d' = rootID d /\
    match err with
    | None => cache d' = <[id := dp]> (cache d) /\
              nodeToPageID d' = <[dp := id]> (nodeToPageID d) /\
              id <> InvalidPageID
    | Some _ => cache d' = cache d /\ nodeToPageID d' = nodeToPageID d
    end).
Proof.
  intros Hn HK HV. unfold saveNode.
  apply wp_bind. eapply wp_dderef; [eassumption|].
  apply wp_bind. apply wp_try; [apply SerializeNode_returns; assumption| |].
  2:{ intros e _. apply wp_ret. auto. }
  intros data _.
  apply wp_bind. apply wp_try; [apply SetData_returns| |].
  2:{ intros e _. apply wp_ret. auto. }
  intros page Hpage. apply SetData_NewPage in Hpage as (Hid & Hlen).
  apply wp_bind. eapply wp_on_pm; [apply WritePage_total; assumption|].
  cbv beta. intros err p Herr.
  destruct err as [e|].
  { apply wp_ret. auto. }
  apply wp_bind. unfold setNodePageID. apply wp_modify.
  apply wp_bind, wp_modify. apply wp_ret.
  cbn. rewrite <- Hid. repeat split. apply Herr. reflexivity.
Qed.

Lemma saveNodeFromCache_holds d n :
  disk_holds d n -> lone_leaf n ->
  forall dp, cache d !! rootID d = Some dp ->
  wp (saveNodeFromCache dp) d (fun _ d' => disk_holds d' n).
Proof.
  intros (dp' & Hc & Hn & Hp & Hne) HS dp Hc'.
  assert (dp' = dp) as -> by congruence.
  unfold saveNodeFromCache. apply wp_bind, wp_get.
  unfold getPageIDFromNode. rewrite Hp.
  destruct (rootID d =? InvalidPageID) eqn:E; [apply Z.eqb_eq in E; contradiction|].
  cbn [negb]. apply wp_bind.
  eapply wp_mono.
  { apply (saveNode_spec d (rootID d) dp n Hn);
      destruct HS as (_ & HK & HV & HN & _); lia. }
  cbv beta. intros err d' (Hd & Hr & Hrest). apply wp_ret.
  exists dp. rewrite Hr, Hd.
  destruct err as [e|].
  - destruct Hrest as (-> & ->). auto.
  - destruct Hrest as (-> & -> & _).
    rewrite !lookup_insert_eq. auto.
Qed.


Lemma disk_holds_update d dp n n' :
  cache d !! rootID d = Some dp -> dnodes d !! dp = Some n ->
  disk_holds d n ->
  disk_holds (set_dnodes (<[dp := n']> (dnodes d)) d) n'.
Proof.
  intros Hc Hn (dp' & Hc' & _ & Hp & Hne).
  assert (dp' = dp) as -> by congruence.
  exists dp. cbn. repeat split; try assumption.
  apply list_lookup_insert_eq. eapply lookup_lt_Some; eassumption.
Qed.

(** *** The operations *)

Lemma larger_loop_same steps n key i :
  storage.larger_loop steps n key i = btree.larger_loop steps n key i.
Proof. reflexivity. Qed.

Lemma wp_hit d dp n key i b (Q : bool -> DiskBTree -> Prop) :
  dnodes d !! dp = Some n -> leaf_hit n key i = Ok b -> Q b d ->
  wp (hit (Some dp) key i) d Q.
Proof.
  intros Hn Hh HQ. unfold hit, leaf_hit in *.
  destruct (0 <=? i); [|injection Hh as <-; apply wp_ret; assumption].
  apply wp_bind. eapply wp_dderef; [eassumption|].
  destruct (i <? NumKeys n); [|injection Hh as <-; apply wp_ret; assumption].
  destruct (KeyAt n i) as [k| | |]; try discriminate.
  injection Hh as <-.
  apply wp_bind. eapply wp_lift; [reflexivity|]. apply wp_ret. assumption.
Qed.

Lemma disk_Get d n key r :
  disk_holds d n -> leaf_get n key = Ok r ->
  wp (storage.Get key) d (fun a d' => a = r /\ d' = d).
Proof.
  intros (dp & Hc & Hn & Hp & Hne) Hget. unfold leaf_get in Hget.
  destruct (findKeyIndex_node n key) as [i| | |] eqn:Hi; try discriminate.
  cbn [rbind] in Hget.
  destruct (leaf_hit n key i) as [h| | |] eqn:Hh; try discriminate.
  cbn [rbind] in Hget.
  unfold storage.Get.
  apply wp_bind, wp_get.
  apply wp_bind. eapply wp_loadNode_cached; [eassumption|].
  apply wp_bind. unfold findLeaf.
  apply wp_bind. eapply wp_dderef; [eassumption|]. apply wp_ret.
  apply wp_bind, wp_get.
  apply wp_bind. eapply wp_lift.
  { unfold storage.findKeyIndex, dnode_at. rewrite Hn. exact Hi. }
  apply wp_bind. eapply wp_hit; [eassumption..|].
  destruct h.
  - destruct (ValueAt n i) as [v| | |] eqn:Hv; try discriminate.
    injection Hget as <-.
    apply wp_bind. eapply wp_dderef; [eassumption|].
    apply wp_bind. eapply wp_lift; [exact Hv|]. apply wp_ret. auto.
  - injection Hget as <-. apply wp_ret. auto.
Qed.

Lemma disk_Set d n key val r :
  disk_holds d n -> lone_leaf n -> leaf_set n key val = Ok r ->
  wp (storage.Set_ key val) d (fun _ d' =>
    disk_holds d' (match r with Some n' => n' | None => n end)).
Proof.
  intros Hd HS Hset. pose proof Hd as (dp & Hc & Hn & Hp & Hne).
  destruct (leaf_set_total n key val HS) as (r' & Hr' & Hins).
  assert (r' = r) as -> by congruence.
  unfold leaf_set in Hset.
  destruct (findKeyIndex_node_total n key HS) as (i & Hi & Hrange).
  rewrite Hi in Hset. cbn [rbind] in Hset.
  destruct (leaf_hit n key i) as [h| | |] eqn:Hh; try discriminate.
  cbn [rbind] in Hset.
  unfold storage.Set_.
  apply wp_bind, wp_get.
  apply wp_bind. eapply wp_loadNode_cached; [eassumption|].
  apply wp_bind. unfold findLeaf.
  apply wp_bind. eapply wp_dderef; [eassumption|]. apply wp_ret.
  apply wp_bind, wp_get.
  apply wp_bind. eapply wp_lift.
  { unfold storage.findKeyIndex, dnode_at. rewrite Hn. exact Hi. }
  apply wp_bind. eapply wp_hit; [eassumption..|].
  destruct h.
  - destruct (assign (Values n) i val) as [vs| | |] eqn:Ha; try discriminate.
    injection Hset as <-.
    destruct (Hins _ eq_refl) as (HS' & _).
    apply wp_bind. eapply wp_dupdate; [eassumption| |].
    { rewrite Ha. reflexivity. }
    apply saveNodeFromCache_holds; [|assumption|exact Hc].
    eapply disk_holds_update; eassumption.
  - unfold storage.insertIntoLeaf.
    apply wp_bind. eapply wp_dderef; [eassumption|].
    destruct (NumKeys n =? MaxKeys) eqn:E.
    + injection Hset as <-. apply Z.eqb_eq in E. rewrite E.
      change (MaxKeys <? MaxKeys) with false. cbv iota. apply wp_ret. exact Hd.
    + apply Z.eqb_neq in E.
      destruct (btree.leaf_insert i key val n) as [n'| | |] eqn:Hin;
        try discriminate.
      injection Hset as <-.
      destruct (Hins _ eq_refl) as (HS' & Hsame).
      assert (Hlt : (NumKeys n <? MaxKeys) = true).
      { apply Z.ltb_lt. destruct HS as (_ & _ & _ & HN & _).
        unfold MaxKeys in *. lia. }
      rewrite Hlt.
      apply wp_bind. eapply wp_dupdate; [eassumption| |].
      { apply Hsame; [exact Hi|exact Hh]. }
      apply saveNodeFromCache_holds; [|assumption|exact Hc].
      eapply disk_holds_update; eassumption.
Qed.

Lemma disk_Delete d n key n' :
  disk_holds d n -> lone_leaf n -> leaf_delete n key = Ok n' ->
  wp (storage.Delete key) d (fun _ d' => disk_holds d' n').
Proof.
  intros Hd HS Hdel. pose proof Hd as (dp & Hc & Hn & Hp & Hne).
  destruct (leaf_delete_total n key HS) as (n2 & Hn2 & HS').
  assert (n2 = n') as -> by congruence.
  unfold leaf_delete in Hdel.
  destruct (findKeyIndex_node_total n key HS) as (i & Hi & Hrange).
  rewrite Hi in Hdel. cbn [rbind] in Hdel.
  destruct (leaf_hit n key i) as [h| | |] eqn:Hh; try discriminate.
  cbn [rbind] in Hdel.
  unfold storage.Delete.
  apply wp_bind, wp_get.
  apply wp_bind. eapply wp_loadNode_cached; [eassumption|].
  apply wp_bind. unfold findLeaf.
  apply wp_bind. eapply wp_dderef; [eassumption|]. apply wp_ret.
  apply wp_bind, wp_get.
  apply wp_bind. eapply wp_lift.
  { unfold storage.findKeyIndex, dnode_at. rewrite Hn. exact Hi. }
  apply wp_bind. eapply wp_hit; [eassumption..|].
  destruct h.
  - pose proof (leaf_hit_range _ _ _ Hh) as Hir.
    unfold storage.deleteFromLeaf.
    destruct (i <? 0) eqn:E1; [apply Z.ltb_lt in E1; lia|].
    apply wp_bind. eapply wp_dderef; [eassumption|].
    destruct (i >=? NumKeys n) eqn:E2;
      [rewrite Z.geb_leb in E2; apply Z.leb_le in E2; lia|].
    apply wp_bind. eapply wp_dupdate; [eassumption|exact Hdel|].
    apply saveNodeFromCache_holds; [|assumption|exact Hc].
    eapply disk_holds_update; eassumption.
  - injection Hdel as <-. apply wp_ret. exact Hd.
Qed.

(** *** The iterator *)

Lemma leaf_nexts_total c n : forall i,
  lone_leaf n -> exists l, leaf_nexts c n i = Ok l.
Proof.
  induction c as [|c IH]; intros i HS; cbn [leaf_nexts]; [eauto|].
  pose proof HS as (_ & HK & HV & HN & _).
  destruct (i >=? NumKeys n).
  - destruct (IH i HS) as [l ->]. cbn. eauto.
  - destruct (KeyAt_total n i ltac:(lia)) as [k ->].
    destruct (ValueAt_total n i ltac:(lia)) as [v ->].
    destruct (IH (i + 1) HS) as [l ->]. cbn. eauto.
Qed.

Lemma nexts_disk_ended d c i :
  wp (nexts_disk c (mkDiskIter InvalidPageID i)) d
     (fun r d' => fst r = replicate c (None, None) /\ d' = d).
Proof.
  induction c as [|c IH]; cbn [nexts_disk]; [apply wp_ret; auto|].
  apply wp_bind. unfold storage.Next_. cbn [dcurrent].
  change (InvalidPageID =? InvalidPageID) with true. cbv iota.
  apply wp_ret.
  apply wp_bind. eapply wp_mono; [exact IH|].
  cbv beta. intros [l it] d' (Hl & ->). apply wp_ret.
  cbn [fst] in *. rewrite Hl. auto.
Qed.

Lemma nexts_disk_at d n :
  disk_holds d n ->
  forall c i l, leaf_nexts c n i = Ok l ->
    wp (nexts_disk c (mkDiskIter (rootID d) i)) d
       (fun r d' => fst r = l /\ d' = d).
Proof.
  intros (dp & Hc & Hn & Hp & Hne).
  apply Z.eqb_neq in Hne.
  induction c as [|c IH]; intros i l Hl; cbn [nexts_disk leaf_nexts] in *.
  { injection Hl as <-. apply wp_ret. auto. }
  apply wp_bind. unfold storage.Next_. cbn [dcurrent dindex]. rewrite Hne.
  apply wp_bind. eapply wp_loadNode_cached; [eassumption|].
  apply wp_bind. eapply wp_dderef; [eassumption|].
  destruct (i >=? NumKeys n) eqn:E.
  - destruct (leaf_nexts c n i) as [rest| | |] eqn:Hrest; try discriminate.
    injection Hl as <-. apply wp_ret.
    apply wp_bind. eapply wp_mono; [apply (IH i rest Hrest)|].
    cbv beta. intros [l it] d' (Hl & ->). apply wp_ret.
    cbn [fst] in *. rewrite Hl. auto.
  - destruct (KeyAt n i) as [k| | |] eqn:Hk; try discriminate.
    destruct (ValueAt n i) as [v| | |] eqn:Hv; try discriminate.
    cbn [rbind] in Hl.
    destruct (leaf_nexts c n (i + 1)) as [rest| | |] eqn:Hrest; try discriminate.
    injection Hl as <-.
    apply wp_bind. eapply wp_lift; [reflexivity|].
    apply wp_bind. eapply wp_lift; [reflexivity|].
    destruct (i + 1 >=? NumKeys n) eqn:E'.
    + apply wp_ret.
      rewrite leaf_nexts_ended in Hrest
        by (rewrite Z.geb_leb in E'; apply Z.leb_le in E'; exact E').
      injection Hrest as <-.
      apply wp_bind. eapply wp_mono; [apply nexts_disk_ended|].
      cbv beta. intros [l it] d' (Hl & ->). apply wp_ret.
      cbn [fst] in *. rewrite Hl. auto.
    + apply wp_ret.
      apply wp_bind. eapply wp_mono; [apply (IH (i + 1) rest Hrest)|].
      cbv beta. intros [l it] d' (Hl & ->). apply wp_ret.
      cbn [fst] in *. rewrite Hl. auto.
Qed.

Lemma disk_scan d n c key l :
  disk_holds d n -> leaf_scan c n key = Ok l ->
  wp (scan_disk c key) d (fun a d' => a = l /\ d' = d).
Proof.
  intros Hd Hscan. pose proof Hd as (dp & Hc & Hn & Hp & Hne).
  unfold leaf_scan in Hscan.
  destruct (findKeyIndex_node n key) as [i0| | |] eqn:Hi; try discriminate.
  cbn [rbind] in Hscan.
  destruct (btree.larger_loop _ n key i0) as [i| | |] eqn:EL; try discriminate.
  cbn [rbind] in Hscan.
  unfold scan_disk. apply wp_bind. unfold storage.FindLarger.
  apply wp_bind, wp_get.
  apply wp_bind. eapply wp_loadNode_cached; [eassumption|].
  apply wp_bind. unfold findLeaf.
  apply wp_bind. eapply wp_dderef; [eassumption|]. apply wp_ret.
  apply wp_bind, wp_get.
  apply wp_bind. eapply wp_lift.
  { unfold storage.findKeyIndex, dnode_at. rewrite Hn. exact Hi. }
  apply wp_bind. eapply wp_dderef; [eassumption|].
  apply wp_bind. eapply wp_lift; [rewrite larger_loop_same; exact EL|].
  destruct (i >=? NumKeys n) eqn:E.
  - apply wp_ret.
    rewrite leaf_nexts_ended in Hscan
      by (rewrite Z.geb_leb in E; apply Z.leb_le in E; exact E).
    injection Hscan as <-.
    apply wp_bind. eapply wp_mono; [apply nexts_disk_ended|].
    cbv beta. intros [l' it] d' (Hl & ->). apply wp_ret. auto.
  - apply wp_bind, wp_get. apply wp_ret.
    unfold getPageIDFromNode. rewrite Hp.
    apply wp_bind. eapply wp_mono; [apply (nexts_disk_at d n Hd c i l Hscan)|].
    cbv beta. intros [l' it] d' (Hl & ->). apply wp_ret. auto.
Qed.

Lemma leaf_get_total n key :
  lone_leaf n -> exists r, leaf_get n key = Ok r.
Proof.
  intros HS. unfold leaf_get.
  destruct (findKeyIndex_node_total n key HS) as (i & -> & _). cbn [rbind].
  destruct (leaf_hit_total n key i HS) as [h ->]. cbn [rbind].
  destruct h; [|eauto].
  destruct HS as (_ & _ & HV & HN & _).
  destruct (ValueAt_total n i ltac:(lia)) as [v ->]. cbn. eauto.
Qed.

Lemma larger_loop_total n key :
  NumKeys n <= Z.of_nat (length (Keys n)) ->
  forall steps i, exists r, btree.larger_loop steps n key i = Ok r.
Proof.
  intros HK. induction steps as [|steps IH]; intros i; cbn [btree.larger_loop];
    [eauto|].
  destruct (i <? NumKeys n); [|eauto].
  destruct (KeyAt_total n i HK) as [k ->]. cbn [rbind].
  destruct (Compare k key <=? 0); [apply IH|eauto].
Qed.

Lemma leaf_scan_total c n key :
  lone_leaf n -> exists l, leaf_scan c n key = Ok l.
Proof.
  intros HS. unfold leaf_scan.
  destruct (findKeyIndex_node_total n key HS) as (i0 & -> & _). cbn [rbind].
  pose proof HS as (_ & HK & _ & HN & _).
  destruct (larger_loop_total n key ltac:(lia)
              (S (Z.to_nat (NumKeys n - i0))) i0) as [i ->].
  cbn [rbind]. apply leaf_nexts_total. assumption.
Qed.

(** *** A new tree *)

Lemma lone_leaf_New : lone_leaf NewLeafNode.
Proof. repeat split; cbn; lia. Qed.

Lemma mem_holds_New : mem_holds btree.New NewLeafNode.
Proof. exists 0%nat. split; reflexivity. Qed.

Lemma NewDiskBTree_holds p d0 :
  NewDiskBTree p = Ok (inr d0) -> disk_holds d0 NewLeafNode.
Proof.
  unfold NewDiskBTree. intros H.
  unfold bind at 1, on_pm in H. cbn [pm] in H.
  destruct (AllocatePage BTreeLeafType p) as [[[id err] p']| | |];
    try discriminate.
  destruct err as [e|]; [discriminate|].
  unfold bind at 1, dalloc, set_pm in H. cbn [dnodes length app] in H.
  set (d1 := set_dnodes _ _) in H.
  destruct (wp_exec _ _ _
              (saveNode_spec d1 id 0%nat NewLeafNode eq_refl
                 ltac:(cbn; lia) ltac:(cbn; lia)))
    as (err & d2 & Hs & _ & Hd & Hr & Hrest).
  unfold bind in H. rewrite Hs in H.
  destruct err as [e|]; [discriminate|].
  destruct Hrest as (Hc & Hp & Hne).
  unfold modify, ret in H. cbn [rbind] in H. injection H as <-.
  exists 0%nat. cbn. rewrite Hc, Hp, Hd, !lookup_insert_eq. auto.
Qed.
End LeafDisk.
(** * The persistent variant against the in-memory variant *)

Section Refinement.
Import btree.

Lemma exec_bind {S : Type} (m : M S unit) (k : unit -> M S unit) s s1 :
  exec m s = Ok s1 -> exec (x <~ m ;; k x) s = exec (k tt) s1.
Proof.
  unfold exec, bind. destruct (m s) as [[[] s']| | |]; try discriminate.
  intros [= ->]. reflexivity.
Qed.

Lemma wp_value {S A : Type} (m : M S A) (s : S) (r : A) :
  wp m s (fun a s' => a = r /\ s' = s) -> value m s = Ok r.
Proof. intros (a & s' & H & -> & _). unfold value. rewrite H. reflexivity. Qed.

(** One operation on both variants, the in-memory root being a leaf before
    and after. *)
Lemma leaf_step o bt d n bt1 :
  lone_leaf n -> mem_holds bt n -> disk_holds d n ->
  exec (step_mem o) bt = Ok bt1 -> root_is_leaf bt1 = true ->
  exists d1 n1, exec (step_disk o) d = Ok d1 /\
                lone_leaf n1 /\ mem_holds bt1 n1 /\ disk_holds d1 n1.
Proof.
  intros HS Hm Hd He Hleaf. destruct o as [key val|key]; cbn [step_mem step_disk] in *.
  - destruct (leaf_set_total n key val HS) as (r & Hr & Hins).
    destruct r as [n'|].
    + destruct (mem_Set bt n key val n' Hm HS Hr) as (bt' & He' & Hm').
      assert (bt' = bt1) as -> by congruence.
      destruct (wp_exec _ _ _ (disk_Set d n key val _ Hd HS Hr))
        as (a & d1 & _ & Hx & Hd1).
      exists d1, n'. repeat split; try assumption; apply (Hins n' eq_refl).
    + rewrite (mem_Set_splits bt n key val Hm HS Hr bt1 He) in Hleaf.
      discriminate.
  - destruct (leaf_delete_total n key HS) as (n' & Hr & HS').
    destruct (mem_Delete bt n key n' Hm HS Hr) as (bt' & He' & Hm').
    assert (bt' = bt1) as -> by congruence.
    destruct (wp_exec _ _ _ (disk_Delete d n key n' Hd HS Hr))
      as (a & d1 & _ & Hx & Hd1).
    exists d1, n'. auto.
Qed.

Lemma leaf_run ops : forall bt d n,
  lone_leaf n -> mem_holds bt n -> disk_holds d n ->
  stays_leaf ops bt = true ->
  exists bt' d' n',
    exec (run_mem ops) bt = Ok bt' /\ exec (run_disk ops) d = Ok d' /\
    lone_leaf n' /\ mem_holds bt' n' /\ disk_holds d' n'.
Proof.
  induction ops as [|o ops IH]; intros bt d n HS Hm Hd Hstay.
  { exists bt, d, n. auto. }
  cbn [stays_leaf] in Hstay.
  destruct (exec (step_mem o) bt) as [bt1| | |] eqn:He; try discriminate.
  apply andb_prop in Hstay as (Hleaf & Hstay).
  destruct (leaf_step o bt d n bt1 HS Hm Hd He Hleaf)
    as (d1 & n1 & Hx & HS1 & Hm1 & Hd1).
  destruct (IH bt1 d1 n1 HS1 Hm1 Hd1 Hstay) as (bt' & d' & n' & H1 & H2 & H3).
  exists bt', d', n'. cbn [run_mem run_disk].
  rewrite (exec_bind _ _ _ _ He), (exec_bind _ _ _ _ Hx). auto.
Qed.

(** C2, as stated, fails: the persistent variant neither descends through
    internal nodes nor splits a full leaf. On a tree opened on an empty file,
    after key01 .. key05 are set in this order, the in-memory variant finds
    key05 and the persistent variant does not: its [insertIntoLeaf] inserts
    only while the leaf holds fewer than [MaxKeys] keys. *)
Theorem DiskBTree_drops_fifth_key :
  storage.NewPageManager [] = Ok (inr fresh_pm) /\
  storage.NewDiskBTree fresh_pm = Ok (inr fresh_disk) /\
  exists bt d,
    exec (run_mem (ascending_sets 5)) New = Ok bt /\
    exec (run_disk (ascending_sets 5)) fresh_disk = Ok d /\
    Get bt (key_of "key05") = Ok (key_of "value_key05", true) /\
    value (storage.Get (key_of "key05")) d = Ok (None, false) /\
    scan_mem 2 bt (key_of "key03")
      = Ok [(key_of "key04", key_of "value_key04");
            (key_of "key05", key_of "value_key05")] /\
    value (scan_disk 2 (key_of "key03")) d
      = Ok [(key_of "key04", key_of "value_key04"); (None, None)] /\
    value (storage.Get (key_of "key05")) d <> Get bt (key_of "key05").
Proof.
  split; [vm_compute; reflexivity|].
  split; [vm_compute; reflexivity|].
  eexists. eexists.
  split; [vm_compute; reflexivity|].
  split; [vm_compute; reflexivity|].
  repeat split; try (vm_compute; reflexivity).
  vm_compute. discriminate.
Qed.

(** C2, amended. As long as the root of the in-memory tree is a leaf after
    each operation, the persistent variant opened on a new page manager
    agrees with the in-memory variant: every sequence of Set and Delete
    operations runs to the end on both, and afterwards Get returns the same
    result on both for every key, and FindLarger followed by any number of
    Next calls returns the same pairs on both. *)
Theorem DiskBTree_agrees_while_root_is_leaf
    (p : storage.PageManager) (d0 : storage.DiskBTree) (ops : list op) :
  storage.NewDiskBTree p = Ok (inr d0) ->
  stays_leaf ops New = true ->
  exists bt d,
    exec (run_mem ops) New = Ok bt /\
    exec (run_disk ops) d0 = Ok d /\
    (forall key, exists r,
       Get bt key = Ok r /\ value (storage.Get key) d = Ok r) /\
    (forall count key, exists l,
       scan_mem count bt key = Ok l /\ value (scan_disk count key) d = Ok l).
Proof.
  intros Hnew Hstay.
  destruct (leaf_run ops New d0 NewLeafNode lone_leaf_New mem_holds_New
              (NewDiskBTree_holds p d0 Hnew) Hstay)
    as (bt & d & n & Hm & Hd & HS & Hbt & Hdisk).
  exists bt, d. repeat split; try assumption.
  - intros key. destruct (leaf_get_total n key HS) as [r Hr].
    exists r. split.
    + rewrite (mem_Get bt n key Hbt HS). exact Hr.
    + apply wp_value. eapply disk_Get; eassumption.
  - intros count key. destruct (leaf_scan_total count n key HS) as [l Hl].
    exists l. split.
    + rewrite (mem_scan bt n count key Hbt HS). exact Hl.
    + apply wp_value. eapply disk_scan; eassumption.
Qed.

Lemma DiskBTree_agrees_while_root_is_leaf_witness :
  storage.NewDiskBTree fresh_pm = Ok (inr fresh_disk) /\
  stays_leaf single_leaf_ops New = true /\
  exists bt d,
    exec (run_mem single_leaf_ops) New = Ok bt /\
    exec (run_disk single_leaf_ops) fresh_disk = Ok d /\
    (forall key, exists r,
       Get bt key = Ok r /\ value (storage.Get key) d = Ok r) /\
    (forall count key, exists l,
       scan_mem count bt key = Ok l /\ value (scan_disk count key) d = Ok l).
Proof.
  split; [vm_compute; reflexivity|].
  split; [vm_compute; reflexivity|].
  apply (DiskBTree_agrees_while_root_is_leaf fresh_pm fresh_disk single_leaf_ops);
    vm_compute; reflexivity.
Defined.
End Refinement.
(** * Pages and the page manager, beyond allocation *)

Section PageFacts.
Import storage.

Lemma Uint16_PutUint16 v : 0 <= v < 2 ^ 16 -> Uint16 (PutUint16 v) = Ok v.
Proof.
  intros Hv. unfold PutUint16, Uint16. rewrite !Z_of_byte_of_Z. f_equal.
  change (2 ^ 16) with 65536 in Hv. change (2 ^ 8) with 256.
  pose proof (Z.div_mod v 256 ltac:(lia)).
  assert (0 <= v / 256 < 256).
  { split; [apply Z.div_pos; lia|apply Z.div_lt_upper_bound; lia]. }
  rewrite (Z.mod_small (v / 256) 256) by lia. lia.
Qed.

Lemma Serialize_shape p :
  length (Data p) = Z.to_nat (PageSize - PageHeaderSize) ->
  Serialize p
  = [PageType_ (Header p); Reserved (Header p)]
      ++ PutUint16 (DataLength (Header p)) ++ PutUint32 (NextPage (Header p))
      ++ PutUint32 (PrevPage (Header p)) ++ PutUint32 (Checksum (Header p))
      ++ Data p.
Proof.
  intros H. unfold Serialize. cbv zeta. do 5 f_equal.
  rewrite <- H. apply take_app_length.
Qed.

Lemma Serialize_length p : Z.of_nat (length (Serialize p)) = PageSize.
Proof.
  unfold Serialize. cbv zeta.
  rewrite !length_app, length_take, length_app, length_replicate.
  cbn [length]. change (length (PutUint16 _)) with 2%nat.
  rewrite !PutUint32_length. unfold PageSize, PageHeaderSize. lia.
Qed.

Lemma Deserialize_Serialize_typed p q :
  page_typed p ->
  Deserialize q (Serialize p) = Ok (mkPage (ID q) (Header p) (Data p)).
Proof.
  intros (HD & HL & HN & HP & HC). unfold Deserialize.
  rewrite Serialize_length. change (negb (PageSize =? PageSize)) with false.
  cbv iota. rewrite (Serialize_shape p HD).
  destruct (Header p) as [ty rs dl np pp cs]. cbn [PageType_ Reserved DataLength
    NextPage PrevPage Checksum] in *.
  unfold PageType in *. set (data := _ ++ _).
  assert (Hlen : Z.of_nat (length data) = PageSize).
  { unfold data. rewrite !length_app. cbn [length].
    change (length (PutUint16 _)) with 2%nat. rewrite !PutUint32_length, HD.
    unfold PageSize, PageHeaderSize. lia. }
  change (index data 0) with (Ok (A:=byte) ty).
  change (index data 1) with (Ok (A:=byte) rs). cbn [rbind].
  rewrite (sub_at data [ty; rs] (PutUint16 dl)
             (PutUint32 np ++ PutUint32 pp ++ PutUint32 cs ++ Data p) 2
             eq_refl eq_refl : sub data 2 4 = _).
  cbn [rbind]. rewrite Uint16_PutUint16 by assumption. cbn [rbind].
  rewrite (sub_at data ([ty; rs] ++ PutUint16 dl) (PutUint32 np)
             (PutUint32 pp ++ PutUint32 cs ++ Data p) 4
             eq_refl eq_refl : sub data 4 8 = _).
  cbn [rbind]. rewrite Uint32_PutUint32' by assumption. cbn [rbind].
  rewrite (sub_at data ([ty; rs] ++ PutUint16 dl ++ PutUint32 np) (PutUint32 pp)
             (PutUint32 cs ++ Data p) 8
             eq_refl eq_refl : sub data 8 12 = _).
  cbn [rbind]. rewrite Uint32_PutUint32' by assumption. cbn [rbind].
  rewrite (sub_at data ([ty; rs] ++ PutUint16 dl ++ PutUint32 np ++ PutUint32 pp)
             (PutUint32 cs) (Data p) 12
             eq_refl eq_refl : sub data 12 16 = _).
  cbn [rbind]. rewrite Uint32_PutUint32' by assumption. cbn [rbind].
  assert (Hs : sub data PageHeaderSize PageSize = Ok (Data p)).
  { replace PageSize with (PageHeaderSize + Z.of_nat (length (Data p)))
      by (rewrite HD; reflexivity).
    apply (sub_at data ([ty; rs] ++ PutUint16 dl ++ PutUint32 np
                          ++ PutUint32 pp ++ PutUint32 cs) (Data p) []).
    - unfold data. rewrite app_nil_r. reflexivity.
    - reflexivity. }
  rewrite Hs. reflexivity.
Qed.


Lemma SetData_fits p data :
  Z.of_nat (length data) <= Z.of_nat (length (Data p)) ->
  SetData p data
  = Ok (mkPage (ID p)
          (mkHeader (PageType_ (Header p)) (Reserved (Header p))
             (uint16 (Z.of_nat (length data))) (NextPage (Header p))
             (PrevPage (Header p)) (Checksum (Header p)))
          (data ++ replicate (length (Data p) - length data) x00)).
Proof.
  intros H. unfold SetData.
  destruct (Z.of_nat (length data) >? Z.of_nat (length (Data p))) eqn:E;
    [apply Z.gtb_lt in E; lia|reflexivity].
Qed.

(** X2. [SetData] followed by [GetData] gives the data back, the rest of the
    page is zeroed and [AvailableSpace] is what is left of the array; data
    longer than the array is refused. *)
Theorem GetData_SetData (p : Page) (data : bytes) :
  length (Data p) = Z.to_nat (PageSize - PageHeaderSize) ->
  (Z.of_nat (length data) <= PageSize - PageHeaderSize ->
   exists p',
     SetData p data = Ok p' /\ GetData p' = Ok data /\
     AvailableSpace p' = PageSize - PageHeaderSize - Z.of_nat (length data) /\
     ID p' = ID p /\
     Data p' = data ++ replicate (Z.to_nat (PageSize - PageHeaderSize)
                                  - length data) x00 /\
     length (Data p') = length (Data p)) /\
  (PageSize - PageHeaderSize < Z.of_nat (length data) ->
   SetData p data = Err ErrDataTooLarge).
Proof.
  intros HD. split.
  - intros Hfit. eexists. split; [apply SetData_fits; lia|].
    assert (Hu : uint16 (Z.of_nat (length data)) = Z.of_nat (length data)).
    { apply Z.mod_small. unfold PageSize, PageHeaderSize in Hfit. lia. }
    unfold GetData, AvailableSpace. cbn [Data Header DataLength ID].
    rewrite Hu, HD. repeat split.
    + apply sub_Ok. repeat split; try lia.
      * rewrite length_app. lia.
      * change (Z.to_nat 0) with 0%nat. rewrite drop_0, Z.sub_0_r, Nat2Z.id.
        symmetry. apply take_app_length.
    + rewrite length_app, length_replicate. lia.
    + rewrite length_app, length_replicate. lia.
  - intros Hbig. unfold SetData. rewrite HD.
    destruct (_ >? _) eqn:E; [reflexivity|].
    rewrite Z.gtb_ltb in E. apply Z.ltb_ge in E.
    unfold PageSize, PageHeaderSize in *. lia.
Qed.

Lemma GetData_SetData_witness :
  exists p',
    SetData (NewPage 1 BTreeLeafType) (list_byte_of_string "Hello") = Ok p' /\
    GetData p' = Ok (list_byte_of_string "Hello") /\
    AvailableSpace p' = 4075.
Proof.
  destruct (GetData_SetData (NewPage 1 BTreeLeafType)
              (list_byte_of_string "Hello") eq_refl) as (H & _).
  destruct (H ltac:(vm_compute; discriminate)) as (p' & H1 & H2 & H3 & _).
  exists p'. auto.
Defined.

(** The loop of [updateChecksum] is a fold over the bytes in use. *)
Lemma checksum_loop (l : bytes) steps : forall i sum,
  0 <= i -> i + Z.of_nat steps <= Z.of_nat (length l) ->
  for_loop steps i
    (fun i sum => b <- index l i ;; Ok (uint32 (sum + Z_of_byte b))) sum
  = Ok (fold_left (fun sum b => uint32 (sum + Z_of_byte b))
          (take steps (drop (Z.to_nat i) l)) sum).
Proof.
  induction steps as [|steps IH]; intros i sum Hi Hlen; cbn [for_loop].
  { reflexivity. }
  destruct (lookup_lt_is_Some_2 l (Z.to_nat i) ltac:(lia)) as [b Hb].
  assert (Hidx : index l i = Ok b) by (apply index_Ok; auto).
  rewrite Hidx. cbn [rbind].
  rewrite IH by lia.
  rewrite (drop_S l b (Z.to_nat i) Hb). cbn [take fold_left].
  replace (Z.to_nat (i + 1)) with (S (Z.to_nat i)) by lia. reflexivity.
Qed.

Lemma updateChecksum_spec p :
  0 <= DataLength (Header p) <= Z.of_nat (length (Data p)) ->
  updateChecksum p = Ok (set_Checksum (checksum_of p) p).
Proof.
  intros H. unfold updateChecksum, for_range.
  rewrite checksum_loop by lia. cbn [rbind]. rewrite Z.sub_0_r. reflexivity.
Qed.

Lemma fold_uint32_range (l : bytes) : forall sum,
  0 <= sum < 2 ^ 32 ->
  0 <= fold_left (fun sum b => uint32 (sum + Z_of_byte b)) l sum < 2 ^ 32.
Proof.
  induction l as [|b l IH]; intros sum Hs; cbn [fold_left]; [assumption|].
  apply IH. unfold uint32. apply Z.mod_pos_bound. lia.
Qed.

Lemma checksum_of_range p : 0 <= checksum_of p < 2 ^ 32.
Proof. unfold checksum_of. apply fold_uint32_range. lia. Qed.

Lemma writePageLocked_spec page pm f :
  0 <= DataLength (Header page) <= Z.of_nat (length (Data page)) ->
  ID page <> InvalidPageID -> file pm = Some f ->
  writePageLocked page pm
  = Ok (None, mkPM (Some (WriteAt f (Serialize (set_Checksum (checksum_of page) page))
                            (ID page * PageSize)))
                   (nextPage pm) (freeList pm)).
Proof.
  intros HL Hne Hf. unfold writePageLocked.
  destruct (ID page =? InvalidPageID) eqn:E; [apply Z.eqb_eq in E; contradiction|].
  unfold Go.bind, lift. rewrite updateChecksum_spec by assumption.
  cbn [rbind]. unfold get. rewrite Hf. reflexivity.
Qed.

Lemma readPageLocked_written f page0 pm1 pm2 id :
  page_typed page0 -> 0 <= id -> id <> InvalidPageID ->
  readPageLocked (mkPM (Some (WriteAt f (Serialize page0) (id * PageSize))) pm1 pm2) id
  = Ok (mkPage id (Header page0) (Data page0)).
Proof.
  intros Ht H0 Hne. unfold readPageLocked. cbn [file].
  destruct (id =? InvalidPageID) eqn:E; [apply Z.eqb_eq in E; contradiction|].
  rewrite ReadAt_WriteAt; [|unfold PageSize; lia|symmetry; apply Serialize_length].
  cbn [rbind]. rewrite Deserialize_Serialize_typed by assumption. reflexivity.
Qed.

(** X3. A page written to an open page manager is the page read back under
    the same ID, with the checksum of its data in the header. *)
Theorem ReadPage_WritePage (page : Page) (pm : PageManager) (f : bytes) :
  page_typed page ->
  DataLength (Header page) <= PageSize - PageHeaderSize ->
  0 <= ID page -> ID page <> InvalidPageID ->
  file pm = Some f ->
  exists pm',
    WritePage page pm = Ok (None, pm') /\
    nextPage pm' = nextPage pm /\ freeList pm' = freeList pm /\
    ReadPage pm' (ID page) = Ok (set_Checksum (checksum_of page) page).
Proof.
  intros Ht HL H0 Hne Hf. pose proof Ht as (HD & HDL & HN & HP & _).
  eexists. split.
  { unfold WritePage. apply (writePageLocked_spec page pm f); [|assumption..].
    rewrite HD. unfold PageSize, PageHeaderSize in *. lia. }
  split; [reflexivity|]. split; [reflexivity|].
  unfold ReadPage.
  rewrite (readPageLocked_written f (set_Checksum (checksum_of page) page));
    try assumption.
  - reflexivity.
  - repeat split; try assumption; cbn; try lia; apply checksum_of_range.
Qed.

Lemma ReadPage_WritePage_witness :
  exists page pm',
    SetData (NewPage 2 BTreeLeafType) (list_byte_of_string "abc") = Ok page /\
    WritePage page (mkPM (Some []) 3 []) = Ok (None, pm') /\
    ReadPage pm' 2 = Ok (set_Checksum 294 page).
Proof.
  eexists.
  assert (Ht : page_typed
            (mkPage 2 (mkHeader BTreeLeafType x00 3 InvalidPageID InvalidPageID 0)
               (list_byte_of_string "abc" ++ replicate 4077 x00))).
  { repeat split; try reflexivity; vm_compute; congruence. }
  destruct (ReadPage_WritePage _ (mkPM (Some []) 3 []) [] Ht
              ltac:(vm_compute; discriminate) ltac:(vm_compute; discriminate)
              ltac:(vm_compute; discriminate) eq_refl)
    as (pm' & Hw & _ & _ & Hr).
  exists pm'. split; [reflexivity|]. split; [exact Hw|]. exact Hr.
Defined.


(** X1. A page written by [Serialize] is [PageSize] bytes long, and
    [Deserialize] reads the header and the data back from it; the ID is not
    part of the format and stays that of the receiver. *)
Theorem Page_roundtrip (p q : Page) :
  page_typed p ->
  Z.of_nat (length (Serialize p)) = PageSize /\
  Deserialize q (Serialize p) = Ok (mkPage (ID q) (Header p) (Data p)).
Proof.
  intros H. split; [apply Serialize_length|].
  apply Deserialize_Serialize_typed. assumption.
Qed.

Lemma Page_roundtrip_witness :
  Deserialize (NewPage 9 FreePageType)
    (Serialize (mkPage 2 (mkHeader BTreeLeafType x00 3 7 8 294)
                  (list_byte_of_string "abc" ++ replicate 4077 x00)))
  = Ok (mkPage 9 (mkHeader BTreeLeafType x00 3 7 8 294)
          (list_byte_of_string "abc" ++ replicate 4077 x00)).
Proof.
  apply (Page_roundtrip
           (mkPage 2 (mkHeader BTreeLeafType x00 3 7 8 294)
              (list_byte_of_string "abc" ++ replicate 4077 x00))
           (NewPage 9 FreePageType)).
  repeat split; try reflexivity; vm_compute; congruence.
Defined.





(** X5. Once the page manager is closed, reads, writes, allocations and
    deallocations all report an error and the file stays closed; a failed
    allocation has consumed its page ID all the same. *)
Theorem closed_manager_fails (pm : PageManager) :
  exists pm0,
    PageManager_Close pm = Ok (None, pm0) /\ file pm0 = None /\
    nextPage pm0 = nextPage pm /\ freeList pm0 = freeList pm /\
    (forall id, exists e, ReadPage pm0 id = Err e) /\
    (forall page,
       0 <= DataLength (Header page) <= Z.of_nat (length (Data page)) ->
       exists e, WritePage page pm0 = Ok (Some e, pm0)) /\
    (forall id, exists e, DeallocatePage id pm0 = Ok (Some e, pm0)) /\
    (forall ty, exists id e pm1,
       AllocatePage ty pm0 = Ok ((id, Some e), pm1) /\ file pm1 = None /\
       (freeList pm = [] ->
        id = nextPage pm /\ nextPage pm1 = uint32 (nextPage pm + 1))).
Proof.
  eexists. split; [reflexivity|]. cbn [file nextPage freeList].
  repeat split.
  - intros id. unfold ReadPage, readPageLocked. cbn [file].
    destruct (id =? InvalidPageID); eauto.
  - intros page HL. unfold WritePage, writePageLocked.
    destruct (ID page =? InvalidPageID); [eexists; reflexivity|].
    unfold Go.bind, lift. rewrite updateChecksum_spec by assumption.
    eexists. reflexivity.
  - intros id. unfold DeallocatePage, Go.bind.
    rewrite writePageLocked_NewPage. cbn [file].
    destruct (id =? InvalidPageID); eexists; reflexivity.
  - intros ty. rewrite AllocatePage_unfold. cbn [file nextPage freeList].
    destruct (last (freeList pm)) as [x|] eqn:El.
    + cbv iota beta. cbn [file].
      destruct (x =? InvalidPageID); do 3 eexists;
        (split; [reflexivity|split; [reflexivity|]]);
        intros Hnil; rewrite Hnil in El; discriminate.
    + cbv iota beta. cbn [file].
      destruct (nextPage pm =? InvalidPageID); do 3 eexists;
        (split; [reflexivity|split; [reflexivity|]]); auto.
Qed.

Lemma closed_manager_fails_witness :
  exists pm0 e,
    PageManager_Close fresh_pm = Ok (None, pm0) /\
    WritePage (NewPage 1 BTreeLeafType) pm0 = Ok (Some e, pm0).
Proof.
  destruct (closed_manager_fails fresh_pm)
    as (pm0 & Hc & _ & _ & _ & _ & Hw & _).
  destruct (Hw (NewPage 1 BTreeLeafType) ltac:(vm_compute; split; discriminate))
    as (e & He).
  exists pm0, e. auto.
Defined.
End PageFacts.
(** * The node codec: sizes and malformed input *)

Section CodecMore.
Import btree storage.

(** The estimate follows the encoder entry by entry. *)
Lemma estimate_entries n steps : forall i buf0 buf sz,
  serialize_entries steps n i buf0 = Ok buf ->
  for_loop steps i (fun i sz =>
      key <- KeyAt n i ;;
      let sz := match key with Some _ => sz + 4 + len key | None => sz end in
      if IsLeaf n then
        val <- ValueAt n i ;;
        match val with
        | Some _ => Ok (sz + 4 + len val)
        | None => Ok (sz + 4)
        end
      else Ok sz) sz
  = Ok (sz + (Z.of_nat (length buf) - Z.of_nat (length buf0))).
Proof.
  destruct (IsLeaf n) eqn:EL; cbv beta iota;
    induction steps as [|steps IH]; intros i buf0 buf sz H;
    cbn [serialize_entries for_loop] in *;
    try (injection H as <-; f_equal; lia);
    rewrite ?EL in H;
    (destruct (KeyAt n i) as [[kb|]| | |]; cbn [rbind] in *; try discriminate).
  - destruct (ValueAt n i) as [v| | |]; cbn [rbind] in *; try discriminate.
    destruct v as [vb|]; cbn [rbind];
      rewrite (IH _ _ _ _ H); f_equal;
      rewrite !length_app, !PutUint32_length; unfold len; cbn [content length];
      lia.
  - rewrite (IH _ _ _ _ H). f_equal.
    rewrite !length_app, !PutUint32_length. unfold len. cbn [content]. lia.
Qed.

Lemma concat_replicate_length {A : Type} (x : list A) k :
  length (concat (replicate k x)) = (k * length x)%nat.
Proof.
  induction k as [|k IH]; [reflexivity|].
  cbn [replicate concat]. rewrite length_app, IH. lia.
Qed.

(** X6. Whenever [SerializeNode] succeeds, [EstimateNodeSize] is the exact
    length of the bytes it returns. *)
Theorem EstimateNodeSize_exact (n : Node) (buf : bytes) :
  0 <= NumKeys n ->
  SerializeNode (Some n) = Ok buf ->
  EstimateNodeSize n = Ok (Z.of_nat (length buf)).
Proof.
  intros H0 H. unfold SerializeNode in H. unfold EstimateNodeSize, for_range.
  destruct (serialize_entries _ n 0 _) as [b1| | |] eqn:E; try discriminate.
  cbn [rbind] in H. rewrite Z.sub_0_r.
  pose proof (estimate_entries n _ _ _ _ 5 E) as Hest. cbv zeta in Hest.
  cbv zeta. rewrite Hest. cbn [rbind].
  rewrite length_app, PutUint32_length. cbn [length].
  destruct (IsLeaf n); cbn [negb] in H.
  - injection H as <-. f_equal. rewrite length_app, PutUint32_length. lia.
  - unfold for_range in H. rewrite for_loop_append in H. injection H as <-.
    f_equal. unfold bytes. rewrite length_app, concat_replicate_length, PutUint32_length. lia.
Qed.

Lemma EstimateNodeSize_exact_witness :
  exists buf,
    SerializeNode (Some (root_after 3)) = Ok buf /\
    EstimateNodeSize (root_after 3) = Ok (Z.of_nat (length buf)).
Proof.
  assert (H : SerializeNode (Some (root_after 3))
              = Ok (match SerializeNode (Some (root_after 3)) with
                    | Ok b => b
                    | _ => []
                    end)) by (vm_compute; reflexivity).
  eexists. split; [exact H|].
  apply (EstimateNodeSize_exact (root_after 3) _); [vm_compute; congruence|exact H].
Defined.



(** *** The decoder on arbitrary bytes *)

Lemma for_loop_returns {S : Type} (P : S -> Prop) (body : Z -> S -> result S) :
  forall steps i s,
    (forall j x, i <= j < i + Z.of_nat steps -> P x ->
       returns (body j x) /\ forall y, body j x = Ok y -> P y) ->
    P s ->
    returns (for_loop steps i body s) /\
    forall s', for_loop steps i body s = Ok s' -> P s'.
Proof.
  induction steps as [|steps IH]; intros i s Hb Hs; cbn [for_loop].
  { split; [exact I|]. intros s' [= <-]. assumption. }
  destruct (Hb i s ltac:(lia) Hs) as (Hr & Hy).
  destruct (body i s) as [y| | |]; cbn [rbind]; try contradiction.
  - apply IH; [|apply Hy; reflexivity]. intros j x Hj. apply Hb. lia.
  - split; [exact I|discriminate].
Qed.

Lemma Uint32_sub_returns (data : bytes) off :
  0 <= off -> off + 4 <= Z.of_nat (length data) ->
  exists v, (b <- sub data off (off + 4) ;; Uint32 b) = Ok v /\ 0 <= v.
Proof.
  intros H0 H4.
  assert (Hs : sub data off (off + 4)
               = Ok (take (Z.to_nat (off + 4 - off)) (drop (Z.to_nat off) data))).
  { apply sub_Ok. repeat split; try lia. }
  rewrite Hs. cbn [rbind].
  replace (Z.to_nat (off + 4 - off)) with 4%nat by lia.
  assert (Hl : length (take 4 (drop (Z.to_nat off) data)) = 4%nat).
  { rewrite length_take, length_drop. lia. }
  destruct (take 4 (drop (Z.to_nat off) data)) as [|b0 [|b1 [|b2 [|b3 r]]]];
    try discriminate.
  cbn [Uint32]. eexists. split; [reflexivity|].
  pose proof (Z_of_byte_range b0). pose proof (Z_of_byte_range b1).
  pose proof (Z_of_byte_range b2). pose proof (Z_of_byte_range b3). lia.
Qed.

Lemma deserialize_entry_returns data leaf i st :
  0 <= i < MaxKeys -> decoding leaf st ->
  returns (deserialize_entry data i st) /\
  forall st', deserialize_entry data i st = Ok st' -> decoding leaf st'.
Proof.
  intros Hi (H0 & HL & HK & HV). destruct st as [offset node].
  cbn [fst snd] in *. unfold deserialize_entry.
  destruct (offset + 4 >? Z.of_nat (length data)) eqn:E1;
    [split; [exact I|discriminate]|].
  rewrite Z.gtb_ltb in E1. apply Z.ltb_ge in E1.
  destruct (Uint32_sub_returns data offset H0 E1) as (keyLen & -> & HkL).
  cbn [rbind].
  destruct (offset + 4 + keyLen >? Z.of_nat (length data)) eqn:E2;
    [split; [exact I|discriminate]|].
  rewrite Z.gtb_ltb in E2. apply Z.ltb_ge in E2.
  assert (Hs : exists key, sub data (offset + 4) (offset + 4 + keyLen) = Ok key).
  { eexists. apply sub_Ok. repeat split; try lia. }
  destruct Hs as [key ->]. cbn [rbind].
  rewrite (assign_in_range (Keys node) i (Some key))
    by (rewrite HK; unfold MaxKeys in *; lia).
  cbn [rbind].
  change (IsLeaf (set_Keys _ node)) with (IsLeaf node). rewrite HL.
  destruct leaf.
  2:{ split; [exact I|]. intros st' [= <-].
      unfold decoding, set_Keys. cbn [fst snd Keys Values IsLeaf Type_].
      rewrite length_insert.
      repeat split; try lia; try assumption; discriminate. }
  destruct (offset + 4 + keyLen + 4 >? Z.of_nat (length data)) eqn:E3;
    [split; [exact I|discriminate]|].
  rewrite Z.gtb_ltb in E3. apply Z.ltb_ge in E3.
  destruct (Uint32_sub_returns data (offset + 4 + keyLen) ltac:(lia) E3)
    as (valLen & -> & HvL).
  cbn [rbind].
  destruct (offset + 4 + keyLen + 4 + valLen >? Z.of_nat (length data)) eqn:E4;
    [split; [exact I|discriminate]|].
  rewrite Z.gtb_ltb in E4. apply Z.ltb_ge in E4.
  assert (Hs : exists val, sub data (offset + 4 + keyLen + 4)
                             (offset + 4 + keyLen + 4 + valLen) = Ok val).
  { eexists. apply sub_Ok. repeat split; try lia. }
  destruct Hs as [val ->]. cbn [rbind].
  change (Values (set_Keys _ node)) with (Values node).
  rewrite (assign_in_range (Values node) i (Some val))
    by (rewrite (HV eq_refl); unfold MaxKeys in *; lia).
  cbn [rbind]. split; [exact I|]. intros st' [= <-].
  unfold decoding, set_Keys, set_Values. cbn [fst snd Keys Values IsLeaf Type_].
  rewrite !length_insert.
  repeat split; try lia; try assumption; intros _; apply HV; reflexivity.
Qed.

(** X8. [DeserializeNode] rejects input shorter than the five header bytes,
    and on any input that declares at most [MaxKeys] keys it returns a node
    or an error and does not go out of bounds; a node it returns has the
    declared key count and the arrays of the node constructors. *)
Theorem DeserializeNode_safe (data : bytes) :
  (Z.of_nat (length data) < 5 -> DeserializeNode data = Err ErrTooShort) /\
  (forall k, 5 <= Z.of_nat (length data) ->
     declared_keys data = Ok k -> k <= MaxKeys ->
     returns (DeserializeNode data) /\
     forall n, DeserializeNode data = Ok n ->
       NumKeys n = k /\ length (Keys n) = Z.to_nat MaxKeys /\
       (IsLeaf n = true -> length (Values n) = Z.to_nat MaxKeys)).
Proof.
  split.
  - intros H. unfold DeserializeNode.
    destruct (Z.of_nat (length data) <? 5) eqn:E; [reflexivity|].
    apply Z.ltb_ge in E. lia.
  - intros k H5 Hk Hmax. unfold DeserializeNode.
    destruct (Z.of_nat (length data) <? 5) eqn:E; [apply Z.ltb_lt in E; lia|].
    destruct (index_in_range data 0 ltac:(lia)) as [ty ->]. cbn [rbind].
    assert (Hs : sub data 1 5 = Ok (take 4 (drop 1 data))).
    { apply sub_Ok. repeat split; try lia. }
    rewrite Hs. cbn [rbind]. unfold declared_keys in Hk. rewrite Hk.
    cbn [rbind]. unfold for_range. rewrite Z.sub_0_r.
    set (node := if Byte.eqb ty x01 then NewLeafNode else NewInternalNode).
    destruct (for_loop_returns (decoding (Byte.eqb ty x01))
                (deserialize_entry data) (Z.to_nat k) 0 (5, node))
      as (Hr & Hpost).
    + intros j x Hj Hx. apply deserialize_entry_returns; [lia|assumption].
    + unfold node. destruct (Byte.eqb ty x01); repeat split; cbn; lia.
    + destruct (for_loop _ 0 _ _) as [st| | |]; try contradiction.
      * cbn [rbind]. split; [exact I|]. intros n [= <-].
        destruct (Hpost st eq_refl) as (_ & HL & HK & HV).
        cbn. repeat split; try assumption.
        intros Hleaf. apply HV. rewrite <- HL. exact Hleaf.
      * split; [exact I|discriminate].
Qed.

Lemma DeserializeNode_safe_witness :
  returns (DeserializeNode
             ([x01] ++ PutUint32 2 ++ PutUint32 1 ++ list_byte_of_string "k"
                ++ PutUint32 9 ++ list_byte_of_string "short")).
Proof.
  apply (proj2 (DeserializeNode_safe
                  ([x01] ++ PutUint32 2 ++ PutUint32 1 ++ list_byte_of_string "k"
                     ++ PutUint32 9 ++ list_byte_of_string "short")) 2).
  - vm_compute. discriminate.
  - vm_compute. reflexivity.
  - vm_compute. discriminate.
Defined.
End CodecMore.
(** * The order of [bytes.Compare] *)

Section BytesOrder.

Lemma compare_bytes_refl a : compare_bytes a a = 0.
Proof.
  induction a as [|x a IH]; cbn [compare_bytes]; [reflexivity|].
  rewrite N.ltb_irrefl. exact IH.
Qed.

Lemma compare_bytes_range a b :
  compare_bytes a b = -1 \/ compare_bytes a b = 0 \/ compare_bytes a b = 1.
Proof.
  revert b. induction a as [|x a IH]; intros [|y b]; cbn [compare_bytes]; auto.
  destruct (_ <? _)%N; [auto|]. destruct (_ <? _)%N; auto.
Qed.

Lemma compare_bytes_eq a b : compare_bytes a b = 0 <-> a = b.
Proof.
  split; [|intros ->; apply compare_bytes_refl].
  revert b. induction a as [|x a IH]; intros [|y b]; cbn [compare_bytes];
    try discriminate; [reflexivity|].
  destruct (Byte.to_N x <? Byte.to_N y)%N eqn:E1; [discriminate|].
  destruct (Byte.to_N y <? Byte.to_N x)%N eqn:E2; [discriminate|].
  intros H. apply N.ltb_ge in E1, E2.
  assert (Hxy : Byte.to_N x = Byte.to_N y) by lia.
  f_equal; [|apply IH; assumption].
  apply (f_equal Byte.of_N) in Hxy. rewrite !Byte.of_to_N in Hxy.
  injection Hxy as ->. reflexivity.
Qed.

Lemma compare_bytes_antisym a b : compare_bytes b a = - compare_bytes a b.
Proof.
  revert b. induction a as [|x a IH]; intros [|y b]; cbn [compare_bytes];
    try reflexivity.
  destruct (Byte.to_N x <? Byte.to_N y)%N eqn:E1;
    destruct (Byte.to_N y <? Byte.to_N x)%N eqn:E2; try reflexivity.
  - apply N.ltb_lt in E1, E2. lia.
  - apply IH.
Qed.

Lemma compare_bytes_trans a b c :
  compare_bytes a b < 0 -> compare_bytes b c < 0 -> compare_bytes a c < 0.
Proof.
  revert b c. induction a as [|x a IH]; intros [|y b] [|z c];
    cbn [compare_bytes]; try lia.
  destruct (Byte.to_N x <? Byte.to_N y)%N eqn:E1;
    destruct (Byte.to_N y <? Byte.to_N x)%N eqn:E2;
    destruct (Byte.to_N y <? Byte.to_N z)%N eqn:E3;
    destruct (Byte.to_N z <? Byte.to_N y)%N eqn:E4;
    destruct (Byte.to_N x <? Byte.to_N z)%N eqn:E5;
    destruct (Byte.to_N z <? Byte.to_N x)%N eqn:E6;
    try lia;
    try (apply N.ltb_lt in E1); try (apply N.ltb_ge in E1);
    try (apply N.ltb_lt in E2); try (apply N.ltb_ge in E2);
    try (apply N.ltb_lt in E3); try (apply N.ltb_ge in E3);
    try (apply N.ltb_lt in E4); try (apply N.ltb_ge in E4);
    try (apply N.ltb_lt in E5); try (apply N.ltb_ge in E5);
    try (apply N.ltb_lt in E6); try (apply N.ltb_ge in E6);
    try lia.
  apply IH.
Qed.

Lemma Equal_compare a b : equal_bytes a b = true <-> compare_bytes a b = 0.
Proof. rewrite equal_bytes_eq, compare_bytes_eq. reflexivity. Qed.

Lemma equal_bytes_refl a : equal_bytes a a = true.
Proof. apply equal_bytes_eq. reflexivity. Qed.

Lemma equal_bytes_neq a b : a <> b -> equal_bytes a b = false.
Proof.
  intros H. destruct (equal_bytes a b) eqn:E; [|reflexivity].
  apply equal_bytes_eq in E. contradiction.
Qed.
End BytesOrder.
(** * A single leaf is a sorted table *)

Section LeafModel.
Import btree.

(** *** Tables *)

Lemma kv_get_above k m :
  Forall (fun y => compare_bytes k y < 0) (fst <$> m) -> kv_get k m = (None, false).
Proof.
  induction m as [|[k' v] m IH]; cbn [kv_get fmap list_fmap fst]; [reflexivity|].
  intros H. apply Forall_cons in H as (Hk & Hm).
  rewrite equal_bytes_neq; [apply IH; assumption|].
  intros ->. rewrite compare_bytes_refl in Hk. lia.
Qed.

Lemma ascending_above x l y :
  compare_bytes y x < 0 -> Forall (fun z => compare_bytes x z < 0) l ->
  Forall (fun z => compare_bytes y z < 0) l.
Proof.
  intros Hyx H. eapply Forall_impl; [exact H|]. intros z Hz.
  eapply compare_bytes_trans; eassumption.
Qed.

(** On ascending keys, a lookup is a look at the slot that
    [findKeyIndex] computes. *)
Lemma kv_get_pos k m :
  ascending (fst <$> m) ->
  kv_get k m
  = match m !! pos k (fst <$> m) with
    | Some (k', v) => if equal_bytes k' k then (v, true) else (None, false)
    | None => (None, false)
    end.
Proof.
  induction m as [|[k' v] m IH]; cbn [kv_get fmap list_fmap fst pos ascending];
    [reflexivity|].
  intros (Hk & Hm).
  destruct (compare_bytes k k' <=? 0) eqn:E.
  - cbn [lookup list_lookup]. destruct (equal_bytes k' k) eqn:Eq; [reflexivity|].
    apply kv_get_above. apply Z.leb_le in E.
    assert (compare_bytes k k' <> 0).
    { intros H0. apply compare_bytes_eq in H0. subst.
      rewrite equal_bytes_refl in Eq. discriminate. }
    eapply ascending_above; [|exact Hk]. lia.
  - apply Z.leb_gt in E. rewrite equal_bytes_neq.
    + cbn [lookup list_lookup]. apply IH. assumption.
    + intros ->. rewrite compare_bytes_refl in E. lia.
Qed.

Lemma pos_le k l : (pos k l <= length l)%nat.
Proof.
  induction l as [|x l IH]; cbn [pos length]; [lia|].
  destruct (_ <=? _); lia.
Qed.

Lemma pos_below k l j x :
  (j < pos k l)%nat -> l !! j = Some x -> 0 < compare_bytes k x.
Proof.
  revert j. induction l as [|y l IH]; intros j; cbn [pos]; [lia|].
  destruct (compare_bytes k y <=? 0) eqn:E; [lia|]. apply Z.leb_gt in E.
  destruct j as [|j]; cbn [lookup list_lookup].
  - intros _ [= <-]. assumption.
  - intros Hj. apply IH. lia.
Qed.

Lemma pos_at k l x : l !! pos k l = Some x -> compare_bytes k x <= 0.
Proof.
  induction l as [|y l IH]; cbn [pos]; [discriminate|].
  destruct (compare_bytes k y <=? 0) eqn:E.
  - intros [= <-]. apply Z.leb_le. assumption.
  - apply IH.
Qed.

(** [kv_put] writes at the slot of [findKeyIndex]: over the entry there
    when its key is the one put, before it otherwise. *)
Lemma kv_put_pos k v m :
  kv_put k v m
  = match m !! pos k (fst <$> m) with
    | Some (k', _) =>
        if equal_bytes k' k then <[pos k (fst <$> m) := (k', v)]> m
        else take (pos k (fst <$> m)) m ++ (k, v) :: drop (pos k (fst <$> m)) m
    | None => take (pos k (fst <$> m)) m ++ (k, v) :: drop (pos k (fst <$> m)) m
    end.
Proof.
  induction m as [|[k' v'] m IH]; cbn [kv_put fmap list_fmap fst pos];
    [reflexivity|].
  destruct (equal_bytes k' k) eqn:Eq.
  - apply equal_bytes_eq in Eq. subst k'. rewrite compare_bytes_refl.
    cbn. rewrite equal_bytes_refl. reflexivity.
  - destruct (compare_bytes k k' <? 0) eqn:E.
    + apply Z.ltb_lt in E.
      destruct (compare_bytes k k' <=? 0) eqn:E'; [|apply Z.leb_gt in E'; lia].
      cbn. rewrite Eq. reflexivity.
    + apply Z.ltb_ge in E.
      destruct (compare_bytes k k' <=? 0) eqn:E'.
      { apply Z.leb_le in E'. assert (H0 : compare_bytes k k' = 0) by lia.
        apply compare_bytes_eq in H0. subst. rewrite equal_bytes_refl in Eq.
        discriminate. }
      change (((k', v') :: m) !! S (pos k (fst <$> m)))
        with (m !! pos k (fst <$> m)).
      rewrite IH.
      destruct (m !! pos k (fst <$> m)) as [[k2 v2]|]; [|reflexivity].
      destruct (equal_bytes k2 k); reflexivity.
Qed.

Lemma ascending_app l1 x l2 :
  ascending (l1 ++ x :: l2) <->
  ascending l1 /\ ascending l2 /\
  Forall (fun y => compare_bytes y x < 0) l1 /\
  Forall (fun z => compare_bytes x z < 0) l2 /\
  Forall (fun y => Forall (fun z => compare_bytes y z < 0) l2) l1.
Proof.
  induction l1 as [|y l1 IH]; cbn [app ascending].
  - rewrite !Forall_nil. tauto.
  - rewrite Forall_app, !Forall_cons, IH. tauto.
Qed.

Lemma ascending_app2 l1 l2 :
  ascending (l1 ++ l2) <->
  ascending l1 /\ ascending l2 /\
  Forall (fun y => Forall (fun z => compare_bytes y z < 0) l2) l1.
Proof.
  induction l1 as [|y l1 IH]; cbn [app ascending].
  - rewrite !Forall_nil. tauto.
  - rewrite Forall_app, !Forall_cons, IH. tauto.
Qed.

Lemma ascending_put k v m :
  ascending (fst <$> m) -> ascending (fst <$> kv_put k v m).
Proof.
  induction m as [|[k' v'] m IH]; cbn [kv_put fmap list_fmap fst ascending].
  { intros _. split; [constructor|exact I]. }
  intros (Hk & Hm).
  destruct (equal_bytes k' k) eqn:Eq; [split; assumption|].
  destruct (compare_bytes k k' <? 0) eqn:E.
  - apply Z.ltb_lt in E. cbn [fmap list_fmap fst ascending].
    repeat split; try assumption.
    constructor; [assumption|]. eapply ascending_above; eassumption.
  - apply Z.ltb_ge in E. cbn [fmap list_fmap fst ascending].
    split; [|apply IH; assumption].
    assert (Hlt : compare_bytes k' k < 0).
    { rewrite compare_bytes_antisym.
      assert (compare_bytes k k' <> 0).
      { intros H0. apply compare_bytes_eq in H0. subst.
        rewrite equal_bytes_refl in Eq. discriminate. }
      lia. }
    clear IH. revert Hk. clear -Hlt. induction m as [|[k2 v2] m IH];
      cbn [kv_put fmap list_fmap fst].
    + intros _. constructor; [assumption|constructor].
    + intros H. apply Forall_cons in H as (H2 & Hm).
      destruct (equal_bytes k2 k); [constructor; assumption|].
      destruct (compare_bytes k k2 <? 0); cbn [fmap list_fmap fst];
        repeat (constructor; try assumption). apply IH. assumption.
Qed.

Lemma kv_get_put_same k v m :
  ascending (fst <$> m) -> kv_get k (kv_put k v m) = (v, true).
Proof.
  induction m as [|[k' v'] m IH]; cbn [kv_put kv_get fmap list_fmap fst ascending].
  { intros _. rewrite equal_bytes_refl. reflexivity. }
  intros (Hk & Hm).
  destruct (equal_bytes k' k) eqn:Eq; [cbn [kv_get]; rewrite Eq; reflexivity|].
  destruct (compare_bytes k k' <? 0); cbn [kv_get].
  - rewrite equal_bytes_refl. reflexivity.
  - rewrite Eq. apply IH. assumption.
Qed.

Lemma kv_get_put_other k k' v m :
  k' <> k -> kv_get k' (kv_put k v m) = kv_get k' m.
Proof.
  intros Hne. induction m as [|[k2 v2] m IH]; cbn [kv_put kv_get].
  { rewrite equal_bytes_neq by congruence. reflexivity. }
  destruct (equal_bytes k2 k) eqn:Eq.
  - apply equal_bytes_eq in Eq. subst k2. cbn [kv_get].
    rewrite equal_bytes_neq by congruence. reflexivity.
  - destruct (compare_bytes k k2 <? 0); cbn [kv_get].
    + rewrite (equal_bytes_neq k k') by congruence. reflexivity.
    + rewrite IH. reflexivity.
Qed.

Lemma kv_get_delete_same k m : kv_get k (kv_delete k m) = (None, false).
Proof.
  unfold kv_delete. induction m as [|[k' v'] m IH]; [reflexivity|].
  rewrite filter_cons. cbn [fst].
  destruct (decide (equal_bytes k' k = false)) as [E|E]; [|exact IH].
  cbn [kv_get]. rewrite E. exact IH.
Qed.

Lemma kv_get_delete_other k k' m :
  k' <> k -> kv_get k' (kv_delete k m) = kv_get k' m.
Proof.
  intros Hne. unfold kv_delete. induction m as [|[k2 v2] m IH]; [reflexivity|].
  rewrite filter_cons. cbn [fst kv_get].
  destruct (decide (equal_bytes k2 k = false)) as [E|E].
  - cbn [kv_get]. rewrite IH. reflexivity.
  - apply not_false_is_true in E. apply equal_bytes_eq in E. subst k2.
    rewrite equal_bytes_neq by congruence. exact IH.
Qed.

Lemma ascending_filter (P : bytes * slice -> Prop) `{!forall e, Decision (P e)} m :
  ascending (fst <$> m) -> ascending (fst <$> filter P m).
Proof.
  induction m as [|[k v] m IH]; cbn [fmap list_fmap fst ascending]; [auto|].
  intros (Hk & Hm). rewrite filter_cons.
  destruct (decide (P (k, v))); [|apply IH; assumption].
  cbn [fmap list_fmap fst ascending]. split; [|apply IH; assumption].
  clear IH Hm. induction m as [|[k2 v2] m IH]; [constructor|].
  apply Forall_cons in Hk as (H2 & Hk). rewrite filter_cons.
  destruct (decide (P (k2, v2))); [constructor; [assumption|]|]; apply IH; assumption.
Qed.

Lemma filter_none {A} (P : A -> Prop) `{!forall e, Decision (P e)} (l : list A) :
  Forall (fun x => ~ P x) l -> filter P l = [].
Proof.
  induction l as [|x l IH]; [reflexivity|]. intros HF.
  apply Forall_cons in HF as (Hx & Hl). rewrite filter_cons.
  destruct (decide (P x)); [contradiction|]. apply IH. assumption.
Qed.

Lemma filter_all {A} (P : A -> Prop) `{!forall e, Decision (P e)} (l : list A) :
  Forall P l -> filter P l = l.
Proof.
  induction l as [|x l IH]; [reflexivity|]. intros HF.
  apply Forall_cons in HF as (Hx & Hl). rewrite filter_cons.
  destruct (decide (P x)); [|contradiction]. f_equal. apply IH. assumption.
Qed.


Lemma kv_delete_pos k m :
  ascending (fst <$> m) ->
  kv_delete k m
  = match m !! pos k (fst <$> m) with
    | Some (k', _) =>
        if equal_bytes k' k
        then take (pos k (fst <$> m)) m ++ drop (S (pos k (fst <$> m))) m
        else m
    | None => m
    end.
Proof.
  unfold kv_delete.
  induction m as [|[k' v'] m IH]; cbn [fmap list_fmap fst pos ascending];
    [reflexivity|].
  intros (Hk & Hm). rewrite filter_cons. cbn [fst].
  assert (Hrest : forall x, compare_bytes x k' <= 0 ->
            filter (fun e : bytes * slice => equal_bytes (fst e) x = false) m = m).
  { intros x Hx. apply filter_all. apply Forall_fmap in Hk.
    eapply Forall_impl; [exact Hk|]. intros [k2 v2] H2. cbn in *.
    apply equal_bytes_neq. intros ->.
    rewrite compare_bytes_antisym in Hx. lia. }
  destruct (compare_bytes k k' <=? 0) eqn:E.
  - apply Z.leb_le in E. cbn [lookup list_lookup take drop app].
    rewrite (Hrest k E).
    destruct (equal_bytes k' k) eqn:Eq.
    + destruct (decide (true = false)); [discriminate|]. reflexivity.
    + destruct (decide (false = false)); [reflexivity|contradiction].
  - apply Z.leb_gt in E.
    assert (Eq : equal_bytes k' k = false).
    { apply equal_bytes_neq. intros ->. rewrite compare_bytes_refl in E. lia. }
    rewrite Eq. destruct (decide (false = false)); [|contradiction].
    change (((k', v') :: m) !! S (pos k (fst <$> m)))
      with (m !! pos k (fst <$> m)).
    rewrite (IH Hm).
    destruct (m !! pos k (fst <$> m)) as [[k2 v2]|]; [|reflexivity].
    destruct (equal_bytes k2 k); reflexivity.
Qed.

Lemma pos_larger_split k l :
  (pos k l + pos_larger k (drop (pos k l) l))%nat = pos_larger k l.
Proof.
  induction l as [|x l IH]; cbn [pos pos_larger]; [reflexivity|].
  destruct (compare_bytes k x <=? 0) eqn:E; [reflexivity|].
  apply Z.leb_gt in E.
  destruct (compare_bytes x k <=? 0) eqn:E'.
  - cbn [drop]. rewrite <- IH. reflexivity.
  - apply Z.leb_gt in E'. rewrite compare_bytes_antisym in E'. lia.
Qed.

Lemma kv_larger_pos k m :
  ascending (fst <$> m) ->
  kv_larger k m = drop (pos_larger k (fst <$> m)) m.
Proof.
  unfold kv_larger.
  induction m as [|[k' v'] m IH]; cbn [fmap list_fmap fst pos_larger ascending];
    [reflexivity|].
  intros (Hk & Hm). rewrite filter_cons. cbn [fst].
  destruct (compare_bytes k' k <=? 0) eqn:E.
  - apply Z.leb_le in E.
    destruct (decide (0 < compare_bytes k' k)); [lia|].
    cbn [drop]. apply IH. assumption.
  - apply Z.leb_gt in E.
    destruct (decide (0 < compare_bytes k' k)); [|lia].
    cbn [drop]. f_equal. apply filter_all. apply Forall_fmap in Hk.
    eapply Forall_impl; [exact Hk|]. intros [k2 v2] H2. cbn in *.
    assert (compare_bytes k k2 < 0).
    { eapply compare_bytes_trans; [|exact H2].
      rewrite compare_bytes_antisym. lia. }
    rewrite compare_bytes_antisym. lia.
Qed.

(** *** The leaf and its entries *)

Lemma leaf_entries_length n :
  lone_leaf n -> length (leaf_entries n) = Z.to_nat (NumKeys n).
Proof.
  intros (_ & HK & HV & HN & _). unfold leaf_entries, leaf_keys.
  rewrite length_zip_with, !length_take. lia.
Qed.

Lemma leaf_slot n i :
  lone_leaf n -> Forall (fun k : slice => k <> None) (leaf_keys n) ->
  0 <= i < NumKeys n ->
  exists kb v,
    KeyAt n i = Ok (Some kb) /\ ValueAt n i = Ok v /\
    leaf_entries n !! Z.to_nat i = Some (kb, v).
Proof.
  intros (HL & HK & HV & HN & _) Hnn Hi.
  destruct (lookup_lt_is_Some_2 (Keys n) (Z.to_nat i) ltac:(lia)) as [k Hk].
  destruct (lookup_lt_is_Some_2 (Values n) (Z.to_nat i) ltac:(lia)) as [v Hv].
  assert (Hin : leaf_keys n !! Z.to_nat i = Some k).
  { unfold leaf_keys. rewrite lookup_take_lt by lia. exact Hk. }
  pose proof (Forall_lookup_1 _ _ _ _ Hnn Hin) as Hne.
  destruct k as [kb|]; [|contradiction].
  exists kb, v. unfold KeyAt, ValueAt. rewrite HL. cbn [negb orb].
  destruct (i <? 0) eqn:E1; [apply Z.ltb_lt in E1; lia|].
  destruct (i >=? NumKeys n) eqn:E2;
    [rewrite Z.geb_leb in E2; apply Z.leb_le in E2; lia|].
  repeat split.
  - apply index_Ok. split; [lia|exact Hk].
  - apply index_Ok. split; [lia|exact Hv].
  - unfold leaf_entries. rewrite lookup_zip_with, Hin. cbn.
    rewrite lookup_take_lt by lia. rewrite Hv. reflexivity.
Qed.

Lemma findKeyIndex_loop_pos n key :
  lone_leaf n -> Forall (fun k : slice => k <> None) (leaf_keys n) ->
  forall steps i,
    0 <= i -> i + Z.of_nat steps = NumKeys n ->
    findKeyIndex_loop steps n key i
    = Ok (i + Z.of_nat (pos (content key)
                          (drop (Z.to_nat i) (fst <$> leaf_entries n)))).
Proof.
  intros HS Hnn. induction steps as [|steps IH]; intros i H0 Hsum;
    cbn [findKeyIndex_loop].
  - rewrite drop_ge by (rewrite length_fmap, leaf_entries_length by assumption; lia).
    cbn [pos]. f_equal. lia.
  - destruct (leaf_slot n i HS Hnn ltac:(lia)) as (kb & v & -> & _ & He).
    cbn [rbind].
    rewrite (drop_S _ kb (Z.to_nat i))
      by (rewrite list_lookup_fmap, He; reflexivity).
    cbn [pos]. unfold Compare. cbn [content].
    destruct (compare_bytes (content key) kb <=? 0); [f_equal; lia|].
    rewrite IH by lia.
    replace (Z.to_nat (i + 1)) with (S (Z.to_nat i)) by lia. f_equal. lia.
Qed.

Lemma findKeyIndex_node_pos n key :
  lone_leaf n -> Forall (fun k : slice => k <> None) (leaf_keys n) ->
  findKeyIndex_node n key
  = Ok (Z.of_nat (pos (content key) (fst <$> leaf_entries n))).
Proof.
  intros HS Hnn. unfold findKeyIndex_node.
  rewrite (findKeyIndex_loop_pos n key HS Hnn) by (destruct HS as (_&_&_&?&_); lia).
  reflexivity.
Qed.

Lemma leaf_hit_pos n key (p : nat) :
  lone_leaf n -> Forall (fun k : slice => k <> None) (leaf_keys n) ->
  leaf_hit n key (Z.of_nat p)
  = Ok (match leaf_entries n !! p with
        | Some (k', _) => equal_bytes k' (content key)
        | None => false
        end).
Proof.
  intros HS Hnn. unfold leaf_hit.
  destruct (0 <=? Z.of_nat p) eqn:E0; [|apply Z.leb_gt in E0; lia].
  destruct (Z.of_nat p <? NumKeys n) eqn:E.
  - apply Z.ltb_lt in E.
    destruct (leaf_slot n (Z.of_nat p) HS Hnn ltac:(lia)) as (kb & v & -> & _ & He).
    rewrite Nat2Z.id in He. rewrite He. reflexivity.
  - apply Z.ltb_ge in E.
    rewrite lookup_ge_None_2; [reflexivity|].
    rewrite leaf_entries_length by assumption. lia.
Qed.

Lemma leaf_get_kv n key :
  sorted_leaf n -> leaf_get n key = Ok (kv_get (content key) (leaf_entries n)).
Proof.
  intros (HS & Hnn & Hasc). unfold leaf_get.
  rewrite findKeyIndex_node_pos by assumption. cbn [rbind].
  rewrite leaf_hit_pos by assumption. cbn [rbind].
  rewrite (kv_get_pos _ _ Hasc).
  set (p := pos (content key) (fst <$> leaf_entries n)).
  destruct (leaf_entries n !! p) as [[k' v]|] eqn:He; [|reflexivity].
  destruct (equal_bytes k' (content key)); [|reflexivity].
  assert (Hp : (p < Z.to_nat (NumKeys n))%nat).
  { rewrite <- leaf_entries_length by assumption.
    eapply lookup_lt_Some; eassumption. }
  destruct (leaf_slot n (Z.of_nat p) HS Hnn ltac:(lia)) as (kb & v' & _ & -> & He').
  rewrite Nat2Z.id in He'. cbn [rbind]. congruence.
Qed.


(** *** The operations on the leaf and on its entries *)

Ltac leaf_cases n H :=
  let ty := fresh "ty" in let ks := fresh "ks" in let vs := fresh "vs" in
  let ch := fresh "ch" in let nx := fresh "nx" in let pr := fresh "pr" in
  let nk := fresh "nk" in
  destruct n as [ty ks vs ch nx pr nk];
  destruct H as (HL & HK & HV & HN & HX & HP);
  cbn in HL, HK, HV, HN, HX, HP; subst nx pr;
  destruct ty; [|discriminate HL]; clear HL;
  destruct ks as [|? [|? [|? [|? [|]]]]]; try discriminate HK;
  destruct vs as [|? [|? [|? [|? [|]]]]]; try discriminate HV;
  clear HK HV.

Lemma leaf_insert_shape n i key val n' :
  lone_leaf n -> NumKeys n < 4 -> 0 <= i <= NumKeys n ->
  btree.leaf_insert i key val n = Ok n' ->
  leaf_keys n'
  = take (Z.to_nat i) (leaf_keys n) ++ key :: drop (Z.to_nat i) (leaf_keys n) /\
  leaf_entries n'
  = take (Z.to_nat i) (leaf_entries n)
      ++ (content key, val) :: drop (Z.to_nat i) (leaf_entries n).
Proof.
  intros H Hn Hi Hins. leaf_cases n H. cbn in Hn, Hi.
  assert (Hc : nk = 0 \/ nk = 1 \/ nk = 2 \/ nk = 3) by lia.
  destruct Hc as [->|[->|[->| ->]]].
  all: assert (Hc : i = 0 \/ i = 1 \/ i = 2 \/ i = 3) by lia.
  all: destruct Hc as [->|[->|[->| ->]]]; try lia.
  all: lazy in Hins; injection Hins as <-; split; reflexivity.
Qed.

Lemma delete_shift_shape n i n' :
  lone_leaf n -> 0 <= i < NumKeys n ->
  delete_shift i n = Ok n' ->
  leaf_keys n'
  = take (Z.to_nat i) (leaf_keys n) ++ drop (S (Z.to_nat i)) (leaf_keys n) /\
  leaf_entries n'
  = take (Z.to_nat i) (leaf_entries n) ++ drop (S (Z.to_nat i)) (leaf_entries n).
Proof.
  intros H Hi Hdel. leaf_cases n H. cbn in Hi.
  assert (Hc : nk = 1 \/ nk = 2 \/ nk = 3 \/ nk = 4) by lia.
  destruct Hc as [->|[->|[->| ->]]].
  all: assert (Hc : i = 0 \/ i = 1 \/ i = 2 \/ i = 3) by lia.
  all: destruct Hc as [->|[->|[->| ->]]]; try lia.
  all: lazy in Hdel; injection Hdel as <-; split; reflexivity.
Qed.

Lemma assign_value_shape n i val vs k' v' :
  lone_leaf n -> 0 <= i < NumKeys n ->
  assign (Values n) i val = Ok vs ->
  leaf_entries n !! Z.to_nat i = Some (k', v') ->
  leaf_keys (set_Values vs n) = leaf_keys n /\
  leaf_entries (set_Values vs n) = <[Z.to_nat i := (k', val)]> (leaf_entries n).
Proof.
  intros H Hi Hass He. leaf_cases n H. cbn in Hi.
  assert (Hc : nk = 1 \/ nk = 2 \/ nk = 3 \/ nk = 4) by lia.
  destruct Hc as [->|[->|[->| ->]]].
  all: assert (Hc : i = 0 \/ i = 1 \/ i = 2 \/ i = 3) by lia.
  all: destruct Hc as [->|[->|[->| ->]]]; try lia.
  all: lazy in Hass; injection Hass as <-.
  all: lazy in He; injection He as <- <-.
  all: split; reflexivity.
Qed.

Lemma Forall_insert_middle {A} (P : A -> Prop) (l : list A) i x :
  Forall P l -> P x -> Forall P (take i l ++ x :: drop i l).
Proof.
  intros Hl Hx. apply Forall_app. split; [apply Forall_take; assumption|].
  constructor; [assumption|apply Forall_drop; assumption].
Qed.

Lemma Forall_remove_middle {A} (P : A -> Prop) (l : list A) i :
  Forall P l -> Forall P (take i l ++ drop (S i) l).
Proof.
  intros Hl. apply Forall_app.
  split; [apply Forall_take|apply Forall_drop]; assumption.
Qed.

(** [Set] on a leaf is [kv_set] on its entries: the leaf that results is
    sorted and holds the new table; a full leaf refuses a new key, and the
    table is unchanged. *)
Lemma leaf_set_kv n kb val r :
  sorted_leaf n -> leaf_set n (Some kb) val = Ok r ->
  match r with
  | Some n' =>
      sorted_leaf n' /\ leaf_entries n' = kv_set kb val (leaf_entries n)
  | None =>
      NumKeys n = MaxKeys /\ snd (kv_get kb (leaf_entries n)) = false /\
      kv_set kb val (leaf_entries n) = leaf_entries n
  end.
Proof.
  intros (HS & Hnn & Hasc) Hset. unfold leaf_set in Hset.
  rewrite findKeyIndex_node_pos in Hset by assumption. cbn [rbind content] in Hset.
  rewrite leaf_hit_pos in Hset by assumption. cbn [rbind content] in Hset.
  pose proof (kv_get_pos kb _ Hasc) as Hget.
  pose proof (kv_put_pos kb val (leaf_entries n)) as Hput.
  pose proof (pos_le kb (fst <$> leaf_entries n)) as Hple.
  rewrite length_fmap, (leaf_entries_length n HS) in Hple.
  set (p := pos kb (fst <$> leaf_entries n)) in *.
  unfold kv_set. rewrite (leaf_entries_length n HS).
  destruct (leaf_entries n !! p) as [[k' v']|] eqn:He.
  - destruct (equal_bytes k' kb) eqn:Eq.
    + (* the key is there: its value is replaced *)
      rewrite Hget. cbn [snd orb]. rewrite Hput.
      assert (Hp : (p < Z.to_nat (NumKeys n))%nat).
      { rewrite <- (leaf_entries_length n HS). eapply lookup_lt_Some; eassumption. }
      destruct (assign (Values n) (Z.of_nat p) val) as [vs| | |] eqn:Ha;
        try discriminate.
      injection Hset as <-.
      destruct (assign_value_shape n (Z.of_nat p) val vs k' v' HS ltac:(lia) Ha)
        as (Hks & Hes); [rewrite Nat2Z.id; exact He|].
      rewrite Nat2Z.id in Hes.
      destruct (lone_leaf_assign n (Z.of_nat p) val HS ltac:(lia))
        as (vs' & Ha' & HS').
      assert (vs' = vs) as -> by congruence.
      split; [|exact Hes].
      split; [exact HS'|]. split; [rewrite Hks; exact Hnn|].
      rewrite Hes, <- Hput. apply ascending_put. exact Hasc.
    + (* another key is there: insertion before it, if there is room *)
      rewrite Hget. cbn [snd orb].
      destruct (NumKeys n =? MaxKeys) eqn:Efull.
      * injection Hset as <-. apply Z.eqb_eq in Efull. rewrite Efull.
        rewrite Z2Nat.id by (unfold MaxKeys; lia).
        rewrite Z.ltb_irrefl. auto.
      * apply Z.eqb_neq in Efull.
        destruct (btree.leaf_insert (Z.of_nat p) (Some kb) val n)
          as [n'| | |] eqn:Hin; try discriminate.
        injection Hset as <-.
        pose proof HS as (_ & _ & _ & HN & _). unfold MaxKeys in Efull.
        destruct (leaf_insert_shape n (Z.of_nat p) (Some kb) val n' HS
                    ltac:(lia) ltac:(lia) Hin) as (Hks & Hes).
        rewrite Nat2Z.id in Hks, Hes. cbn [content] in Hes.
        destruct (lone_leaf_insert n (Z.of_nat p) (Some kb) val HS
                    ltac:(lia) ltac:(lia)) as (n2 & Hin2 & _ & HS').
        assert (n2 = n') as -> by congruence.
        assert (Hlt : (Z.of_nat (Z.to_nat (NumKeys n)) <? MaxKeys) = true)
          by (apply Z.ltb_lt; unfold MaxKeys; lia).
        rewrite Hlt, Hput.
        split; [|exact Hes].
        split; [exact HS'|]. split.
        -- rewrite Hks. apply Forall_insert_middle; [exact Hnn|discriminate].
        -- rewrite Hes, <- Hput. apply ascending_put. exact Hasc.
  - (* past the last key: insertion at the end, if there is room *)
    rewrite Hget. cbn [snd orb].
    destruct (NumKeys n =? MaxKeys) eqn:Efull.
    + injection Hset as <-. apply Z.eqb_eq in Efull. rewrite Efull.
      rewrite Z2Nat.id by (unfold MaxKeys; lia).
      rewrite Z.ltb_irrefl. auto.
    + apply Z.eqb_neq in Efull.
      destruct (btree.leaf_insert (Z.of_nat p) (Some kb) val n)
        as [n'| | |] eqn:Hin; try discriminate.
      injection Hset as <-.
      pose proof HS as (_ & _ & _ & HN & _). unfold MaxKeys in Efull.
      destruct (leaf_insert_shape n (Z.of_nat p) (Some kb) val n' HS
                  ltac:(lia) ltac:(lia) Hin) as (Hks & Hes).
      rewrite Nat2Z.id in Hks, Hes. cbn [content] in Hes.
      destruct (lone_leaf_insert n (Z.of_nat p) (Some kb) val HS
                  ltac:(lia) ltac:(lia)) as (n2 & Hin2 & _ & HS').
      assert (n2 = n') as -> by congruence.
      assert (Hlt : (Z.of_nat (Z.to_nat (NumKeys n)) <? MaxKeys) = true)
        by (apply Z.ltb_lt; unfold MaxKeys; lia).
      rewrite Hlt, Hput.
      split; [|exact Hes].
      split; [exact HS'|]. split.
      * rewrite Hks. apply Forall_insert_middle; [exact Hnn|discriminate].
      * rewrite Hes, <- Hput. apply ascending_put. exact Hasc.
Qed.

(** [Delete] on a leaf is [kv_delete] on its entries. *)
Lemma leaf_delete_kv n key n' :
  sorted_leaf n -> leaf_delete n key = Ok n' ->
  sorted_leaf n' /\ leaf_entries n' = kv_delete (content key) (leaf_entries n).
Proof.
  intros (HS & Hnn & Hasc) Hdel. unfold leaf_delete in Hdel.
  rewrite findKeyIndex_node_pos in Hdel by assumption. cbn [rbind] in Hdel.
  rewrite leaf_hit_pos in Hdel by assumption. cbn [rbind] in Hdel.
  rewrite (kv_delete_pos (content key) _ Hasc).
  set (p := pos (content key) (fst <$> leaf_entries n)) in *.
  destruct (leaf_entries n !! p) as [[k' v']|] eqn:He.
  - destruct (equal_bytes k' (content key)) eqn:Eq.
    + assert (Hp : (p < Z.to_nat (NumKeys n))%nat).
      { rewrite <- (leaf_entries_length n HS). eapply lookup_lt_Some; eassumption. }
      destruct (delete_shift_shape n (Z.of_nat p) n' HS ltac:(lia) Hdel)
        as (Hks & Hes).
      rewrite Nat2Z.id in Hks, Hes.
      destruct (lone_leaf_delete n (Z.of_nat p) HS ltac:(lia)) as (n2 & Hd2 & HS').
      assert (n2 = n') as -> by congruence.
      split; [|exact Hes].
      split; [exact HS'|]. split.
      * rewrite Hks. apply Forall_remove_middle. exact Hnn.
      * rewrite Hes.
        pose proof (kv_delete_pos (content key) _ Hasc) as Hd.
        fold p in Hd. rewrite He, Eq in Hd. rewrite <- Hd.
        apply ascending_filter. exact Hasc.
    + injection Hdel as <-. split; [|reflexivity]. split; [exact HS|split; assumption].
  - injection Hdel as <-. split; [|reflexivity]. split; [exact HS|split; assumption].
Qed.

(** *** The iterator *)

Lemma larger_loop_pos n key :
  lone_leaf n -> Forall (fun k : slice => k <> None) (leaf_keys n) ->
  forall steps i,
    0 <= i <= NumKeys n -> NumKeys n - i < Z.of_nat steps ->
    btree.larger_loop steps n key i
    = Ok (i + Z.of_nat (pos_larger (content key)
                          (drop (Z.to_nat i) (fst <$> leaf_entries n)))).
Proof.
  intros HS Hnn. induction steps as [|steps IH]; intros i Hi Hfuel; [lia|].
  cbn [btree.larger_loop].
  destruct (i <? NumKeys n) eqn:E.
  - apply Z.ltb_lt in E.
    destruct (leaf_slot n i HS Hnn ltac:(lia)) as (kb & v & -> & _ & He).
    cbn [rbind].
    rewrite (drop_S _ kb (Z.to_nat i))
      by (rewrite list_lookup_fmap, He; reflexivity).
    cbn [pos_larger]. unfold Compare. cbn [content].
    destruct (compare_bytes kb (content key) <=? 0); [|f_equal; lia].
    rewrite IH by lia.
    replace (Z.to_nat (i + 1)) with (S (Z.to_nat i)) by lia. f_equal. lia.
  - apply Z.ltb_ge in E.
    rewrite drop_ge by (rewrite length_fmap, leaf_entries_length by assumption; lia).
    cbn [pos_larger]. f_equal. lia.
Qed.

Lemma pairs_of_nil count : pairs_of count [] = replicate count (None, None).
Proof. induction count as [|c IH]; [reflexivity|]. cbn. rewrite IH. reflexivity. Qed.

Lemma leaf_nexts_pairs n :
  lone_leaf n -> Forall (fun k : slice => k <> None) (leaf_keys n) ->
  forall count i, 0 <= i ->
    leaf_nexts count n i
    = Ok (pairs_of count (drop (Z.to_nat i) (leaf_entries n))).
Proof.
  intros HS Hnn. induction count as [|c IH]; intros i Hi; [reflexivity|].
  cbn [leaf_nexts].
  destruct (i >=? NumKeys n) eqn:E.
  - rewrite Z.geb_leb in E. apply Z.leb_le in E.
    rewrite IH by assumption. cbn [rbind].
    rewrite drop_ge by (rewrite leaf_entries_length by assumption; lia).
    reflexivity.
  - rewrite Z.geb_leb in E. apply Z.leb_gt in E.
    destruct (leaf_slot n i HS Hnn ltac:(lia)) as (kb & v & -> & -> & He).
    cbn [rbind]. rewrite IH by lia. cbn [rbind].
    rewrite (drop_S _ (kb, v) (Z.to_nat i) He).
    replace (Z.to_nat (i + 1)) with (S (Z.to_nat i)) by lia. reflexivity.
Qed.

(** [FindLarger] and [Next] on a leaf give the entries above the key. *)
Lemma leaf_scan_kv n count key :
  sorted_leaf n ->
  leaf_scan count n key
  = Ok (pairs_of count (kv_larger (content key) (leaf_entries n))).
Proof.
  intros (HS & Hnn & Hasc). unfold leaf_scan.
  rewrite findKeyIndex_node_pos by assumption. cbn [rbind].
  pose proof (pos_le (content key) (fst <$> leaf_entries n)) as Hple.
  rewrite length_fmap, (leaf_entries_length n HS) in Hple.
  pose proof HS as (_ & _ & _ & HN & _).
  rewrite (larger_loop_pos n key HS Hnn) by lia.
  cbn [rbind]. rewrite Nat2Z.id.
  rewrite <- Nat2Z.inj_add, pos_larger_split.
  rewrite leaf_nexts_pairs by (assumption || lia).
  rewrite Nat2Z.id. rewrite (kv_larger_pos _ _ Hasc). reflexivity.
Qed.
End LeafModel.
